(** * Tile scoring, tiering and hex-grid queries of the Civ6 map viewer

    A shallow embedding of the scoring engine of [src/modules/utils.js]
    ([calculateWeightedTileScore], [normalizeAndAssignTiers],
    [recalculateScoresAndTiers]) and of the spatial helpers and debug-mode
    entry of [src/modules/interaction.js] ([getCoordsWithinRadius],
    [getHexagonsWithinRadius], [onCanvasClick], [enterDebugMode]), with
    the helpers around them: the min/max bookkeeping of
    [handleRecalculation] (uiControls.js) and [setMinMaxScores]
    (state.js), the heatmap colouring and per-hexagon display decisions of
    [updateMapDisplay] (mapElements.js), elevation, name formatting and
    angle interpolation (utils.js), pointer coordinates (interaction.js)
    and nested configuration updates (config.js).

    Modelling choices:
    - JavaScript numbers used as scores and weights are exact rationals [Q];
      normalized scores are the integers produced by [Math.round]; tile
      coordinates and BFS distances are integers [Z].  Floating-point effects
      (NaN, Infinity, rounding of sums) are outside the model, so the NaN
      guard after normalisation never fires here.
    - A JS object used as a string-keyed record (weights, resource tables,
      tier table, thresholds) is an association list in insertion order.
    - The tile array is a list of distinct tile objects; [workableTiles] and
      [sortedWorkable] alias its elements, so they are lists of indices into
      it and every write goes through the index.
    - [Array.prototype.sort] is stable, so it is modelled by a stable
      insertion sort on the comparator's key. *)

From Stdlib Require Import QArith Qround Qminmax ZArith String Ascii Lia.
From Stdlib Require Import Sorting.Sorted Sorting.Permutation Lqa.
From stdpp Require Import base list sets gmap strings.

Local Open Scope Z_scope.

(** ** JavaScript helpers *)

(** [o ?? d] *)
Definition nullish {A} (o : option A) (d : A) : A :=
  match o with Some v => v | None => d end.

(** Property read on a string-keyed object. *)
Fixpoint prop {A} (o : list (string * A)) (k : string) : option A :=
  match o with
  | [] => None
  | (k', v) :: o' => if String.eqb k' k then Some v else prop o' k
  end.

(** [obj[k] = v]: overwrite an existing key in place, otherwise append. *)
Fixpoint set_prop {A} (o : list (string * A)) (k : string) (v : A)
  : list (string * A) :=
  match o with
  | [] => [(k, v)]
  | (k', v') :: o' =>
      if String.eqb k' k then (k', v) :: o' else (k', v') :: set_prop o' k v
  end.

Definition Qltb (a b : Q) : bool := negb (Qle_bool b a).

(** [Math.round]: round half up. *)
Definition js_round (q : Q) : Z := Qfloor (q + (1 # 2)).

(** [String.prototype.toLowerCase] on ASCII text. *)
Definition ascii_to_lower (c : ascii) : ascii :=
  let n := nat_of_ascii c in
  if (65 <=? n)%nat && (n <=? 90)%nat then ascii_of_nat (n + 32) else c.

Fixpoint to_lower (s : string) : string :=
  match s with
  | EmptyString => EmptyString
  | String c s' => String (ascii_to_lower c) (to_lower s')
  end.

(** ** Data model *)

(** A tile object.  [rivers] is the truthiness of [tile.rivers] and
    [goodyhut] is [tile.goodyhut === true]; absent fields are [None].  The
    last four fields are the derived fields written by the scoring pass. *)
Record tile := mkTile {
  tile_x : Z;
  tile_y : Z;
  terrain : option string;
  feature : option string;
  base_food : option Q;
  base_production : option Q;
  base_gold : option Q;
  resource : option string;
  rivers : bool;
  goodyhut : bool;
  appeal : option Q;
  weighted_score : option Q;
  normalized_score : option Z;
  tier : option string;
  is_workable : option bool
}.

(** The parts of the configuration object the scoring pass reads:
    [config.scoring_weights.yields], [config.scoring_weights.bonuses],
    [config.resource_values] (resource class -> resource -> value) and
    [config.tier_percentiles] (label -> cumulative percentile).  A missing
    sub-object is the empty list. *)
Record config := mkConfig {
  scoring_yields : list (string * Q);
  scoring_bonuses : list (string * Q);
  resource_values : list (string * list (string * option Q));
  tier_percentiles : list (string * Q)
}.

(** ** Scoring (utils.js) *)

Section Scoring.
Local Open Scope Q_scope.

Definition calculateYieldScore (food production gold : Q) (cfg : config) : Q :=
  let weights := scoring_yields cfg in
  let food_w := nullish (prop weights "food") 1 in
  let prod_w := nullish (prop weights "production") 1 in
  let gold_w := nullish (prop weights "gold") (1 # 2) in
  food * food_w + production * prod_w + gold * gold_w.

Definition calculateBalanceBonus (food production : Q) (cfg : config) : Q :=
  let balanceFactor := nullish (prop (scoring_bonuses cfg) "balance_factor") 1 in
  if Qltb 0 food && Qltb 0 production
  then Qmin food production * balanceFactor
  else 0.

Fixpoint resource_lookup (bonusConfig : list (string * Q)) (res : string)
    (resourceConfig : list (string * list (string * option Q))) : Q :=
  match resourceConfig with
  | [] => 0 * 1
  | (resType, resourcesOfType) :: rest =>
      match prop resourcesOfType res with
      | Some v =>
          nullish v 0 *
          nullish (prop bonusConfig
                     (String.append "resource_"
                        (String.append (to_lower resType) "_factor"))) 1
      | None => resource_lookup bonusConfig res rest
      end
  end.

Definition calculateResourceBonus (t : tile) (cfg : config) : Q :=
  match resource t with
  | None | Some EmptyString => 0
  | Some res => resource_lookup (scoring_bonuses cfg) res (resource_values cfg)
  end.

Definition calculateFreshWaterBonus (t : tile) (cfg : config) : Q :=
  if rivers t then nullish (prop (scoring_bonuses cfg) "fresh_water") 0 else 0.

Definition calculateAppealBonus (t : tile) (cfg : config) : Q :=
  match appeal t with
  | None => 0
  | Some a =>
      let positiveFactor :=
        nullish (prop (scoring_bonuses cfg) "appeal_positive_factor") (1 # 2) in
      if Qltb 0 a then a * positiveFactor else 0
  end.

Definition calculateGoodyBonus (t : tile) (cfg : config) : Q :=
  if goodyhut t then nullish (prop (scoring_bonuses cfg) "goody_hut") 0 else 0.

(** [terrain === 'TERRAIN_OCEAN' || feature === 'FEATURE_ICE'] *)
Definition ocean_or_ice (t : tile) : bool :=
  String.eqb (nullish (terrain t) "") "TERRAIN_OCEAN"
  || String.eqb (nullish (feature t) "") "FEATURE_ICE".

Definition calculateWeightedTileScore (t : tile) (cfg : config) : Q :=
  if ocean_or_ice t then 0 else
  let food := nullish (base_food t) 0 in
  let production := nullish (base_production t) 0 in
  let gold := nullish (base_gold t) 0 in
  let yieldScore := calculateYieldScore food production gold cfg in
  let balanceBonus := calculateBalanceBonus food production cfg in
  let resourceBonus := calculateResourceBonus t cfg in
  let freshWaterBonus := calculateFreshWaterBonus t cfg in
  let appealBonus := calculateAppealBonus t cfg in
  let goodyBonus := calculateGoodyBonus t cfg in
  let totalScore := yieldScore + balanceBonus + resourceBonus
                    + freshWaterBonus + appealBonus + goodyBonus in
  Qmax 0 totalScore.

End Scoring.

(** ** Normalisation and tier assignment (utils.js) *)

(** Stable sort by a key ([Array.prototype.sort] with the comparator
    [(a, b) => key a - key b]): ties keep their input order. *)
Section StableSort.
Context {A K : Type} (key : A -> K) (leb : K -> K -> bool).

Fixpoint insert_by (a : A) (l : list A) : list A :=
  match l with
  | [] => [a]
  | b :: l' => if leb (key a) (key b) then a :: b :: l' else b :: insert_by a l'
  end.

Fixpoint sort_by (l : list A) : list A :=
  match l with
  | [] => []
  | a :: l' => insert_by a (sort_by l')
  end.

End StableSort.

(** Record update of the derived fields. *)
Definition set_derived (t : tile) (w : option Q) (n : option Z)
    (tr : option string) (wk : option bool) : tile :=
  mkTile (tile_x t) (tile_y t) (terrain t) (feature t) (base_food t)
    (base_production t) (base_gold t) (resource t) (rivers t) (goodyhut t)
    (appeal t) w n tr wk.

Definition set_normalized (n : Z) (t : tile) : tile :=
  set_derived t (weighted_score t) (Some n) (tier t) (is_workable t).

Definition set_tier (lab : string) (t : tile) : tile :=
  set_derived t (weighted_score t) (normalized_score t) (Some lab) (is_workable t).

Definition workable (t : tile) : bool := nullish (is_workable t) false.

(** Step 1, the body of [tiles.forEach]: weighted score, workability,
    [tier = null], and [normalized_score = 0] for non-workable tiles. *)
Definition mark_tile (cfg : config) (t : tile) : tile :=
  let w := calculateWeightedTileScore t cfg in
  let wk := negb (ocean_or_ice t) in
  set_derived t (Some w) (if wk then normalized_score t else Some 0) None (Some wk).

(** [workableTiles], as indices into the tile array: the [push] of the
    [tiles.forEach] loop, starting at index [i]. *)
Fixpoint workable_from (i : nat) (ts : list tile) : list nat :=
  match ts with
  | [] => []
  | t :: ts' => if workable t then i :: workable_from (S i) ts'
                else workable_from (S i) ts'
  end.

Definition workable_indices (ts : list tile) : list nat := workable_from 0 ts.

Definition weighted_at (ts : list tile) (i : nat) : Q :=
  nullish (ts !! i ≫= weighted_score) 0%Q.

Definition norm_key (ts : list tile) (i : nat) : Z :=
  nullish (ts !! i ≫= normalized_score) 0.

Definition tier_of (ts : list tile) (i : nat) : option string :=
  ts !! i ≫= tier.

(** [workableTiles.reduce((sum, tile) => sum + (tile.weighted_score ?? 0), 0)] *)
Definition totalWeightedScore (ts : list tile) (W : list nat) : Q :=
  fold_left (fun sum i => (sum + weighted_at ts i)%Q) W 0%Q.

(** Step 2: normalisation of the workable tiles. *)
Definition normalize_workable (avgScore : Q) (ts : list tile) : list tile :=
  if Qeq_bool avgScore 0%Q
  then map (fun t => if workable t then set_normalized 0 t else t) ts
  else map (fun t => if workable t
                     then set_normalized
                            (js_round (nullish (weighted_score t) 0%Q / avgScore * 100)%Q)
                            t
                     else t) ts.

(** Inclusive end index of a tier, clamped into [0, nTiles - 1]. *)
Definition cutoff_index (nTiles : nat) (p : Q) : Z :=
  let c := Qceiling (inject_Z (Z.of_nat nTiles) * p) - 1 in
  Z.max 0 (Z.min c (Z.of_nat nTiles - 1)).

Record walk_state := mkWalk {
  arr : list tile;
  scoreThresholds : list (string * Z);
  lastCutoffIndex : nat
}.

(** One iteration of the inner [for] loop: label [sortedWorkable[i]] if it
    has no tier yet. *)
Definition assign_one (sorted : list nat) (nTiles : nat) (lab : string)
    (ts : list tile) (i : nat) : list tile :=
  if (i <? nTiles)%nat then
    match sorted !! i with
    | Some k => match tier_of ts k with
                | None => alter (set_tier lab) k ts
                | Some _ => ts
                end
    | None => ts
    end
  else ts.

(** [for (let i = lo; i <= hi; i++)] *)
Definition assign_range (sorted : list nat) (nTiles : nat) (lab : string)
    (ts : list tile) (lo hi : nat) : list tile :=
  fold_left (assign_one sorted nTiles lab) (seq lo (S hi - lo)) ts.

(** One iteration of [sortedTiersConfig.forEach(([tier, percentileLimit], tierIndex) => ...)]. *)
Definition tier_step (sorted : list nat) (nTiles tierIndex : nat)
    (entry : string * Q) (st : walk_state) : walk_state :=
  let '(lab, percentileLimit) := entry in
  let cutoffIndex := cutoff_index nTiles percentileLimit in
  if (cutoffIndex <? Z.of_nat (lastCutoffIndex st)) && (0 <? tierIndex)%nat
  then st
  else
    let c := Z.to_nat cutoffIndex in
    let scoreAtCutoff :=
      match sorted !! c with Some k => norm_key (arr st) k | None => 0 end in
    mkWalk (assign_range sorted nTiles lab (arr st) (lastCutoffIndex st) c)
           (set_prop (scoreThresholds st) lab scoreAtCutoff)
           (S c).

Fixpoint tier_walk (sorted : list nat) (nTiles tierIndex : nat)
    (tiers : list (string * Q)) (st : walk_state) : walk_state :=
  match tiers with
  | [] => st
  | e :: rest => tier_walk sorted nTiles (S tierIndex) rest
                   (tier_step sorted nTiles tierIndex e st)
  end.

(** Final check: every still unassigned workable tile gets the lowest tier. *)
Definition assign_fallback (sorted : list nat) (lowestTier : string)
    (ts : list tile) : list tile :=
  let unassigned :=
    List.filter (fun k => match tier_of ts k with None => true | Some _ => false end)
      sorted in
  fold_left (fun ts k => alter (set_tier lowestTier) k ts) unassigned ts.

Definition sortedTiers (cfg : config) : list (string * Q) :=
  sort_by snd Qle_bool (tier_percentiles cfg).

(** Step 3: sort the workable tiles, walk the tier table, fall back. *)
Definition assign_tiers (ts : list tile) (W : list nat) (cfg : config)
  : list tile * list (string * Z) :=
  let sortedWorkable := sort_by (norm_key ts) Z.leb W in
  let nTiles := length sortedWorkable in
  if (nTiles =? 0)%nat then (ts, []) else
  let sortedTiersConfig := sortedTiers cfg in
  let st := tier_walk sortedWorkable nTiles 0 sortedTiersConfig (mkWalk ts [] 0) in
  let lowestTier := match sortedTiersConfig with (l, _) :: _ => l | [] => "F"%string end in
  (assign_fallback sortedWorkable lowestTier (arr st), scoreThresholds st).

Definition normalizeAndAssignTiers (tiles : list tile) (cfg : config)
  : list tile * list (string * Z) :=
  let tiles1 := map (mark_tile cfg) tiles in
  let W := workable_indices tiles1 in
  match W with
  | [] => (tiles1, [])
  | _ :: _ =>
      let total := totalWeightedScore tiles1 W in
      let avgScore := (total / inject_Z (Z.of_nat (length W)))%Q in
      let tiles2 := normalize_workable avgScore tiles1 in
      match tier_percentiles cfg with
      | [] => (tiles2, [])
      | _ :: _ => assign_tiers tiles2 W cfg
      end
  end.

(** The [tiles] argument as a JavaScript value: an array, or anything else
    ([null], [undefined], a non-array object). *)
Inductive js_tiles :=
  | TilesArray (ts : list tile)
  | TilesNotArray.

(** [recalculateScoresAndTiers(tiles, config)]: the new state of the
    [tiles] argument and [scoreThresholds].  A falsy [config] is [None]. *)
Definition recalculateScoresAndTiers (a : js_tiles) (cfg : option config)
  : js_tiles * list (string * Z) :=
  match a with
  | TilesNotArray => (a, [])
  | TilesArray ts =>
      match cfg with
      | None => (a, [])
      | Some c => let '(ts', th) := normalizeAndAssignTiers ts c in (TilesArray ts', th)
      end
  end.

(** ** Sample data *)

Definition defaultTierPercentiles : list (string * Q) :=
  [("F", 5 # 100); ("E", 15 # 100); ("D", 35 # 100); ("C", 65 # 100);
   ("B", 85 # 100); ("A", 95 # 100); ("S", 1)]%string%Q.

Definition sample_config : config :=
  mkConfig [("food", 1); ("production", 1); ("gold", 1 # 2)]%string%Q
           [("balance_factor", 1 # 2); ("fresh_water", 10); ("goody_hut", 15);
            ("appeal_positive_factor", 1 # 2)]%string%Q
           [("strategic", [("RESOURCE_IRON", Some 5%Q)])]%string
           defaultTierPercentiles.

Definition land (x y : Z) (food prod gold : Q) : tile :=
  mkTile x y (Some "TERRAIN_GRASS"%string) None (Some food) (Some prod) (Some gold)
    None false false None None None None None.

Definition ocean (x y : Z) : tile :=
  mkTile x y (Some "TERRAIN_OCEAN"%string) None (Some 1%Q) None None
    None false false None None None None None.

(** ** Hex-grid radius queries (interaction.js) *)

(** A coordinate pair.  The JavaScript code keys its [visited] set and
    [hexagonCoordMap] with the string [`${q},${r}`], which is injective on
    integer coordinates, so the pair itself is the key here. *)
Abbreviation coord := (Z * Z)%type.

(** Six neighbour offsets chosen by row parity
    ([Number(cr) % 2 === 0], i.e. the remainder, which is [-1] on odd
    negative rows). *)
Definition direct_offsets (cr : Z) : list coord :=
  if Z.rem cr 2 =? 0
  then [(1, 0); (1, 1); (0, 1); (-1, 0); (0, -1); (1, -1)]
  else [(1, 0); (0, 1); (-1, 1); (-1, 0); (-1, -1); (0, -1)].

Definition getDirectNeighbors (cq cr : Z) : list coord :=
  map (fun o : coord => (cq + o.1, cr + o.2)) (direct_offsets cr).

Record bfs_state := mkBfs {
  queue : list (coord * Z);
  visited : gset coord;
  results : list coord
}.

(** Body of [directNeighbors.forEach(...)] for a node at distance [d]. *)
Definition visit_neighbor (d : Z) (st : bfs_state) (nb : coord) : bfs_state :=
  if decide (nb ∈ visited st) then st
  else mkBfs (queue st ++ [(nb, d + 1)]) ({[nb]} ∪ visited st) (results st ++ [nb]).

(** The [while (queue.length > 0)] loop, one [queue.shift()] per round.
    The loop is run on a fuel bound; [bfs_fuel] is shown below to exceed the
    number of rounds the loop takes. *)
Fixpoint bfs_loop (fuel : nat) (radius : Z) (st : bfs_state) : list coord :=
  match fuel with
  | O => results st
  | S fuel' =>
      match queue st with
      | [] => results st
      | (c, d) :: rest =>
          let st' := mkBfs rest (visited st) (results st) in
          if d <? radius
          then bfs_loop fuel' radius
                 (fold_left (visit_neighbor d) (getDirectNeighbors c.1 c.2) st')
          else bfs_loop fuel' radius st'
      end
  end.

Definition bfs_fuel (radius : Z) : nat :=
  S (Z.to_nat ((2 * radius + 1) * (2 * radius + 1))).

Definition getCoordsWithinRadius (q r radius : Z) : list coord :=
  if radius <=? 0 then [(q, r)]
  else bfs_loop (bfs_fuel radius) radius (mkBfs [((q, r), 0)] {[(q, r)]} [(q, r)]).

(** Hexagon handles are numbered; [hexagonCoordMap] maps a coordinate to
    the handle stored under it, and [centerHex.userData.coord] is an
    optional coordinate ([None] also for a missing [centerHex]). *)
Definition getHexagonsWithinRadius (hexagonCoordMap : gmap coord nat)
    (centerCoord : option coord) (radius : Z) : gset nat :=
  match centerCoord with
  | None => ∅
  | Some (q, r) =>
      fold_left (fun acc c => match hexagonCoordMap !! c with
                              | Some h => {[h]} ∪ acc
                              | None => acc
                              end)
        (getCoordsWithinRadius q r radius) ∅
  end.

(** ** Debug (focus) mode (interaction.js) *)

Definition DEBUG_WORKABLE_RADIUS : Z := 3.

Record debug_state := mkDebug {
  isDebugModeActive : bool;
  debugModeCenterHex : option nat;
  debugModeVisibleSet : gset nat;
  debugModeWorkableSet : gset nat;
  debugModeOuterRingSet : gset nat;
  currentlyAffectedHexagons : list nat
}.

(** What a click sees: the debug toggle, whether camera, raycaster and
    hexagons exist, the hexagon hit first by the ray (if it is a hexagon),
    the coordinate index and each handle's [userData.coord]. *)
Record click_env := mkClickEnv {
  isDebugModeEnabled : bool;
  scene_ready : bool;
  first_hit : option nat;
  hexagonCoordMap : gmap coord nat;
  hex_coord : nat -> option coord
}.

Definition enterDebugMode (env : click_env) (st : debug_state) (centerHex : nat)
  : debug_state :=
  let c := hex_coord env centerHex in
  let fullRadius := DEBUG_WORKABLE_RADIUS + 1 in
  let visibleSet := getHexagonsWithinRadius (hexagonCoordMap env) c fullRadius in
  let workableSet :=
    getHexagonsWithinRadius (hexagonCoordMap env) c DEBUG_WORKABLE_RADIUS in
  let outerRingSet := visibleSet ∖ workableSet in
  mkDebug true (Some centerHex) visibleSet workableSet outerRingSet [].

Definition onCanvasClick (env : click_env) (st : debug_state) : debug_state :=
  if negb (isDebugModeEnabled env) || isDebugModeActive st then st
  else if negb (scene_ready env) then st
  else match first_hit env with
       | Some h => enterDebugMode env st h
       | None => st
       end.

Definition exitDebugMode (st : debug_state) : debug_state :=
  if negb (isDebugModeActive st) then st
  else mkDebug false None ∅ ∅ ∅ [].

Definition idle_state : debug_state := mkDebug false None ∅ ∅ ∅ [].

Definition sample_coord_map : gmap coord nat :=
  list_to_map (zip (map (fun i => (Z.of_nat i mod 9, Z.of_nat i / 9)) (seq 0 81))
                   (seq 0 81)).

Definition sample_env (hit : nat) : click_env :=
  mkClickEnv true true (Some hit) sample_coord_map
    (fun h => Some (Z.of_nat h mod 9, Z.of_nat h / 9)).

(** ** Hover neighbourhood and Escape key (interaction.js) *)

(** [getNeighborCoords(q, r)]: nothing in debug mode, otherwise the
    coordinates within [config.hoverRadius] other than the centre. *)
Definition getNeighborCoords (isDebugModeActive : bool) (hoverRadius q r : Z)
  : list coord :=
  if isDebugModeActive then []
  else List.filter (fun c : coord => negb ((c.1 =? q) && (c.2 =? r)))
         (getCoordsWithinRadius q r hoverRadius).

(** [getNeighborHexagons(centerHex)]: the handles stored under the hover
    neighbours, pushed in order; [None] is a hexagon without usable
    coordinates. *)
Definition getNeighborHexagons (isDebugModeActive : bool) (hoverRadius : Z)
    (hexagonCoordMap : gmap coord nat) (centerCoord : option coord) : list nat :=
  match centerCoord with
  | None => []
  | Some (q, r) =>
      fold_left (fun acc c => match hexagonCoordMap !! c with
                              | Some h => acc ++ [h]
                              | None => acc
                              end)
        (getNeighborCoords isDebugModeActive hoverRadius q r) []
  end.

(** [onEscapeKey(event)] on the debug state. *)
Definition onEscapeKey (key : string) (st : debug_state) : debug_state :=
  if String.eqb key "Escape" && isDebugModeActive st then exitDebugMode st else st.

(** ** Easing (utils.js) *)

Definition easeOutQuad (t : Q) : Q := (t * (2 - t))%Q.

Definition smoothStep (x : Q) : Q := (x * x * (3 - 2 * x))%Q.

(** ** Heatmap range (uiControls.js, state.js) and colour (mapElements.js) *)

(** [setMinMaxScores(newMin, newMax)]: the new [(minScore, maxScore)]. *)
Definition setMinMaxScores (newMin newMax : Z) : Z * Z :=
  if newMin =? newMax then (newMin, newMax + 1) else (newMin, newMax).

(** One iteration of the [forEach] of [handleRecalculation] over
    [(min, max)]; [None] stands for the initial [Infinity] and [-Infinity]. *)
Definition score_range_step (acc : option Z * option Z) (t : tile)
  : option Z * option Z :=
  if workable t then
    match normalized_score t with
    | Some n => (Some (match acc.1 with Some m => Z.min m n | None => n end),
                 Some (match acc.2 with Some m => Z.max m n | None => n end))
    | None => acc
    end
  else acc.

(** [handleRecalculation]: [state.mapData.tiles] ([None] when no map is
    loaded) and [(state.minScore, state.maxScore)] after the call.  The
    [TilesNotArray] branch is never taken: an array stays an array. *)
Definition handleRecalculation (mapTiles : option (list tile)) (cfg : config)
    (range : Z * Z) : option (list tile) * (Z * Z) :=
  match mapTiles with
  | None => (None, range)
  | Some ts =>
      let ts' := match fst (recalculateScoresAndTiers (TilesArray ts) (Some cfg)) with
                 | TilesArray ts' => ts'
                 | TilesNotArray => ts
                 end in
      let '(min, max) := fold_left score_range_step ts' (None, None) in
      (Some ts', setMinMaxScores (nullish min 0) (nullish max 100))
  end.

(** The colour returned by [getHeatmapColor(score)], for [heatmapColors]
    of length [ncolors] and [state.minScore], [state.maxScore]: the neutral
    colour, or the interpolation between [heatmapColors[segmentIndex]] and
    [heatmapColors[segmentIndex + 1]] at [segmentT]. *)
Inductive heat_color :=
  | Neutral
  | Lerp (segmentIndex : Z) (segmentT : Q).

Definition getHeatmapColor (stateMin stateMax : option Q) (ncolors : nat)
    (score : option Q) : heat_color :=
  let minScore := nullish stateMin 0%Q in
  let maxScore := nullish stateMax 100%Q in
  match score with
  | None => Neutral
  | Some s =>
      if Qeq_bool maxScore minScore || (ncolors <? 2)%nat then Neutral else
      let t := Qmax 0 (Qmin 1 ((s - minScore) / (maxScore - minScore))) in
      let numSegments := Z.of_nat ncolors - 1 in
      let segmentIndex := Z.min (Qfloor (t * inject_Z numSegments)) (numSegments - 1) in
      Lerp segmentIndex (t * inject_Z numSegments - inject_Z segmentIndex)%Q
  end.

(** ** Elevation and display names (utils.js) *)

(** [s.includes(sub)] *)
Fixpoint str_includes (s sub : string) : bool :=
  String.prefix sub s ||
  match s with EmptyString => false | String _ s' => str_includes s' sub end.

(** [calculateElevation(tile)]; [elevationFactor] is the value of
    [config.elevationFactor] and [rnd] the value [Math.random()] returns
    (drawn for open ocean only). *)
Definition calculateElevation (elevationFactor rnd : Q) (t : tile) : Q :=
  let terrain := nullish (terrain t) EmptyString in
  let feature := nullish (feature t) EmptyString in
  let elevation :=
    if String.eqb terrain "TERRAIN_OCEAN" then (- (1 # 5) - rnd * (3 # 25))%Q
    else if String.eqb terrain "TERRAIN_COAST" then (- (1 # 10))%Q
    else if str_includes terrain "HILLS" then (1 # 2)%Q
    else if str_includes terrain "MOUNTAIN" then 1%Q
    else 0%Q in
  let elevation :=
    if String.eqb feature "FEATURE_FOREST" || String.eqb feature "FEATURE_JUNGLE"
    then (elevation + (1 # 4))%Q
    else if String.eqb feature "FEATURE_ICE" then 0%Q
    else elevation in
  (elevation * elevationFactor)%Q.

(** [s.replace(pattern, replacement)] with a string pattern: the first
    occurrence only. *)
Fixpoint replace_first (pattern replacement s : string) : string :=
  if String.prefix pattern s
  then String.append replacement (substring (String.length pattern) (String.length s) s)
  else match s with
       | EmptyString => EmptyString
       | String c s' => String c (replace_first pattern replacement s')
       end.

(** [s.split(sep)] for a one-character separator. *)
Fixpoint str_split (sep : ascii) (s : string) : list string :=
  match s with
  | EmptyString => [EmptyString]
  | String c s' =>
      let rest := str_split sep s' in
      if Ascii.eqb c sep then EmptyString :: rest
      else match rest with
           | w :: ws => String c w :: ws
           | [] => [String c EmptyString]
           end
  end.

(** [words.join(sep)] *)
Fixpoint array_join (sep : string) (words : list string) : string :=
  match words with
  | [] => EmptyString
  | [w] => w
  | w :: ws => String.append w (String.append sep (array_join sep ws))
  end.

(** [word => word.charAt(0) + word.slice(1).toLowerCase()] *)
Definition capitalize_word (word : string) : string :=
  match word with
  | EmptyString => EmptyString
  | String c w => String c (to_lower w)
  end.

(** [s.replace(pattern, '').split('_').map(capitalize_word).join(' ')] *)
Definition format_key (pattern s : string) : string :=
  array_join " " (map capitalize_word (str_split "_"%char (replace_first pattern EmptyString s))).

Definition formatTerrainName (terrain : option string) : string :=
  match terrain with
  | None | Some EmptyString => "Unknown"
  | Some s => format_key "TERRAIN_" s
  end.

Definition formatFeatureName (feature : option string) : string :=
  match feature with
  | None | Some EmptyString => "None"
  | Some s => format_key "FEATURE_" s
  end.

Definition formatResourceName (resource : option string) : string :=
  match resource with
  | None | Some EmptyString => "None"
  | Some s => format_key "RESOURCE_" s
  end.

(** ** Map display (mapElements.js) *)

(** [isOceanOrCoast(tile)] *)
Definition isOceanOrCoast (t : tile) : bool :=
  match terrain t with
  | Some s => String.eqb s "TERRAIN_OCEAN" || String.eqb s "TERRAIN_COAST"
  | None => false
  end.

(** The display options of [config] that [updateMapDisplay] reads. *)
Record display_config := mkDisplayConfig {
  showScoreHeatmap : bool;
  highlightTopTiles : bool;
  showTierLabels : bool;
  showResources : bool;
  selectedTiers : list string
}.

(** [Object.keys(tierStyles)] (config.js). *)
Definition tierStyles_keys : list string := ["S"; "A"; "B"; "C"; "D"; "E"; "F"].

(** [targetColor]: the hexagon's own terrain colour, [heatmapNeutralColor]
    or a colour of the heatmap gradient. *)
Inductive hex_color := OriginalColor | HeatmapNeutralColor | HeatColor (c : heat_color).

(** What one iteration of [state.hexagons.forEach] in [updateMapDisplay]
    writes on a hexagon: [material.color], [material.opacity],
    [material.transparent], [visible], the emissive colour and intensity,
    [position.y] (when it is not animating) and the visibility of its tier
    label (an existing label, or the one created for a tile with a tier). *)
Record hex_view := mkHexView {
  hv_color : hex_color;
  hv_opacity : Q;
  hv_transparent : bool;
  hv_visible : bool;
  hv_emissive : Z * Q;
  hv_y : Q;
  hv_label_visible : bool
}.

(** [tileTier && config.selectedTiers.includes(tileTier)] *)
Definition tier_selected (dc : display_config) (t : tile) : bool :=
  match tier t with
  | Some l => negb (String.eqb l "") && existsb (fun s => String.eqb s l) (selectedTiers dc)
  | None => false
  end.

(** The body of [state.hexagons.forEach] in [updateMapDisplay] for the
    hexagon of tile [t]: [ncolors], [minScore] and [maxScore] are what
    [getHeatmapColor] reads, [elevationFactor] and [rnd] what
    [calculateElevation] reads, [hovered] tells whether the hexagon is
    [state.hoveredHexagon] and [prev] is its emissive colour and intensity
    before the update.  The highlight colour [0xAAAA00] is 11184640. *)
Definition updateMapDisplay_hex (dc : display_config) (ncolors : nat)
    (minScore maxScore : option Q) (elevationFactor rnd : Q) (hovered : bool)
    (prev : Z * Q) (t : tile) : hex_view :=
  let isOcean := isOceanOrCoast t in
  let isWorkable := nullish (is_workable t) (negb isOcean) in
  let anyTierUnselected := (length (selectedTiers dc) <? length tierStyles_keys)%nat in
  let targetColor :=
    if showScoreHeatmap dc && isWorkable then
      HeatColor (getHeatmapColor minScore maxScore ncolors
                   (option_map inject_Z (normalized_score t)))
    else if showScoreHeatmap dc && negb isWorkable then HeatmapNeutralColor
    else OriginalColor in
  let isSelectedTier := tier_selected dc t in
  let '(opacity, isVisible) :=
    if negb isWorkable && anyTierUnselected && negb (showScoreHeatmap dc)
    then ((3 # 10)%Q, true)
    else if isWorkable && negb isSelectedTier then ((15 # 100)%Q, false)
    else (1%Q, true) in
  let isTopTier :=
    match tier t with Some l => String.eqb l "S" || String.eqb l "A" | None => false end in
  let emissive0 := if hovered then prev else (0, 0%Q) in
  let '(emissive, opacity) :=
    if highlightTopTiles dc && isTopTier && negb (showScoreHeatmap dc) && isSelectedTier
    then ((11184640, (1 # 2)%Q),
          if negb isSelectedTier then Qmax opacity (4 # 10) else opacity)
    else (emissive0, opacity) in
  let elevation := calculateElevation elevationFactor rnd t in
  mkHexView targetColor opacity (Qltb opacity 1) isVisible emissive
    (if isOcean then elevation else 0%Q)
    (isVisible && isSelectedTier && showTierLabels dc && negb (showScoreHeatmap dc)).


(** ** Angles and pointer coordinates (utils.js, interaction.js) *)

(** [Math.PI], the double closest to pi. *)
Definition Math_PI : Q := 884279719003555 # 281474976710656.

(** [Math.trunc] *)
Definition js_trunc (q : Q) : Z := if Qltb q 0 then Qceiling q else Qfloor q.

(** JavaScript's [%] on numbers, for a non-zero divisor: the remainder
    has the sign of the dividend. *)
Definition js_mod (a b : Q) : Q := (a - b * inject_Z (js_trunc (a / b)))%Q.

(** [lerpAngle(start, end, t)] *)
Definition lerpAngle (start end_ t : Q) : Q :=
  let shortestAngle :=
    (js_mod (js_mod (end_ - start) (2 * Math_PI) + 3 * Math_PI) (2 * Math_PI) - Math_PI)%Q in
  (start + shortestAngle * Qmin 1 t)%Q.

(** [updateMousePosition(clientX, clientY)] for the canvas rectangle
    [(left, top, width, height)]: the new [(state.mouse.x, state.mouse.y)]. *)
Definition updateMousePosition (left top width height clientX clientY : Q) : Q * Q :=
  (((clientX - left) / width) * 2 - 1, - ((clientY - top) / height) * 2 + 1)%Q.

(** ** Configuration updates (config.js) *)

(** A value of the [config] object tree.  Objects are association lists in
    insertion order.  Reading a property of a primitive or of [null] gives
    [undefined] (or throws, for [null]); names of properties inherited from
    [Object.prototype] ([constructor], [toString], ...) are not modelled as
    present. *)
#[warnings="-register-all"]
Inductive jval :=
  | JNum (q : Q)
  | JStr (s : string)
  | JBool (b : bool)
  | JNull
  | JArr (l : list jval)
  | JObj (fields : list (string * jval)).

(** [v[k]] on an object; [None] is [undefined]. *)
Definition jget (v : jval) (k : string) : option jval :=
  match v with JObj fs => prop fs k | _ => None end.

(** Outcome of [updateConfig]: the new configuration, the configuration
    left as it was (a warning was logged, or an exception was caught), or a
    walk through an array, which this model does not cover. *)
Inductive config_update :=
  | ConfigSet (c : jval)
  | ConfigKept
  | ConfigUnmodelled.

(** The loop of [updateConfig] over [keys] from [current] and the final
    [current[finalKey] = value]: a missing intermediate key returns early,
    a primitive, [null] (whose read throws) or non-object parent leaves the
    configuration unchanged; the nested objects are updated in place. *)
Fixpoint set_path (current : jval) (keys : list string) (value : jval) : config_update :=
  match keys with
  | [] => ConfigKept
  | [finalKey] =>
      match current with
      | JObj fs => ConfigSet (JObj (set_prop fs finalKey value))
      | JArr _ => ConfigUnmodelled
      | _ => ConfigKept
      end
  | k :: ks =>
      match current with
      | JObj fs =>
          match prop fs k with
          | None => ConfigKept
          | Some child =>
              match set_path child ks value with
              | ConfigSet c => ConfigSet (JObj (set_prop fs k c))
              | r => r
              end
          end
      | JArr _ => ConfigUnmodelled
      | _ => ConfigKept
      end
  end.

(** [Math.sqrt(3)], the double closest to the square root of 3. *)
Definition Math_SQRT3 : Q := 3900231685776981 # 2251799813685248.

(** [updateConfig(key, value)] on the configuration object [config]
    (config.js, first definition): the spacings are recomputed after a
    [hexRadius] update (a non-numeric radius is not modelled). *)
Definition updateConfig (key : string) (value : jval) (config : jval) : config_update :=
  match set_path config (str_split "."%char key) value with
  | ConfigSet c =>
      if String.eqb key "hexRadius" then
        match c, jget c "hexRadius" with
        | JObj fs, Some (JNum r) =>
            ConfigSet (JObj (set_prop (set_prop fs "verticalSpacing" (JNum (r * Math_SQRT3 / 2)))
                               "horizontalSpacing" (JNum (r * (3 # 2)))))
        | _, _ => ConfigUnmodelled
        end
      else ConfigSet c
  | r => r
  end.

(** ** Vocabulary of the proofs *)

(** A tile with its tier erased, and with all derived fields erased. *)
Definition drop_tier (t : tile) : tile :=
  set_derived t (weighted_score t) (normalized_score t) None (is_workable t).

Definition reset (t : tile) : tile := set_derived t None None None None.

(** [ts'] differs from [ts] only in tiers, and only at indices in [S]. *)
Definition tier_upd (S : list nat) (ts ts' : list tile) : Prop :=
  map drop_tier ts' = map drop_tier ts /\
  (forall j, j ∉ S -> ts' !! j = ts !! j).

(** Coverage of a scoring pass from [ts] to [ts']: same length; each
    workable tile (not open ocean, no ice) is marked workable and carries a
    tier; each non-workable tile has weighted and normalized score 0 and no
    tier. *)
Definition tiers_cover (ts ts' : list tile) : Prop :=
  length ts' = length ts /\
  forall i t, ts !! i = Some t ->
    exists t', ts' !! i = Some t' /\
      (ocean_or_ice t = false ->
         is_workable t' = Some true /\ exists l, tier t' = Some l) /\
      (ocean_or_ice t = true ->
         is_workable t' = Some false /\ weighted_score t' = Some 0%Q /\
         normalized_score t' = Some 0 /\ tier t' = None).

(** Scenario A of the spec: two land tiles around an ocean tile. *)
Definition sampleA : list tile := [land 0 0 2 2 0; ocean 1 0; land 2 0 1 1 0].

(** The mean weighted score of the workable tiles, and the tile array
    right before tier assignment (after steps 1 and 2). *)
Definition avgScore_of (tiles : list tile) (cfg : config) : Q :=
  let tiles1 := map (mark_tile cfg) tiles in
  let W := workable_indices tiles1 in
  (totalWeightedScore tiles1 W / inject_Z (Z.of_nat (length W)))%Q.

Definition pre_tiers (tiles : list tile) (cfg : config) : list tile :=
  let tiles1 := map (mark_tile cfg) tiles in
  match workable_indices tiles1 with
  | [] => tiles1
  | _ :: _ => normalize_workable (avgScore_of tiles cfg) tiles1
  end.

(** Rank of a tier label: its position in the percentile table (for the
    default table, F < E < D < C < B < A < S). *)
Fixpoint tier_rank (T : list (string * Q)) (l : string) : nat :=
  match T with
  | [] => 0
  | (l', _) :: T' => if String.eqb l' l then 0 else S (tier_rank T' l)
  end.

(** A correctly ordered percentile table: strictly increasing percentiles,
    the last one equal to 1. *)
Fixpoint increasing_percentiles (T : list (string * Q)) : bool :=
  match T with
  | (_, p) :: (((_, p') :: _) as T') => Qltb p p' && increasing_percentiles T'
  | _ => true
  end.

Fixpoint ends_at_one (T : list (string * Q)) : bool :=
  match T with
  | [] => false
  | [(_, p)] => Qeq_bool p 1
  | _ :: T' => ends_at_one T'
  end.

(** The tier of the tile at position [p] of [sortedWorkable]. *)
Definition pos_tier (sorted : list nat) (ts : list tile) (p : nat) : option string :=
  match sorted !! p with Some k => tier_of ts k | None => None end.

(** Invariant of the tier walk after [k] entries of the table [T]: the
    positions below [lastCutoffIndex] are labelled, with ranks below [k]
    that grow with the position; the others are unlabelled. *)
Definition walk_inv (T : list (string * Q)) (sorted : list nat) (k : nat)
    (st : walk_state) : Prop :=
  let n := length sorted in
  let last := lastCutoffIndex st in
  (forall x, x ∈ sorted -> (x < length (arr st))%nat) /\
  (last <= n)%nat /\
  (k = 0%nat -> last = 0%nat) /\
  (forall p, (last <= p < n)%nat -> pos_tier sorted (arr st) p = None) /\
  (forall p, (p < last)%nat ->
     exists l, pos_tier sorted (arr st) p = Some l /\ (tier_rank T l < k)%nat) /\
  (forall p q lp lq, (p <= q < last)%nat ->
     pos_tier sorted (arr st) p = Some lp -> pos_tier sorted (arr st) q = Some lq ->
     (tier_rank T lp <= tier_rank T lq)%nat) /\
  (forall e, T !! (k - 1)%nat = Some e -> (0 < k)%nat ->
     (S (Z.to_nat (cutoff_index n (snd e))) <= last)%nat).

(** The [i]-th tile of scenario A after scoring (the ocean tile if out of
    range). *)
Definition sampleA_tile (i : nat) : tile :=
  nullish (fst (normalizeAndAssignTiers sampleA sample_config) !! i) (ocean 0 0).

(** Axial coordinates of the offset layout of the neighbour tables (even
    rows shifted right): [to_axial] maps the six offsets of either row
    parity to the same six axial directions, and hex distance is the norm
    of the axial difference. *)
Definition to_axial (c : coord) : coord := (c.1 - (c.2 + 1) / 2, c.2).

Definition of_axial (v : coord) : coord := (v.1 + (v.2 + 1) / 2, v.2).

Definition vadd (v w : coord) : coord := (v.1 + w.1, v.2 + w.2).

Definition axial_dirs : list coord :=
  [(1, 0); (0, 1); (-1, 1); (-1, 0); (0, -1); (1, -1)].

Definition hex_norm (v : coord) : Z :=
  Z.max (Z.abs v.1) (Z.max (Z.abs v.2) (Z.abs (v.1 + v.2))).

Definition hex_dist (c c' : coord) : Z :=
  hex_norm ((to_axial c).1 - (to_axial c').1, (to_axial c).2 - (to_axial c').2).

(** An explicit enumeration of the hex ball: the rows [b = -n .. n] of
    axial vectors, each row the interval of [a] with [|a| <= n] and
    [|a + b| <= n]. *)
Fixpoint sym_range (n : nat) : list Z :=
  match n with
  | O => [0]
  | S m => - Z.of_nat n :: sym_range m ++ [Z.of_nat n]
  end.

Definition zseg (lo : Z) (len : nat) : list Z :=
  map (fun i => lo + Z.of_nat i) (seq 0 len).

Definition ball_row (n : nat) (b : Z) : list coord :=
  let N := Z.of_nat n in
  let lo := Z.max (- N) (- N - b) in
  let hi := Z.min N (N - b) in
  map (fun a => (a, b)) (zseg lo (Z.to_nat (hi - lo + 1))).

Definition ball_axial (n : nat) : list coord := flat_map (ball_row n) (sym_range n).

Definition ball_list (c0 : coord) (radius : Z) : list coord :=
  map (fun v => of_axial (vadd (to_axial c0) v)) (ball_axial (Z.to_nat radius)).

Definition sumZ (l : list Z) (f : Z -> Z) : Z := fold_right (fun b acc => f b + acc) 0 l.

(** One round of the [while] loop: shift the head, expand it when its
    distance is below the radius. *)
Definition bfs_step (radius : Z) (st : bfs_state) : bfs_state :=
  match queue st with
  | [] => st
  | (c, d) :: rest =>
      let st' := mkBfs rest (visited st) (results st) in
      if d <? radius then fold_left (visit_neighbor d) (getDirectNeighbors c.1 c.2) st'
      else st'
  end.

(** Invariant of the breadth-first loop around [c0]: [results] has no
    repetition and lists the [visited] set; its members are within the
    radius; it is a processed prefix followed by the queued coordinates,
    and a processed coordinate strictly inside the radius has all its
    neighbours found; each queue entry carries the hex distance of its
    coordinate; the queue is sorted by distance, spans at most one unit,
    and every coordinate no farther than the head's distance is found. *)
Definition bfs_inv (c0 : coord) (radius : Z) (st : bfs_state) : Prop :=
  NoDup (results st) /\
  (forall c, c ∈ visited st <-> c ∈ results st) /\
  c0 ∈ results st /\
  (forall c, c ∈ results st -> hex_dist c c0 <= radius) /\
  (exists P, results st = P ++ map fst (queue st) /\
     forall c, c ∈ P -> hex_dist c c0 < radius ->
       forall n, n ∈ getDirectNeighbors c.1 c.2 -> n ∈ results st) /\
  Forall (fun e : coord * Z => e.2 = hex_dist e.1 c0) (queue st) /\
  StronglySorted (fun e1 e2 : coord * Z => e1.2 <= e2.2) (queue st) /\
  (forall e rest, queue st = e :: rest ->
     Forall (fun e' : coord * Z => e'.2 <= e.2 + 1) rest /\
     forall c, hex_dist c c0 <= e.2 -> c ∈ results st).

(** [c'] is reached from [c] in at most [k] steps between direct
    neighbours. *)
Fixpoint within_steps (c : coord) (k : nat) (c' : coord) : bool :=
  bool_decide (c' = c) ||
  match k with
  | O => false
  | S k' => existsb (fun n => within_steps n k' c') (getDirectNeighbors c.1 c.2)
  end.

(** Every tier written in [ts] is one of the labels [L]; the walk keeps
    this and thresholds keyed by distinct labels of [L]. *)
Definition tiers_from (L : list string) (ts : list tile) : Prop :=
  forall i t l, ts !! i = Some t -> tier t = Some l -> l ∈ L.

Definition labels_inv (L : list string) (st : walk_state) : Prop :=
  tiers_from L (arr st) /\
  (forall x, x ∈ map fst (scoreThresholds st) -> x ∈ L) /\
  NoDup (map fst (scoreThresholds st)).

(** The tile [t] with new base yields and river / goody-hut flags. *)
Definition with_yields (t : tile) (f p g : Q) (rv gh : bool) : tile :=
  mkTile (tile_x t) (tile_y t) (terrain t) (feature t) (Some f) (Some p) (Some g)
    (resource t) rv gh (appeal t) (weighted_score t) (normalized_score t) (tier t)
    (is_workable t).

(** The [(min, max)] accumulator after the tiles [seen]: no workable
    scored tile yet, or the bounds of their scores, attained by one. *)
Definition range_ok (seen : list tile) (acc : option Z * option Z) : Prop :=
  match acc with
  | (None, None) =>
      forall t n, t ∈ seen -> workable t = true -> normalized_score t = Some n -> False
  | (Some m, Some M) =>
      m <= M /\
      (exists t n, t ∈ seen /\ workable t = true /\ normalized_score t = Some n) /\
      (forall t n, t ∈ seen -> workable t = true -> normalized_score t = Some n ->
         m <= n <= M)
  | _ => False
  end.

(** Reading the path [keys] of an object tree. *)
Fixpoint jpath (v : jval) (keys : list string) : option jval :=
  match keys with
  | [] => Some v
  | k :: ks => match jget v k with Some c => jpath c ks | None => None end
  end.

(** * Properties *)

(** ** Scoring *)

(** C4: [calculateWeightedTileScore] never returns a negative number, for
    every tile (missing fields, zero yields, negative appeal included) and
    every weight configuration. *)
Theorem calculateWeightedTileScore_nonneg (t : tile) (cfg : config) :
  (0 <= calculateWeightedTileScore t cfg)%Q.
Proof.
  unfold calculateWeightedTileScore.
  destruct (ocean_or_ice t).
  - apply Qle_refl.
  - apply Q.le_max_l.
Qed.

(** ** Error path of [recalculateScoresAndTiers] *)

(** C10: a [tiles] argument that is not an array, or a missing [config],
    gives [{scoreThresholds: {}}] and leaves the argument untouched. *)
Theorem recalculate_invalid_input :
  (forall cfg, recalculateScoresAndTiers TilesNotArray cfg = (TilesNotArray, [])) /\
  (forall ts, recalculateScoresAndTiers (TilesArray ts) None = (TilesArray ts, [])).
Proof. split; reflexivity. Qed.

(** ** Debug mode *)

(** C8: a click while debug mode is active changes nothing: the center and
    the visible, workable and outer-ring sets stay those of the first entry. *)
Theorem onCanvasClick_active_noop (env : click_env) (st : debug_state) :
  isDebugModeActive st = true -> onCanvasClick env st = st.
Proof.
  intros Hact. unfold onCanvasClick. rewrite Hact, orb_true_r. reflexivity.
Qed.

Lemma onCanvasClick_active_noop_witness :
  isDebugModeActive (onCanvasClick (sample_env 40) idle_state) = true /\
  onCanvasClick (sample_env 12) (onCanvasClick (sample_env 40) idle_state)
  = onCanvasClick (sample_env 40) idle_state.
Proof.
  assert (H : isDebugModeActive (onCanvasClick (sample_env 40) idle_state) = true)
    by reflexivity.
  split; [exact H | apply (onCanvasClick_active_noop (sample_env 12) _ H)].
Defined.

(** ** Tiering: list and sorting facts *)

Lemma lookup_map {A B} (f : A -> B) (l : list A) (i : nat) :
  map f l !! i = f <$> l !! i.
Proof. revert i; induction l as [|a l IH]; intros [|i]; simpl; auto. Qed.

Lemma map_eq_lookup {A B} (f : A -> B) (l1 l2 : list A) (i : nat) (a : A) :
  map f l1 = map f l2 -> l1 !! i = Some a ->
  exists b, l2 !! i = Some b /\ f a = f b.
Proof.
  intros Hm Hl. pose proof (f_equal (fun l => l !! i) Hm) as Hi. simpl in Hi.
  rewrite !lookup_map, Hl in Hi.
  destruct (l2 !! i) as [b|] eqn:Hb; simpl in Hi; [|discriminate].
  exists b. split; [reflexivity|]. injection Hi; auto.
Qed.

Section SortFacts.
Context {A K : Type} (key : A -> K) (leb : K -> K -> bool).
Hypothesis leb_total : forall a b, leb a b = false -> leb b a = true.

Definition key_le (x y : A) : Prop := leb (key x) (key y) = true.

Lemma insert_by_perm (a : A) (l : list A) :
  Permutation (insert_by key leb a l) (a :: l).
Proof.
  induction l as [|b l IH]; simpl; [reflexivity|].
  destruct (leb (key a) (key b)); [reflexivity|].
  rewrite IH. apply perm_swap.
Qed.

Lemma sort_by_perm (l : list A) : Permutation (sort_by key leb l) l.
Proof.
  induction l as [|a l IH]; simpl; [reflexivity|].
  rewrite insert_by_perm, IH. reflexivity.
Qed.

Lemma insert_by_hdrel (a b : A) (l : list A) :
  key_le b a -> HdRel key_le b l -> HdRel key_le b (insert_by key leb a l).
Proof.
  intros Hba Hl. destruct l as [|c l]; simpl.
  - constructor. exact Hba.
  - destruct (leb (key a) (key c)); constructor; [exact Hba|].
    inversion Hl; assumption.
Qed.

Lemma insert_by_sorted (a : A) (l : list A) :
  Sorted key_le l -> Sorted key_le (insert_by key leb a l).
Proof.
  induction 1 as [|b l Hs IH Hhd]; simpl.
  - repeat constructor.
  - destruct (leb (key a) (key b)) eqn:Hab.
    + constructor; [constructor; assumption|constructor; exact Hab].
    + constructor; [exact IH|].
      apply insert_by_hdrel; [apply leb_total; exact Hab|exact Hhd].
Qed.

Lemma sort_by_sorted (l : list A) : Sorted key_le (sort_by key leb l).
Proof.
  induction l as [|a l IH]; simpl; [constructor|].
  apply insert_by_sorted, IH.
Qed.

End SortFacts.

Lemma strongly_sorted_lookup {A} (R : A -> A -> Prop) (l : list A) :
  StronglySorted R l ->
  forall i j x y, (i < j)%nat -> l !! i = Some x -> l !! j = Some y -> R x y.
Proof.
  induction 1 as [|a l Hs IH Hall]; intros i j x y Hij Hi Hj; [discriminate|].
  destruct i as [|i], j as [|j]; simpl in *; try lia.
  - injection Hi as <-. rewrite Forall_forall in Hall. apply Hall.
    eapply list_elem_of_lookup_2; eauto.
  - eapply IH; [|eauto|eauto]. lia.
Qed.

Lemma Zleb_total (a b : Z) : (a <=? b) = false -> (b <=? a) = true.
Proof. rewrite Z.leb_gt, Z.leb_le. lia. Qed.

Lemma Qle_bool_total (a b : Q) : Qle_bool a b = false -> Qle_bool b a = true.
Proof.
  intros H. apply Qle_bool_iff. destruct (Qlt_le_dec b a) as [Hlt|Hle].
  - apply Qlt_le_weak, Hlt.
  - apply Qle_bool_iff in Hle. congruence.
Qed.

(** ** Tiering: tier writes touch nothing else *)

Lemma drop_tier_set_tier (l : string) (t : tile) : drop_tier (set_tier l t) = drop_tier t.
Proof. destruct t; reflexivity. Qed.

Lemma map_drop_tier_alter (l : string) (k : nat) (ts : list tile) :
  map drop_tier (alter (set_tier l) k ts) = map drop_tier ts.
Proof.
  revert k; induction ts as [|t ts IH]; intros [|k]; simpl.
  - reflexivity.
  - reflexivity.
  - rewrite drop_tier_set_tier. reflexivity.
  - f_equal. apply IH.
Qed.

Lemma tier_upd_refl (S : list nat) (ts : list tile) : tier_upd S ts ts.
Proof. split; auto. Qed.

Lemma tier_upd_trans (S : list nat) (ts1 ts2 ts3 : list tile) :
  tier_upd S ts1 ts2 -> tier_upd S ts2 ts3 -> tier_upd S ts1 ts3.
Proof.
  intros [H1 H2] [H3 H4]. split.
  - rewrite H3; exact H1.
  - intros j Hj. rewrite H4, H2; auto.
Qed.

Lemma tier_upd_alter (S : list nat) (l : string) (k : nat) (ts : list tile) :
  k ∈ S -> tier_upd S ts (alter (set_tier l) k ts).
Proof.
  intros Hk. split; [apply map_drop_tier_alter|].
  intros j Hj. apply list_lookup_alter_ne. intros ->. contradiction.
Qed.

Lemma tier_upd_fold {B} (S : list nat) (f : list tile -> B -> list tile)
    (xs : list B) (ts : list tile) :
  (forall ts x, x ∈ xs -> tier_upd S ts (f ts x)) ->
  tier_upd S ts (fold_left f xs ts).
Proof.
  revert ts; induction xs as [|x xs IH]; intros ts Hf; simpl.
  - apply tier_upd_refl.
  - eapply tier_upd_trans; [apply Hf; left|].
    apply IH. intros ts' y Hy. apply Hf. right. exact Hy.
Qed.

Lemma tier_upd_length (S : list nat) (ts ts' : list tile) :
  tier_upd S ts ts' -> length ts' = length ts.
Proof.
  intros [H _]. rewrite <- (length_map drop_tier ts), <- H, length_map. reflexivity.
Qed.

Lemma assign_one_upd (sorted : list nat) (n : nat) (lab : string)
    (ts : list tile) (i : nat) :
  tier_upd sorted ts (assign_one sorted n lab ts i).
Proof.
  unfold assign_one. destruct (i <? n)%nat; [|apply tier_upd_refl].
  destruct (sorted !! i) as [k|] eqn:Hk; [|apply tier_upd_refl].
  destruct (tier_of ts k); [apply tier_upd_refl|].
  apply tier_upd_alter. eapply list_elem_of_lookup_2; eauto.
Qed.

Lemma assign_range_upd (sorted : list nat) (n : nat) (lab : string)
    (ts : list tile) (lo hi : nat) :
  tier_upd sorted ts (assign_range sorted n lab ts lo hi).
Proof. apply tier_upd_fold. intros; apply assign_one_upd. Qed.

Lemma tier_step_upd (sorted : list nat) (n k : nat) (e : string * Q)
    (st : walk_state) :
  tier_upd sorted (arr st) (arr (tier_step sorted n k e st)).
Proof.
  destruct e as [lab p]. unfold tier_step.
  destruct (_ && _); [apply tier_upd_refl|]. simpl. apply assign_range_upd.
Qed.

Lemma tier_walk_upd (sorted : list nat) (n k : nat) (tiers : list (string * Q))
    (st : walk_state) :
  tier_upd sorted (arr st) (arr (tier_walk sorted n k tiers st)).
Proof.
  revert k st; induction tiers as [|e tiers IH]; intros k st; simpl.
  - apply tier_upd_refl.
  - eapply tier_upd_trans; [apply tier_step_upd|apply IH].
Qed.

Lemma assign_fallback_upd (sorted : list nat) (lowest : string) (ts : list tile) :
  tier_upd sorted ts (assign_fallback sorted lowest ts).
Proof.
  unfold assign_fallback. apply tier_upd_fold.
  intros ts' k Hk. apply tier_upd_alter.
  apply list_elem_of_In in Hk. apply filter_In in Hk.
  apply list_elem_of_In. tauto.
Qed.

(** ** Tiering: the marking and normalisation passes *)

Lemma mark_tile_fields (cfg : config) (t : tile) :
  workable (mark_tile cfg t) = negb (ocean_or_ice t) /\
  is_workable (mark_tile cfg t) = Some (negb (ocean_or_ice t)) /\
  weighted_score (mark_tile cfg t) = Some (calculateWeightedTileScore t cfg) /\
  tier (mark_tile cfg t) = None /\
  (ocean_or_ice t = true -> normalized_score (mark_tile cfg t) = Some 0).
Proof.
  unfold mark_tile. destruct (ocean_or_ice t); simpl; repeat split; auto.
  discriminate.
Qed.

Lemma ocean_or_ice_score (cfg : config) (t : tile) :
  ocean_or_ice t = true -> calculateWeightedTileScore t cfg = 0%Q.
Proof. intros H. unfold calculateWeightedTileScore. rewrite H. reflexivity. Qed.

Lemma workable_from_elem (i k : nat) (ts : list tile) :
  k ∈ workable_from i ts <->
  (i <= k)%nat /\ exists t, ts !! (k - i)%nat = Some t /\ workable t = true.
Proof.
  revert i; induction ts as [|t ts IH]; intros i; simpl.
  - split; [intros H; inversion H|]. intros [_ [t [Ht _]]]. discriminate.
  - destruct (workable t) eqn:Hw.
    + rewrite elem_of_cons, IH. split.
      * intros [->|[Hle [t' [Ht' Hw']]]].
        -- split; [lia|]. exists t. rewrite Nat.sub_diag. auto.
        -- split; [lia|]. exists t'. replace (k - i)%nat with (S (k - S i)) by lia.
           auto.
      * intros [Hle [t' [Ht' Hw']]].
        destruct (decide (k = i)) as [->|Hne]; [left; reflexivity|right].
        split; [lia|]. exists t'. replace (k - i)%nat with (S (k - S i)) in Ht' by lia.
        auto.
    + rewrite IH. split.
      * intros [Hle [t' [Ht' Hw']]]. split; [lia|]. exists t'.
        replace (k - i)%nat with (S (k - S i)) by lia. auto.
      * intros [Hle [t' [Ht' Hw']]].
        destruct (decide (k = i)) as [->|Hne].
        -- rewrite Nat.sub_diag in Ht'. simpl in Ht'. injection Ht' as ->. congruence.
        -- split; [lia|]. exists t'.
           replace (k - i)%nat with (S (k - S i)) in Ht' by lia. auto.
Qed.

Lemma workable_indices_elem (k : nat) (ts : list tile) :
  k ∈ workable_indices ts <-> exists t, ts !! k = Some t /\ workable t = true.
Proof.
  unfold workable_indices. rewrite workable_from_elem, Nat.sub_0_r.
  split; [intros [_ H]; exact H|intros H; split; [lia|exact H]].
Qed.

Lemma workable_from_ge (i k : nat) (ts : list tile) :
  k ∈ workable_from i ts -> (i <= k)%nat.
Proof. rewrite workable_from_elem. tauto. Qed.

Lemma workable_from_NoDup (i : nat) (ts : list tile) : NoDup (workable_from i ts).
Proof.
  revert i; induction ts as [|t ts IH]; intros i; simpl; [constructor|].
  destruct (workable t); [|apply IH].
  constructor; [|apply IH].
  intros Hin. apply workable_from_ge in Hin. lia.
Qed.

Lemma workable_from_ext (i : nat) (ts ts' : list tile) :
  map workable ts = map workable ts' -> workable_from i ts = workable_from i ts'.
Proof.
  revert i ts'; induction ts as [|t ts IH]; intros i [|t' ts'] H; simpl in *;
    try discriminate; auto.
  injection H as Hw Hm. rewrite Hw. rewrite (IH (S i) ts' Hm). reflexivity.
Qed.

Lemma normalize_workable_lookup (avg : Q) (ts : list tile) (i : nat) (t : tile) :
  ts !! i = Some t ->
  normalize_workable avg ts !! i =
  Some (if workable t then set_normalized
          (if Qeq_bool avg 0 then 0
           else js_round (nullish (weighted_score t) 0%Q / avg * 100)%Q) t else t).
Proof.
  intros Ht. unfold normalize_workable.
  destruct (Qeq_bool avg 0); rewrite lookup_map, Ht; reflexivity.
Qed.

Lemma normalize_mark_fields (cfg : config) (n : Z) (t : tile) :
  let t2 := if workable (mark_tile cfg t) then set_normalized n (mark_tile cfg t)
            else mark_tile cfg t in
  tier t2 = None /\ is_workable t2 = Some (negb (ocean_or_ice t)) /\
  (ocean_or_ice t = true -> t2 = mark_tile cfg t).
Proof.
  unfold mark_tile. destruct (ocean_or_ice t); simpl; repeat split; auto.
  discriminate.
Qed.

Lemma set_normalized_fields (n : Z) (t : tile) :
  workable (set_normalized n t) = workable t /\
  is_workable (set_normalized n t) = is_workable t /\
  weighted_score (set_normalized n t) = weighted_score t /\
  normalized_score (set_normalized n t) = Some n /\
  tier (set_normalized n t) = tier t.
Proof. destruct t; repeat split. Qed.

Lemma drop_tier_fields (t t' : tile) :
  drop_tier t = drop_tier t' ->
  is_workable t = is_workable t' /\ workable t = workable t' /\
  weighted_score t = weighted_score t' /\ normalized_score t = normalized_score t'.
Proof.
  destruct t, t'. unfold drop_tier, set_derived, workable. simpl.
  intros H. injection H. intros; subst. repeat split.
Qed.

(** ** Tiering: the fallback pass labels every workable tile *)

Lemma fold_set_tier_lookup (lowest : string) (U : list nat) (ts : list tile)
    (j : nat) :
  j ∈ U -> (j < length ts)%nat ->
  tier_of (fold_left (fun ts k => alter (set_tier lowest) k ts) U ts) j
  = Some lowest.
Proof.
  revert ts; induction U as [|k U IH]; intros ts Hj Hlt; [inversion Hj|]. simpl.
  destruct (decide (j ∈ U)) as [HU|HU].
  - apply IH; [exact HU|]. rewrite length_alter. exact Hlt.
  - apply elem_of_cons in Hj. destruct Hj as [<-|Hj]; [|contradiction].
    destruct (tier_upd_fold U (fun ts k => alter (set_tier lowest) k ts) U
                (alter (set_tier lowest) j ts)) as [_ Hb].
    { intros ts' x Hx. apply tier_upd_alter. exact Hx. }
    unfold tier_of. rewrite Hb by exact HU. rewrite list_lookup_alter_eq.
    destruct (lookup_lt_is_Some_2 ts j Hlt) as [t Ht]. rewrite Ht.
    destruct t; reflexivity.
Qed.

Lemma assign_fallback_covers (sorted : list nat) (lowest : string)
    (ts : list tile) (k : nat) :
  k ∈ sorted -> (k < length ts)%nat ->
  exists l, tier_of (assign_fallback sorted lowest ts) k = Some l.
Proof.
  intros Hk Hlt. unfold assign_fallback.
  set (U := List.filter _ sorted).
  destruct (decide (k ∈ U)) as [HU|HU].
  - exists lowest. apply fold_set_tier_lookup; assumption.
  - destruct (tier_upd_fold U (fun ts k => alter (set_tier lowest) k ts) U ts)
      as [_ Hb].
    { intros ts' x Hx. apply tier_upd_alter. exact Hx. }
    unfold tier_of in *. rewrite Hb by exact HU.
    destruct (ts !! k ≫= tier) as [l|] eqn:E; [exists l; reflexivity|].
    exfalso. apply HU. apply list_elem_of_In, filter_In.
    split; [apply list_elem_of_In; exact Hk|]. unfold tier_of. rewrite E. reflexivity.
Qed.

Lemma tier_upd_equiv (S S' : list nat) (ts ts' : list tile) :
  (forall j, j ∈ S <-> j ∈ S') -> tier_upd S ts ts' -> tier_upd S' ts ts'.
Proof.
  intros Heq [Ha Hb]. split; [exact Ha|]. intros j Hj. apply Hb. rewrite Heq. exact Hj.
Qed.

Lemma normalize_workable_map_workable (avg : Q) (ts : list tile) :
  map workable (normalize_workable avg ts) = map workable ts.
Proof.
  unfold normalize_workable. destruct (Qeq_bool avg 0); rewrite map_map;
    apply map_ext; intros t; destruct (workable t) eqn:E; simpl; auto;
    destruct t; exact E.
Qed.

Lemma length_normalize_workable (avg : Q) (ts : list tile) :
  length (normalize_workable avg ts) = length ts.
Proof.
  rewrite <- (length_map workable (normalize_workable avg ts)),
    normalize_workable_map_workable, length_map. reflexivity.
Qed.

(** The three exits of [normalizeAndAssignTiers], described through the
    tile array [tiles2] reached before tier assignment. *)
Lemma normalizeAndAssignTiers_shape (ts : list tile) (cfg : config) :
  exists tiles2,
    length tiles2 = length ts /\
    (forall i t, ts !! i = Some t -> exists t2, tiles2 !! i = Some t2 /\
        tier t2 = None /\ is_workable t2 = Some (negb (ocean_or_ice t)) /\
        (ocean_or_ice t = true -> t2 = mark_tile cfg t)) /\
    tier_upd (workable_indices tiles2) tiles2 (fst (normalizeAndAssignTiers ts cfg)) /\
    (tier_percentiles cfg <> [] -> forall k, k ∈ workable_indices tiles2 ->
        exists l, tier_of (fst (normalizeAndAssignTiers ts cfg)) k = Some l).
Proof.
  unfold normalizeAndAssignTiers.
  set (tiles1 := map (mark_tile cfg) ts).
  assert (H1 : forall i t, ts !! i = Some t -> tiles1 !! i = Some (mark_tile cfg t)).
  { intros i t Ht. unfold tiles1. rewrite lookup_map, Ht. reflexivity. }
  destruct (workable_indices tiles1) as [|w W'] eqn:EW.
  - exists tiles1. split; [apply length_map|]. split.
    { intros i t Ht. exists (mark_tile cfg t). split; [apply H1, Ht|].
      pose proof (mark_tile_fields cfg t) as (_ & ? & _ & ? & _). auto. }
    split; [apply tier_upd_refl|]. intros _ k Hk. rewrite EW in Hk. inversion Hk.
  - set (avg := (totalWeightedScore tiles1 (w :: W') / _)%Q).
    set (tiles2 := normalize_workable avg tiles1).
    assert (HW : workable_indices tiles2 = w :: W').
    { rewrite <- EW. unfold workable_indices. apply workable_from_ext.
      apply normalize_workable_map_workable. }
    assert (H2 : forall i t, ts !! i = Some t -> exists t2, tiles2 !! i = Some t2 /\
        tier t2 = None /\ is_workable t2 = Some (negb (ocean_or_ice t)) /\
        (ocean_or_ice t = true -> t2 = mark_tile cfg t)).
    { intros i t Ht. eexists. split.
      - unfold tiles2. apply normalize_workable_lookup, H1, Ht.
      - apply normalize_mark_fields. }
    exists tiles2. split; [unfold tiles2; rewrite length_normalize_workable; apply length_map|].
    split; [exact H2|]. rewrite HW.
    destruct (tier_percentiles cfg) as [|e T'] eqn:ET.
    + split; [apply tier_upd_refl|]. intros Hne. contradiction.
    + unfold assign_tiers.
      set (sorted := sort_by (norm_key tiles2) Z.leb (w :: W')).
      assert (Hperm : Permutation sorted (w :: W')) by apply sort_by_perm.
      assert (Hin : forall j, j ∈ sorted <-> j ∈ w :: W').
      { intros j. rewrite !list_elem_of_In. split; apply Permutation_in;
          [exact Hperm|symmetry; exact Hperm]. }
      assert (Hlen : length sorted <> 0%nat).
      { rewrite (Permutation_length Hperm). simpl. lia. }
      destruct (length sorted =? 0)%nat eqn:E0; [apply Nat.eqb_eq in E0; contradiction|].
      simpl fst.
      set (st := tier_walk sorted _ 0 _ _).
      split.
      * apply (tier_upd_equiv sorted); [exact Hin|].
        eapply tier_upd_trans; [apply (tier_walk_upd sorted (length sorted) 0 (sortedTiers cfg) (mkWalk tiles2 [] 0))|].
        apply assign_fallback_upd.
      * intros _ k Hk. apply assign_fallback_covers; [apply Hin, Hk|].
        unfold st. rewrite (tier_upd_length _ _ _ (tier_walk_upd sorted (length sorted) 0 (sortedTiers cfg) (mkWalk tiles2 [] 0))).
        simpl. rewrite <- HW in Hk. apply workable_indices_elem in Hk.
        destruct Hk as [t [Ht _]]. apply lookup_lt_Some in Ht. exact Ht.
Qed.

(** ** Coverage *)

(** C1: after [recalculateScoresAndTiers] with a non-empty percentile
    table, every workable tile (terrain not open ocean, no ice) has a tier,
    and every non-workable tile has [weighted_score = 0],
    [normalized_score = 0] and [tier = null].  No ordering of the table is
    needed. *)
Theorem recalculate_coverage (ts : list tile) (cfg : config) (ts' : list tile)
    (th : list (string * Z)) :
  tier_percentiles cfg <> [] ->
  recalculateScoresAndTiers (TilesArray ts) (Some cfg) = (TilesArray ts', th) ->
  tiers_cover ts ts'.
Proof.
  intros Hne Hrec. simpl in Hrec.
  destruct (normalizeAndAssignTiers ts cfg) as [ts1 th1] eqn:E.
  injection Hrec as <- <-.
  destruct (normalizeAndAssignTiers_shape ts cfg) as (tiles2 & Hlen & H2 & Hupd & Hcov).
  rewrite E in Hupd, Hcov. simpl in Hupd, Hcov.
  split; [rewrite (tier_upd_length _ _ _ Hupd); exact Hlen|].
  intros i t Ht. destruct (H2 i t Ht) as (t2 & Ht2 & Htier & Hwk & Hmark).
  destruct Hupd as [Hdrop Hout].
  destruct (map_eq_lookup drop_tier tiles2 ts1 i t2 (eq_sym Hdrop) Ht2)
    as [t' [Ht' Hd]].
  exists t'. split; [exact Ht'|]. split.
  - intros Hoi. rewrite Hoi in Hwk. apply drop_tier_fields in Hd.
    destruct Hd as [Hw' _].
    split; [rewrite <- Hw'; exact Hwk|].
    assert (Hk : i ∈ workable_indices tiles2).
    { apply workable_indices_elem. exists t2. split; [exact Ht2|].
      unfold workable. rewrite Hwk. reflexivity. }
    destruct (Hcov Hne i Hk) as [l Hl]. unfold tier_of in Hl.
    rewrite Ht' in Hl. simpl in Hl. exists l; exact Hl.
  - intros Hoi.
    assert (Hk : i ∉ workable_indices tiles2).
    { rewrite workable_indices_elem. intros [t3 [Ht3 Hw3]].
      rewrite Ht2 in Ht3. injection Ht3 as <-. unfold workable in Hw3.
      rewrite Hwk, Hoi in Hw3. discriminate. }
    rewrite (Hout i Hk), Ht2 in Ht'. injection Ht' as <-. rewrite (Hmark Hoi).
    pose proof (mark_tile_fields cfg t) as (_ & Hiw & Hws & Htr & Hn).
    rewrite Hiw, Hws, Htr, (Hn Hoi), Hoi, (ocean_or_ice_score cfg t Hoi).
    auto.
Qed.

Lemma recalculate_coverage_witness :
  tiers_cover sampleA (fst (normalizeAndAssignTiers sampleA sample_config)).
Proof.
  apply (recalculate_coverage sampleA sample_config
           (fst (normalizeAndAssignTiers sampleA sample_config))
           (snd (normalizeAndAssignTiers sampleA sample_config))).
  - discriminate.
  - vm_compute. reflexivity.
Defined.

(** ** Tiering through the array before tier assignment *)

Lemma normalizeAndAssignTiers_pre (ts : list tile) (cfg : config) :
  workable_indices (pre_tiers ts cfg) = workable_indices (map (mark_tile cfg) ts) /\
  normalizeAndAssignTiers ts cfg =
    match workable_indices (pre_tiers ts cfg), tier_percentiles cfg with
    | _ :: _, _ :: _ =>
        assign_tiers (pre_tiers ts cfg) (workable_indices (pre_tiers ts cfg)) cfg
    | _, _ => (pre_tiers ts cfg, [])
    end.
Proof.
  unfold normalizeAndAssignTiers, pre_tiers, avgScore_of.
  destruct (workable_indices (map (mark_tile cfg) ts)) as [|w W'] eqn:EW.
  - rewrite EW. split; reflexivity.
  - assert (HW : forall a, workable_indices (normalize_workable a (map (mark_tile cfg) ts))
                           = w :: W').
    { intros a. rewrite <- EW. unfold workable_indices. apply workable_from_ext.
      apply normalize_workable_map_workable. }
    rewrite HW. split; [reflexivity|].
    destruct (tier_percentiles cfg); reflexivity.
Qed.

Lemma assign_tiers_upd (ts : list tile) (W : list nat) (cfg : config) :
  tier_upd W ts (fst (assign_tiers ts W cfg)).
Proof.
  unfold assign_tiers.
  set (sorted := sort_by (norm_key ts) Z.leb W).
  assert (Hin : forall j, j ∈ sorted <-> j ∈ W).
  { intros j. rewrite !list_elem_of_In. split; apply Permutation_in;
      [apply sort_by_perm|symmetry; apply sort_by_perm]. }
  destruct (length sorted =? 0)%nat; [apply tier_upd_refl|]. simpl fst.
  apply (tier_upd_equiv sorted); [exact Hin|].
  eapply tier_upd_trans;
    [apply (tier_walk_upd sorted (length sorted) 0 (sortedTiers cfg) (mkWalk ts [] 0))|].
  apply assign_fallback_upd.
Qed.

Lemma assign_tiers_covers (ts : list tile) (W : list nat) (cfg : config) (k : nat) :
  k ∈ W -> (k < length ts)%nat ->
  exists l, tier_of (fst (assign_tiers ts W cfg)) k = Some l.
Proof.
  intros Hk Hlt. unfold assign_tiers.
  set (sorted := sort_by (norm_key ts) Z.leb W).
  assert (Hk' : k ∈ sorted).
  { apply list_elem_of_In. eapply Permutation_in;
      [symmetry; apply sort_by_perm|apply list_elem_of_In; exact Hk]. }
  destruct (length sorted =? 0)%nat eqn:E0.
  { apply Nat.eqb_eq, length_zero_iff_nil in E0. rewrite E0 in Hk'. inversion Hk'. }
  simpl fst. apply assign_fallback_covers; [exact Hk'|].
  rewrite (tier_upd_length _ _ _
             (tier_walk_upd sorted (length sorted) 0 (sortedTiers cfg) (mkWalk ts [] 0))).
  exact Hlt.
Qed.

Lemma pre_tiers_lookup (ts : list tile) (cfg : config) (i : nat) (t : tile) :
  ts !! i = Some t ->
  pre_tiers ts cfg !! i = Some
    match workable_indices (map (mark_tile cfg) ts) with
    | [] => mark_tile cfg t
    | _ :: _ =>
        if workable (mark_tile cfg t)
        then set_normalized
               (if Qeq_bool (avgScore_of ts cfg) 0 then 0
                else js_round (nullish (weighted_score (mark_tile cfg t)) 0%Q
                               / avgScore_of ts cfg * 100)%Q)
               (mark_tile cfg t)
        else mark_tile cfg t
    end.
Proof.
  intros Ht. unfold pre_tiers.
  assert (H1 : map (mark_tile cfg) ts !! i = Some (mark_tile cfg t))
    by (rewrite lookup_map, Ht; reflexivity).
  destruct (workable_indices (map (mark_tile cfg) ts)); [exact H1|].
  apply normalize_workable_lookup, H1.
Qed.

(** ** Mean score zero *)

(** C3 (amended): when there are workable tiles and their mean weighted
    score is 0, every workable tile gets [normalized_score = 0], and tier
    assignment is not skipped: with a non-empty percentile table every
    workable tile still receives a tier.  The function returns normally. *)
Theorem normalize_mean_zero_tiers (ts : list tile) (cfg : config) (i : nat) (t : tile) :
  workable_indices (map (mark_tile cfg) ts) <> [] ->
  Qeq_bool (avgScore_of ts cfg) 0 = true ->
  ts !! i = Some t -> ocean_or_ice t = false ->
  exists t', fst (normalizeAndAssignTiers ts cfg) !! i = Some t' /\
    normalized_score t' = Some 0 /\
    (tier_percentiles cfg <> [] -> exists l, tier t' = Some l).
Proof.
  intros HW Havg Ht Hoi.
  pose proof (pre_tiers_lookup ts cfg i t Ht) as Hp.
  destruct (normalizeAndAssignTiers_pre ts cfg) as [HWp Heq].
  destruct (workable_indices (map (mark_tile cfg) ts)) as [|w W'] eqn:EW;
    [contradiction|].
  rewrite Havg in Hp.
  pose proof (mark_tile_fields cfg t) as (Hwk & _ & _ & _ & _).
  rewrite Hoi in Hwk. simpl in Hwk. rewrite Hwk in Hp.
  set (t2 := set_normalized 0 (mark_tile cfg t)) in Hp.
  assert (Hn2 : normalized_score t2 = Some 0) by apply set_normalized_fields.
  rewrite Heq, HWp.
  destruct (tier_percentiles cfg) as [|e T'] eqn:ET.
  - exists t2. split; [exact Hp|]. split; [exact Hn2|]. intros H; contradiction.
  - rewrite <- HWp.
    destruct (assign_tiers_upd (pre_tiers ts cfg) (workable_indices (pre_tiers ts cfg)) cfg)
      as [Hd _].
    destruct (map_eq_lookup drop_tier _ _ i t2 (eq_sym Hd) Hp) as [t' [Ht' Hdt]].
    exists t'. split; [exact Ht'|]. split.
    + apply drop_tier_fields in Hdt. destruct Hdt as (_ & _ & _ & Hn).
      rewrite <- Hn. exact Hn2.
    + intros _.
      assert (Hk : i ∈ workable_indices (pre_tiers ts cfg)).
      { apply workable_indices_elem. exists t2. split; [exact Hp|].
        unfold t2. rewrite (proj1 (set_normalized_fields 0 _)). exact Hwk. }
      destruct (assign_tiers_covers (pre_tiers ts cfg) _ cfg i Hk) as [l Hl].
      { apply lookup_lt_Some in Hp. exact Hp. }
      unfold tier_of in Hl. rewrite Ht' in Hl. exists l. exact Hl.
Qed.

Lemma normalize_mean_zero_tiers_witness :
  exists t', fst (normalizeAndAssignTiers [land 0 0 0 0 0; ocean 1 0] sample_config)
               !! 0%nat = Some t' /\
    normalized_score t' = Some 0 /\
    (tier_percentiles sample_config <> [] -> exists l, tier t' = Some l).
Proof.
  apply (normalize_mean_zero_tiers [land 0 0 0 0 0; ocean 1 0] sample_config 0
           (land 0 0 0 0 0)).
  - vm_compute. discriminate.
  - vm_compute. reflexivity.
  - reflexivity.
  - reflexivity.
Defined.

(** C3, as stated, fails: a single grassland tile with no yields has mean
    weighted score 0, yet it leaves [normalizeAndAssignTiers] with tier F
    instead of [null]. *)
Lemma normalize_mean_zero_counterexample :
  Qeq_bool (avgScore_of [land 0 0 0 0 0] sample_config) 0 = true /\
  map normalized_score (fst (normalizeAndAssignTiers [land 0 0 0 0 0] sample_config))
    = [Some 0] /\
  map tier (fst (normalizeAndAssignTiers [land 0 0 0 0 0] sample_config))
    = [Some "F"%string].
Proof. vm_compute. repeat split. Qed.

(** ** Repeated runs *)

Lemma map_pointwise {A B C} (f : A -> B) (g : A -> C) (P : A -> Prop)
    (l1 l2 : list A) :
  map f l1 = map f l2 -> Forall P l2 ->
  (forall a b, f a = f b -> P b -> g a = g b) -> map g l1 = map g l2.
Proof.
  revert l2; induction l1 as [|a l1 IH]; intros [|b l2] Hm HP Hg;
    simpl in *; try discriminate; auto.
  injection Hm as Hab Hm. inversion HP; subst.
  f_equal; [apply Hg; assumption|apply IH; assumption].
Qed.

Lemma mark_tile_reset (cfg : config) (t t' : tile) :
  reset t = reset t' ->
  ocean_or_ice t = ocean_or_ice t' /\
  workable (mark_tile cfg t) = workable (mark_tile cfg t') /\
  weighted_score (mark_tile cfg t) = weighted_score (mark_tile cfg t') /\
  (forall n, set_normalized n (mark_tile cfg t) = set_normalized n (mark_tile cfg t')) /\
  (ocean_or_ice t' = true -> mark_tile cfg t = mark_tile cfg t').
Proof.
  destruct t, t'. unfold reset, set_derived. simpl. intros H.
  injection H; intros; subst. repeat split.
  intros Ho. unfold mark_tile, ocean_or_ice in *. simpl in *. rewrite Ho. reflexivity.
Qed.

Lemma weighted_at_ext (l1 l2 : list tile) (i : nat) :
  map weighted_score l1 = map weighted_score l2 -> weighted_at l1 i = weighted_at l2 i.
Proof.
  intros H. pose proof (f_equal (fun l => l !! i) H) as Hi. simpl in Hi.
  rewrite !lookup_map in Hi. unfold weighted_at.
  destruct (l1 !! i), (l2 !! i); simpl in *; try discriminate; auto.
  injection Hi as ->. reflexivity.
Qed.

Lemma totalWeightedScore_ext (l1 l2 : list tile) (W : list nat) :
  map weighted_score l1 = map weighted_score l2 ->
  totalWeightedScore l1 W = totalWeightedScore l2 W.
Proof.
  intros H. unfold totalWeightedScore. generalize 0%Q.
  induction W as [|i W IH]; intros q; simpl; [reflexivity|].
  rewrite (weighted_at_ext l1 l2 i H). apply IH.
Qed.

(** The pass reads no derived field that it does not overwrite first. *)
Lemma pre_tiers_reset (ts ts' : list tile) (cfg : config) :
  map reset ts' = map reset ts -> pre_tiers ts' cfg = pre_tiers ts cfg.
Proof.
  intros Hr.
  assert (Hwk : map workable (map (mark_tile cfg) ts') = map workable (map (mark_tile cfg) ts)).
  { rewrite !map_map. apply (map_pointwise reset _ (fun _ => True)); auto.
    - apply Forall_true. auto.
    - intros a b Hab _. apply (mark_tile_reset cfg a b Hab). }
  assert (Hws : map weighted_score (map (mark_tile cfg) ts')
                = map weighted_score (map (mark_tile cfg) ts)).
  { rewrite !map_map. apply (map_pointwise reset _ (fun _ => True)); auto.
    - apply Forall_true. auto.
    - intros a b Hab _. apply (mark_tile_reset cfg a b Hab). }
  assert (HW : workable_indices (map (mark_tile cfg) ts')
               = workable_indices (map (mark_tile cfg) ts))
    by (apply workable_from_ext; exact Hwk).
  assert (Havg : avgScore_of ts' cfg = avgScore_of ts cfg).
  { unfold avgScore_of. rewrite HW. erewrite totalWeightedScore_ext; [reflexivity|exact Hws]. }
  unfold pre_tiers. rewrite HW, Havg.
  destruct (workable_indices (map (mark_tile cfg) ts)) as [|w W'] eqn:EW.
  - assert (Hall : Forall (fun t => ocean_or_ice t = true) ts).
    { apply Forall_lookup_2. intros i t Ht.
      destruct (ocean_or_ice t) eqn:Ho; [reflexivity|]. exfalso.
      assert (Hi : i ∈ workable_indices (map (mark_tile cfg) ts)).
      { apply workable_indices_elem. exists (mark_tile cfg t).
        rewrite lookup_map, Ht. split; [reflexivity|].
        rewrite (proj1 (mark_tile_fields cfg t)), Ho. reflexivity. }
      rewrite EW in Hi. inversion Hi. }
    apply (map_pointwise reset _ _ _ _ Hr Hall).
    intros a b Hab Hb. apply (mark_tile_reset cfg a b Hab), Hb.
  - assert (Hg : forall (N : Q -> Z) a b, reset a = reset b ->
              (if workable (mark_tile cfg a)
               then set_normalized (N (nullish (weighted_score (mark_tile cfg a)) 0%Q))
                      (mark_tile cfg a)
               else mark_tile cfg a) =
              (if workable (mark_tile cfg b)
               then set_normalized (N (nullish (weighted_score (mark_tile cfg b)) 0%Q))
                      (mark_tile cfg b)
               else mark_tile cfg b)).
    { intros N a b Hab.
      destruct (mark_tile_reset cfg a b Hab) as (Ho & Hw & Hsc & Hn & Hm).
      rewrite Hw, Hsc. destruct (workable (mark_tile cfg b)) eqn:Eb; [apply Hn|].
      apply Hm. rewrite (proj1 (mark_tile_fields cfg b)) in Eb.
      destruct (ocean_or_ice b); [reflexivity|discriminate]. }
    unfold normalize_workable. set (avg := avgScore_of ts cfg).
    destruct (Qeq_bool avg 0); rewrite !map_map;
      apply (map_pointwise reset _ (fun _ => True)); auto;
      try (apply Forall_true; auto); intros a b Hab _.
    + exact (Hg (fun _ => 0) a b Hab).
    + exact (Hg (fun w => js_round (w / avg * 100)%Q) a b Hab).
Qed.

Lemma normalizeAndAssignTiers_reset_eq (ts ts' : list tile) (cfg : config) :
  map reset ts' = map reset ts ->
  normalizeAndAssignTiers ts' cfg = normalizeAndAssignTiers ts cfg.
Proof.
  intros Hr. destruct (normalizeAndAssignTiers_pre ts' cfg) as [_ E1].
  destruct (normalizeAndAssignTiers_pre ts cfg) as [_ E2].
  rewrite E1, E2, (pre_tiers_reset ts ts' cfg Hr). reflexivity.
Qed.

Lemma reset_drop_tier (l : list tile) : map reset (map drop_tier l) = map reset l.
Proof. rewrite map_map. apply map_ext. intros t. destruct t; reflexivity. Qed.

Lemma normalizeAndAssignTiers_reset (ts : list tile) (cfg : config) :
  map reset (fst (normalizeAndAssignTiers ts cfg)) = map reset ts.
Proof.
  assert (Hpre : map reset (pre_tiers ts cfg) = map reset ts).
  { unfold pre_tiers. destruct (workable_indices _).
    - rewrite map_map. apply map_ext. intros t. destruct t; reflexivity.
    - unfold normalize_workable. destruct (Qeq_bool _ 0); rewrite !map_map;
        apply map_ext; intros t; destruct (workable (mark_tile cfg t));
        destruct t; reflexivity. }
  destruct (normalizeAndAssignTiers_pre ts cfg) as [_ Heq]. rewrite Heq.
  destruct (workable_indices (pre_tiers ts cfg)) as [|w W'];
    [exact Hpre|].
  destruct (tier_percentiles cfg); [exact Hpre|].
  destruct (assign_tiers_upd (pre_tiers ts cfg) (w :: W') cfg) as [Hd _].
  rewrite <- reset_drop_tier, Hd, reset_drop_tier. exact Hpre.
Qed.

(** C5: running [recalculateScoresAndTiers] a second time on the tiles left
    by the first run, with the same configuration, yields the same tiles
    (every derived field, in particular [tier] and [normalized_score]) and
    the same score thresholds. *)
Theorem recalculate_idempotent (a : js_tiles) (cfg : option config) :
  recalculateScoresAndTiers (fst (recalculateScoresAndTiers a cfg)) cfg
  = recalculateScoresAndTiers a cfg.
Proof.
  destruct a as [ts|]; [|reflexivity]. destruct cfg as [c|]; [|reflexivity].
  simpl. pose proof (normalizeAndAssignTiers_reset ts c) as Hr.
  destruct (normalizeAndAssignTiers ts c) as [ts1 th] eqn:E. simpl in *.
  rewrite (normalizeAndAssignTiers_reset_eq ts ts1 c Hr), E. reflexivity.
Qed.

(** ** Monotonicity of the tiers *)

Lemma tier_rank_lookup (T : list (string * Q)) (k : nat) (l : string) (p : Q) :
  NoDup (map fst T) -> T !! k = Some (l, p) -> tier_rank T l = k.
Proof.
  revert k; induction T as [|[l0 p0] T IH]; intros k Hnd Hk; [discriminate|].
  simpl in Hnd. inversion Hnd as [|? ? Hnot Hnd']; subst.
  destruct k as [|k]; simpl in Hk |- *.
  - injection Hk as -> ->. rewrite String.eqb_refl. reflexivity.
  - destruct (String.eqb_spec l0 l) as [->|Hne].
    + exfalso. apply Hnot. apply list_elem_of_In. apply in_map_iff.
      exists (l, p). split; [reflexivity|]. apply list_elem_of_In.
      eapply list_elem_of_lookup_2. exact Hk.
    + f_equal. apply IH; assumption.
Qed.

Lemma sortedTiers_ordered (cfg : config) :
  increasing_percentiles (tier_percentiles cfg) = true ->
  sortedTiers cfg = tier_percentiles cfg.
Proof.
  unfold sortedTiers. induction (tier_percentiles cfg) as [|[l p] T IH]; intros H;
    [reflexivity|].
  simpl. destruct T as [|[l' p'] T']; [reflexivity|].
  simpl in H. apply andb_prop in H. destruct H as [Hlt H].
  rewrite (IH H). simpl. unfold Qltb in Hlt.
  destruct (Qle_bool p p') eqn:E; [reflexivity|].
  apply Qle_bool_total in E. rewrite E in Hlt. discriminate.
Qed.

Lemma ends_at_one_last (T : list (string * Q)) :
  ends_at_one T = true ->
  exists e, T !! (length T - 1)%nat = Some e /\ (snd e == 1)%Q.
Proof.
  induction T as [|[l p] T IH]; intros H; [discriminate|].
  destruct T as [|e' T'].
  - exists (l, p). split; [reflexivity|]. apply Qeq_bool_iff. exact H.
  - destruct (IH H) as [e [He Hp]]. exists e. split; [|exact Hp].
    simpl in He |- *. rewrite Nat.sub_0_r in He. exact He.
Qed.

Lemma cutoff_index_one (n : nat) (p : Q) :
  (0 < n)%nat -> (p == 1)%Q -> cutoff_index n p = (Z.of_nat n - 1)%Z.
Proof.
  intros Hn Hp. unfold cutoff_index.
  rewrite (Qceiling_comp _ (inject_Z (Z.of_nat n))), Qceiling_Z by (rewrite Hp; ring).
  lia.
Qed.

Lemma cutoff_index_range (n : nat) (p : Q) :
  (0 < n)%nat -> (0 <= cutoff_index n p < Z.of_nat n)%Z.
Proof. intros Hn. unfold cutoff_index. lia. Qed.

Lemma filter_all_false {A} (f : A -> bool) (l : list A) :
  (forall x, In x l -> f x = false) -> List.filter f l = [].
Proof.
  induction l as [|a l IH]; intros H; simpl; [reflexivity|].
  rewrite H by (left; reflexivity). apply IH. intros x Hx. apply H. right. exact Hx.
Qed.

Lemma assign_fold_effect (sorted : list nat) (lab : string) (L : list nat)
    (ts : list tile) :
  NoDup sorted -> NoDup L ->
  (forall x, x ∈ sorted -> (x < length ts)%nat) ->
  (forall x, x ∈ L -> (x < length sorted)%nat /\ pos_tier sorted ts x = None) ->
  forall p, pos_tier sorted (fold_left (assign_one sorted (length sorted) lab) L ts) p
            = if decide (p ∈ L) then Some lab else pos_tier sorted ts p.
Proof.
  revert ts; induction L as [|x L IH]; intros ts Hnd HL Hb Hx p; cbn [fold_left].
  - destruct (decide (p ∈ [])) as [Hin|]; [inversion Hin|reflexivity].
  - inversion HL as [|? ? HxL HL']; subst.
    assert (Hx0 : x ∈ x :: L) by (apply elem_of_cons; left; reflexivity).
    destruct (Hx x Hx0) as [Hxn Hxt].
    destruct (lookup_lt_is_Some_2 sorted x Hxn) as [k Hk].
    unfold pos_tier in Hxt. rewrite Hk in Hxt.
    assert (Hkl : (k < length ts)%nat)
      by (apply Hb; eapply list_elem_of_lookup_2; exact Hk).
    set (ts' := assign_one sorted (length sorted) lab ts x).
    assert (Hts' : ts' = alter (set_tier lab) k ts).
    { unfold ts', assign_one. rewrite (proj2 (Nat.ltb_lt _ _) Hxn), Hk, Hxt.
      reflexivity. }
    assert (Hother : forall q, q <> x -> pos_tier sorted ts' q = pos_tier sorted ts q).
    { intros q Hq. unfold pos_tier. destruct (sorted !! q) as [k'|] eqn:Hk';
        [|reflexivity].
      rewrite Hts'. unfold tier_of. rewrite list_lookup_alter_ne; [reflexivity|].
      intros <-. apply Hq. exact (NoDup_lookup sorted q x k Hnd Hk' Hk). }
    assert (Hself : pos_tier sorted ts' x = Some lab).
    { unfold pos_tier. rewrite Hk, Hts'. unfold tier_of.
      rewrite list_lookup_alter_eq.
      destruct (lookup_lt_is_Some_2 ts k Hkl) as [t Ht]. rewrite Ht.
      destruct t; reflexivity. }
    rewrite (IH ts' Hnd HL').
    + destruct (decide (p ∈ L)) as [HpL|HpL];
        destruct (decide (p ∈ x :: L)) as [HpxL|HpxL]; try reflexivity.
      * exfalso. apply HpxL. apply elem_of_cons. right. exact HpL.
      * apply elem_of_cons in HpxL. destruct HpxL as [->|HpxL]; [exact Hself|].
        contradiction.
      * apply Hother. intros ->. apply HpxL. exact Hx0.
    + intros y Hy. rewrite Hts', length_alter. apply Hb, Hy.
    + intros y Hy. assert (Hyx : y <> x) by (intros ->; contradiction).
      destruct (Hx y) as [Hyn Hyt]; [apply elem_of_cons; right; exact Hy|].
      split; [exact Hyn|]. rewrite Hother by exact Hyx. exact Hyt.
Qed.

Lemma assign_range_effect (sorted : list nat) (lab : string) (ts : list tile)
    (lo hi : nat) :
  NoDup sorted -> (forall x, x ∈ sorted -> (x < length ts)%nat) ->
  (hi < length sorted)%nat ->
  (forall p, (lo <= p <= hi)%nat -> pos_tier sorted ts p = None) ->
  forall p, pos_tier sorted (assign_range sorted (length sorted) lab ts lo hi) p
            = if decide (lo <= p <= hi)%nat then Some lab else pos_tier sorted ts p.
Proof.
  intros Hnd Hb Hhi Hnone p. unfold assign_range.
  rewrite assign_fold_effect; [|exact Hnd|apply NoDup_seq|exact Hb|].
  - destruct (decide (p ∈ seq lo (S hi - lo))) as [Hin|Hin];
      rewrite elem_of_seq in Hin;
      destruct (decide (lo <= p <= hi)%nat); auto; lia.
  - intros x Hx. rewrite elem_of_seq in Hx. split; [lia|]. apply Hnone. lia.
Qed.

Lemma tier_step_inv (T : list (string * Q)) (sorted : list nat) (k : nat)
    (lab : string) (p : Q) (st : walk_state) :
  NoDup sorted -> (0 < length sorted)%nat ->
  T !! k = Some (lab, p) -> tier_rank T lab = k ->
  walk_inv T sorted k st ->
  walk_inv T sorted (S k) (tier_step sorted (length sorted) k (lab, p) st).
Proof.
  intros Hnd Hn Hk Hr (Hb & Hle & H0 & Hnone & Hsome & Hmono & Hcut).
  pose proof (cutoff_index_range (length sorted) p Hn) as Hc.
  assert (He : forall e, T !! (S k - 1)%nat = Some e -> e = (lab, p)).
  { intros e He. rewrite Nat.sub_succ, Nat.sub_0_r, Hk in He. injection He. auto. }
  unfold tier_step.
  set (c := cutoff_index (length sorted) p) in *.
  destruct ((c <? Z.of_nat (lastCutoffIndex st)) && (0 <? k)%nat) eqn:Eskip.
  - apply andb_prop in Eskip. destruct Eskip as [E1 _]. apply Z.ltb_lt in E1.
    refine (conj Hb (conj Hle (conj _ (conj Hnone (conj _ (conj Hmono _)))))).
    + intros Hf. discriminate.
    + intros q Hq. destruct (Hsome q Hq) as [l [Hl Hlr]]. exists l. split; [exact Hl|lia].
    + intros e Hel _. rewrite (He e Hel). simpl. fold c. lia.
  - assert (Hcl : (lastCutoffIndex st <= Z.to_nat c)%nat).
    { apply andb_false_iff in Eskip. destruct Eskip as [E|E].
      - apply Z.ltb_ge in E. lia.
      - apply Nat.ltb_ge in E. rewrite H0 by lia. lia. }
    cbv zeta. set (c' := Z.to_nat c) in *.
    assert (Hc'n : (c' < length sorted)%nat) by lia.
    assert (Heff := assign_range_effect sorted lab (arr st) (lastCutoffIndex st) c'
                      Hnd Hb Hc'n).
    specialize (Heff (fun q Hq => Hnone q ltac:(lia))).
    set (L := lastCutoffIndex st) in *.
    set (a := assign_range sorted (length sorted) lab (arr st) L c').
    assert (Hlen : length a = length (arr st)).
    { exact (tier_upd_length _ _ _ (assign_range_upd sorted (length sorted) lab (arr st) L c')). }
    unfold walk_inv. cbn [arr lastCutoffIndex]. fold a.
    split; [intros x Hx; rewrite Hlen; apply Hb, Hx|].
    split; [lia|].
    split; [intros Hf; discriminate|].
    split.
    { intros q Hq. unfold a. rewrite Heff.
      destruct (decide (L <= q <= c')%nat); [lia|]. apply Hnone. lia. }
    split.
    { intros q Hq. unfold a. rewrite Heff.
      destruct (decide (L <= q <= c')%nat).
      - exists lab. split; [reflexivity|lia].
      - destruct (Hsome q ltac:(lia)) as [l [Hl Hlr]]. exists l. split; [exact Hl|lia]. }
    split.
    { intros q1 q2 lp lq Hq Hp1 Hp2. unfold a in Hp1, Hp2. rewrite Heff in Hp1, Hp2.
      destruct (decide (L <= q1 <= c')%nat); destruct (decide (L <= q2 <= c')%nat).
      - injection Hp1 as <-. injection Hp2 as <-. lia.
      - lia.
      - injection Hp2 as <-. destruct (Hsome q1 ltac:(lia)) as [l [Hl Hlr]].
        rewrite Hp1 in Hl. injection Hl as <-. lia.
      - apply (Hmono q1 q2); [lia|exact Hp1|exact Hp2]. }
    intros e Hel _. rewrite (He e Hel). simpl. fold c. fold c'. lia.
Qed.

Lemma tier_walk_inv (T : list (string * Q)) (sorted : list nat) :
  NoDup sorted -> (0 < length sorted)%nat -> NoDup (map fst T) ->
  forall rest k st, drop k T = rest -> walk_inv T sorted k st ->
  walk_inv T sorted (k + length rest) (tier_walk sorted (length sorted) k rest st).
Proof.
  intros Hnd Hn HT. induction rest as [|[lab p] rest IH]; intros k st Hd Hinv; simpl.
  - rewrite Nat.add_0_r. exact Hinv.
  - assert (Hk : T !! k = Some (lab, p)).
    { rewrite <- (Nat.add_0_r k), <- lookup_drop, Hd. reflexivity. }
    replace (k + S (length rest))%nat with (S k + length rest)%nat by lia.
    apply IH.
    + replace (S k) with (k + 1)%nat by lia. rewrite <- drop_drop, Hd. reflexivity.
    + apply tier_step_inv; auto. eapply tier_rank_lookup; eauto.
Qed.

Lemma tier_walk_complete (T : list (string * Q)) (sorted : list nat) (st0 : walk_state) :
  NoDup sorted -> (0 < length sorted)%nat -> NoDup (map fst T) ->
  ends_at_one T = true -> walk_inv T sorted 0 st0 ->
  walk_inv T sorted (length T) (tier_walk sorted (length sorted) 0 T st0) /\
  lastCutoffIndex (tier_walk sorted (length sorted) 0 T st0) = length sorted.
Proof.
  intros Hnd Hn HT Hend Hinit.
  pose proof (tier_walk_inv T sorted Hnd Hn HT T 0 st0 (drop_0 T) Hinit) as Hinv.
  simpl in Hinv. split; [exact Hinv|].
  destruct (ends_at_one_last T Hend) as [e [He Hp]].
  destruct Hinv as (_ & Hle & _ & _ & _ & _ & Hcut).
  specialize (Hcut e He).
  rewrite cutoff_index_one in Hcut by assumption.
  assert (HT0 : (0 < length T)%nat) by (destruct T; [discriminate|simpl; lia]).
  specialize (Hcut HT0). lia.
Qed.

Lemma assign_tiers_monotone (ts : list tile) (W : list nat) (cfg : config) (i j : nat) :
  NoDup W -> (forall x, x ∈ W -> (x < length ts)%nat /\ tier_of ts x = None) ->
  NoDup (map fst (tier_percentiles cfg)) ->
  increasing_percentiles (tier_percentiles cfg) = true ->
  ends_at_one (tier_percentiles cfg) = true ->
  i ∈ W -> j ∈ W -> (norm_key ts j < norm_key ts i)%Z ->
  exists la lb, tier_of (fst (assign_tiers ts W cfg)) i = Some la /\
    tier_of (fst (assign_tiers ts W cfg)) j = Some lb /\
    (tier_rank (tier_percentiles cfg) lb <= tier_rank (tier_percentiles cfg) la)%nat.
Proof.
  intros HndW HW HT Hinc Hend Hi Hj Hlt.
  unfold assign_tiers. rewrite (sortedTiers_ordered cfg Hinc).
  set (T := tier_percentiles cfg) in *.
  set (sorted := sort_by (norm_key ts) Z.leb W).
  assert (Hperm : Permutation sorted W) by apply sort_by_perm.
  assert (Hin : forall x, x ∈ sorted <-> x ∈ W).
  { intros x. rewrite !list_elem_of_In. split; apply Permutation_in;
      [exact Hperm|symmetry; exact Hperm]. }
  assert (Hnd : NoDup sorted)
    by (rewrite Hperm; exact HndW).
  assert (Hn : (0 < length sorted)%nat).
  { rewrite (Permutation_length Hperm). destruct W; [inversion Hi|simpl; lia]. }
  destruct (length sorted =? 0)%nat eqn:E0; [apply Nat.eqb_eq in E0; lia|].
  simpl fst.
  assert (Hinit : walk_inv T sorted 0 (mkWalk ts [] 0)).
  { unfold walk_inv. cbn [arr lastCutoffIndex].
    split; [intros x Hx; apply HW, Hin, Hx|].
    split; [lia|]. split; [auto|]. split.
    { intros q Hq. unfold pos_tier.
      destruct (lookup_lt_is_Some_2 sorted q ltac:(lia)) as [x Hx]. rewrite Hx.
      apply HW, Hin. eapply list_elem_of_lookup_2; exact Hx. }
    split; [intros q Hq; lia|]. split; [intros; lia|]. intros e _ Hf. lia. }
  destruct (tier_walk_complete T sorted (mkWalk ts [] 0) Hnd Hn HT Hend Hinit)
    as [Hinv Hlast].
  set (st := tier_walk sorted (length sorted) 0 T (mkWalk ts [] 0)) in *.
  destruct Hinv as (Hb & Hle & _ & _ & Hsome & Hmono & _).
  assert (Hfb : forall lowest, assign_fallback sorted lowest (arr st) = arr st).
  { intros lowest. unfold assign_fallback. rewrite filter_all_false; [reflexivity|].
    intros x Hx. apply list_elem_of_In, list_elem_of_lookup_1 in Hx.
    destruct Hx as [q Hq]. pose proof (lookup_lt_Some _ _ _ Hq) as Hql.
    destruct (Hsome q ltac:(lia)) as [l [Hl _]]. unfold pos_tier in Hl.
    rewrite Hq in Hl. rewrite Hl. reflexivity. }
  rewrite Hfb.
  apply Hin in Hi, Hj.
  destruct (list_elem_of_lookup_1 _ _ Hi) as [qi Hqi].
  destruct (list_elem_of_lookup_1 _ _ Hj) as [qj Hqj].
  pose proof (lookup_lt_Some _ _ _ Hqi). pose proof (lookup_lt_Some _ _ _ Hqj).
  destruct (Hsome qi ltac:(lia)) as [la [Hla _]].
  destruct (Hsome qj ltac:(lia)) as [lb [Hlb _]].
  unfold pos_tier in Hla, Hlb. rewrite Hqi in Hla. rewrite Hqj in Hlb.
  exists la, lb. split; [exact Hla|]. split; [exact Hlb|].
  assert (Hord : (qj < qi)%nat).
  { destruct (Nat.lt_trichotomy qj qi) as [Ho|[Ho|Ho]]; [exact Ho| |].
    - subst. rewrite Hqi in Hqj. injection Hqj as ->. lia.
    - exfalso.
      assert (Htr : Relations_1.Transitive (key_le (norm_key ts) Z.leb)).
      { intros a b c Hab Hbc. unfold key_le in *. rewrite Z.leb_le in *. lia. }
      pose proof (Sorted_StronglySorted Htr
                    (sort_by_sorted (norm_key ts) Z.leb Zleb_total W)) as Hs.
      pose proof (strongly_sorted_lookup _ _ Hs qi qj i j Ho Hqi Hqj) as Hk.
      unfold key_le in Hk. apply Z.leb_le in Hk. lia. }
  apply (Hmono qj qi lb la); [lia| |]; unfold pos_tier; [rewrite Hqj|rewrite Hqi];
    assumption.
Qed.

Lemma pre_tiers_tier_none (ts : list tile) (cfg : config) (i : nat) (t : tile) :
  pre_tiers ts cfg !! i = Some t -> tier t = None.
Proof.
  intros H. unfold pre_tiers in H. destruct (workable_indices _).
  - rewrite lookup_map in H. destruct (ts !! i) as [t0|]; simpl in H; [|discriminate].
    injection H as <-. apply mark_tile_fields.
  - unfold normalize_workable in H.
    destruct (Qeq_bool _ _); rewrite !lookup_map in H;
      destruct (ts !! i) as [t0|]; simpl in H; try discriminate;
      injection H as <-; destruct (workable (mark_tile cfg t0));
      try apply mark_tile_fields;
      unfold set_normalized, set_derived; simpl; apply mark_tile_fields.
Qed.

(** C2: with a correctly ordered percentile table (distinct labels,
    strictly increasing percentiles, the last one equal to 1), of two
    workable tiles after [recalculateScoresAndTiers] the one with the
    strictly higher [normalized_score] has a tier of rank at least that of
    the other; the rank of a tier is its position in the table (F < E < D <
    C < B < A < S for the default table). *)
Theorem recalculate_monotone (ts : list tile) (cfg : config) (ts' : list tile)
    (th : list (string * Z)) (i j : nat) (tA tB : tile) (a b : Z) :
  NoDup (map fst (tier_percentiles cfg)) ->
  increasing_percentiles (tier_percentiles cfg) = true ->
  ends_at_one (tier_percentiles cfg) = true ->
  recalculateScoresAndTiers (TilesArray ts) (Some cfg) = (TilesArray ts', th) ->
  ts' !! i = Some tA -> ts' !! j = Some tB ->
  is_workable tA = Some true -> is_workable tB = Some true ->
  normalized_score tA = Some a -> normalized_score tB = Some b -> (b < a)%Z ->
  exists la lb, tier tA = Some la /\ tier tB = Some lb /\
    (tier_rank (tier_percentiles cfg) lb <= tier_rank (tier_percentiles cfg) la)%nat.
Proof.
  intros HT Hinc Hend Hrec HA HB HwA HwB HnA HnB Hab.
  simpl in Hrec. destruct (normalizeAndAssignTiers ts cfg) as [ts1 th1] eqn:E.
  injection Hrec as <- <-.
  destruct (normalizeAndAssignTiers_pre ts cfg) as [_ Heq]. rewrite E in Heq.
  set (p := pre_tiers ts cfg) in *.
  assert (HwkA : workable tA = true) by (unfold workable; rewrite HwA; reflexivity).
  destruct (workable_indices p) as [|w W'] eqn:EW.
  - simpl in Heq. injection Heq as -> _. exfalso.
    assert (Hi : i ∈ workable_indices p)
      by (apply workable_indices_elem; exists tA; auto).
    rewrite EW in Hi. inversion Hi.
  - assert (HT0 : tier_percentiles cfg <> [])
      by (intros H; rewrite H in Hend; discriminate).
    assert (Hts1 : ts1 = fst (assign_tiers p (w :: W') cfg)).
    { destruct (tier_percentiles cfg) eqn:ET; [contradiction|].
      change ts1 with (fst (ts1, th1)). rewrite Heq. reflexivity. }
    subst ts1.
    destruct (assign_tiers_upd p (w :: W') cfg) as [Hd _].
    destruct (map_eq_lookup drop_tier _ _ i tA Hd HA) as [tA0 [HA0 HdA]].
    destruct (map_eq_lookup drop_tier _ _ j tB Hd HB) as [tB0 [HB0 HdB]].
    apply drop_tier_fields in HdA, HdB.
    destruct HdA as (HiwA & HwA' & _ & HnA'). destruct HdB as (HiwB & HwB' & _ & HnB').
    assert (Hmem : forall x t, p !! x = Some t -> workable t = true -> x ∈ w :: W').
    { intros x t Hx Hw. rewrite <- EW. apply workable_indices_elem. exists t. auto. }
    assert (HiW : i ∈ w :: W') by (apply (Hmem i tA0 HA0); rewrite <- HwA'; exact HwkA).
    assert (HjW : j ∈ w :: W').
    { apply (Hmem j tB0 HB0). rewrite <- HwB'. unfold workable. rewrite HwB. reflexivity. }
    destruct (assign_tiers_monotone p (w :: W') cfg i j) as (la & lb & Hla & Hlb & Hr);
      try assumption.
    + rewrite <- EW. apply workable_from_NoDup.
    + intros x Hx. rewrite <- EW in Hx. apply workable_indices_elem in Hx.
      destruct Hx as [t [Ht _]]. split; [exact (lookup_lt_Some _ _ _ Ht)|].
      unfold tier_of. rewrite Ht. simpl. exact (pre_tiers_tier_none ts cfg x t Ht).
    + unfold norm_key. rewrite HA0, HB0. simpl. rewrite <- HnA', <- HnB', HnA, HnB.
      simpl. exact Hab.
    + exists la, lb. unfold tier_of in Hla, Hlb. rewrite HA in Hla. rewrite HB in Hlb.
      auto.
Qed.

Lemma recalculate_monotone_witness :
  exists la lb, tier (sampleA_tile 0) = Some la /\ tier (sampleA_tile 2) = Some lb /\
    (tier_rank (tier_percentiles sample_config) lb
     <= tier_rank (tier_percentiles sample_config) la)%nat.
Proof.
  apply (recalculate_monotone sampleA sample_config
           (fst (normalizeAndAssignTiers sampleA sample_config))
           (snd (normalizeAndAssignTiers sampleA sample_config))
           0 2 (sampleA_tile 0) (sampleA_tile 2) 133 67).
  - apply (bool_decide_unpack _). vm_compute. exact I.
  - vm_compute. reflexivity.
  - vm_compute. reflexivity.
  - vm_compute. reflexivity.
  - vm_compute. reflexivity.
  - vm_compute. reflexivity.
  - vm_compute. reflexivity.
  - vm_compute. reflexivity.
  - vm_compute. reflexivity.
  - vm_compute. reflexivity.
  - lia.
Defined.

(** ** Hex-grid geometry *)

Lemma of_to_axial (c : coord) : of_axial (to_axial c) = c.
Proof. destruct c as [x y]. unfold of_axial, to_axial. simpl. f_equal. ring. Qed.

Lemma to_of_axial (v : coord) : to_axial (of_axial v) = v.
Proof. destruct v as [x y]. unfold of_axial, to_axial. simpl. f_equal. ring. Qed.

Lemma to_axial_inj (c c' : coord) : to_axial c = to_axial c' -> c = c'.
Proof. intros H. rewrite <- (of_to_axial c), <- (of_to_axial c'), H. reflexivity. Qed.

Lemma rem2_cases (r : Z) :
  (Z.rem r 2 =? 0) = true /\ (exists m, r = 2 * m) \/
  (Z.rem r 2 =? 0) = false /\ (exists m, r = 2 * m + 1).
Proof.
  destruct (Z.rem r 2 =? 0) eqn:E; [left|right]; split; auto; exists (r / 2).
  - apply Z.eqb_eq in E. Z.div_mod_to_equations. Z.quot_rem_to_equations. lia.
  - apply Z.eqb_neq in E. Z.div_mod_to_equations. Z.quot_rem_to_equations. lia.
Qed.

Ltac pick_in_list := rewrite ?elem_of_cons; repeat (first [left; reflexivity | right]).

Ltac split_structure :=
  repeat match goal with
         | |- _ :: _ = _ :: _ => f_equal
         | |- (_, _) = (_, _) => f_equal
         end.

(** Both neighbour tables are the six axial directions, in the same order. *)
Lemma nbrs_axial (q r : Z) :
  map to_axial (getDirectNeighbors q r) = map (vadd (to_axial (q, r))) axial_dirs.
Proof.
  unfold getDirectNeighbors, direct_offsets.
  destruct (rem2_cases r) as [[E [m ->]]|[E [m ->]]]; rewrite E; simpl;
    unfold to_axial, vadd; simpl; split_structure;
    Z.div_mod_to_equations; lia.
Qed.

Lemma nbr_axial_iff (c n : coord) :
  n ∈ getDirectNeighbors c.1 c.2 <->
  exists d, d ∈ axial_dirs /\ to_axial n = vadd (to_axial c) d.
Proof.
  destruct c as [q r]. simpl.
  pose proof (nbrs_axial q r) as Hm. rewrite !list_elem_of_In. split.
  - intros Hn. apply (in_map to_axial) in Hn. rewrite Hm in Hn.
    apply in_map_iff in Hn. destruct Hn as [d [Hd Hin]]. exists d.
    split; [apply list_elem_of_In; exact Hin|symmetry; exact Hd].
  - intros [d [Hd Hn]]. apply list_elem_of_In in Hd.
    assert (Hin : In (to_axial n) (map to_axial (getDirectNeighbors q r))).
    { rewrite Hm, Hn. apply in_map. exact Hd. }
    apply in_map_iff in Hin. destruct Hin as [n' [Hn' Hin]].
    apply to_axial_inj in Hn'. subst. exact Hin.
Qed.

Lemma axial_dirs_cases (d : coord) :
  d ∈ axial_dirs ->
  d = (1, 0) \/ d = (0, 1) \/ d = (-1, 1) \/ d = (-1, 0) \/ d = (0, -1) \/ d = (1, -1).
Proof.
  unfold axial_dirs. rewrite !elem_of_cons.
  intros H.
  repeat (destruct H as [->|H]; [repeat (first [left; reflexivity | right | reflexivity])|]).
  inversion H.
Qed.

Lemma nbr_symm (c n : coord) :
  n ∈ getDirectNeighbors c.1 c.2 -> c ∈ getDirectNeighbors n.1 n.2.
Proof.
  rewrite !nbr_axial_iff. intros [d [Hd Hn]].
  exists (- d.1, - d.2). rewrite Hn. unfold vadd. simpl. split.
  - apply axial_dirs_cases in Hd. unfold axial_dirs.
    destruct Hd as [-> | [-> | [-> | [-> | [-> | -> ] ] ] ] ]; simpl; pick_in_list.
  - unfold to_axial. f_equal; ring.
Qed.

Lemma hex_dist_nbr (c0 c n : coord) :
  n ∈ getDirectNeighbors c.1 c.2 -> hex_dist n c0 <= hex_dist c c0 + 1.
Proof.
  rewrite nbr_axial_iff. intros [d [Hd Hn]]. unfold hex_dist, hex_norm.
  rewrite Hn. unfold vadd. simpl.
  apply axial_dirs_cases in Hd.
  destruct Hd as [-> | [-> | [-> | [-> | [-> | -> ] ] ] ] ]; simpl; lia.
Qed.

Lemma hex_norm_pred (v : coord) :
  1 <= hex_norm v -> exists d, d ∈ axial_dirs /\ hex_norm (vadd v d) = hex_norm v - 1.
Proof.
  destruct v as [a b]. unfold hex_norm, vadd, axial_dirs. simpl. intros H.
  destruct (Z_lt_le_dec 0 a) as [Ha|Ha].
  - destruct (Z_lt_le_dec 0 (a + b)).
    + exists (-1, 0). simpl. split; [pick_in_list|lia].
    + exists (-1, 1). simpl. split; [pick_in_list|lia].
  - destruct (Z_lt_le_dec a 0) as [Ha'|Ha'].
    + destruct (Z_lt_le_dec (a + b) 0).
      * exists (1, 0). simpl. split; [pick_in_list|lia].
      * exists (1, -1). simpl. split; [pick_in_list|lia].
    + destruct (Z_lt_le_dec b 0).
      * exists (0, 1). simpl. split; [pick_in_list|lia].
      * exists (0, -1). simpl. split; [pick_in_list|lia].
Qed.

Lemma hex_dist_pred (c0 c : coord) :
  1 <= hex_dist c c0 ->
  exists n, n ∈ getDirectNeighbors c.1 c.2 /\ hex_dist n c0 = hex_dist c c0 - 1.
Proof.
  intros H. destruct (hex_norm_pred _ H) as [d [Hd Heq]].
  exists (of_axial (vadd (to_axial c) d)). split.
  - apply nbr_axial_iff. exists d. rewrite to_of_axial. auto.
  - unfold hex_dist. rewrite to_of_axial, <- Heq. unfold vadd. cbn [fst snd].
    f_equal. f_equal; ring.
Qed.

Lemma hex_dist_nonneg (c c0 : coord) : 0 <= hex_dist c c0.
Proof. unfold hex_dist, hex_norm. lia. Qed.

Lemma hex_dist_zero (c c0 : coord) : hex_dist c c0 = 0 <-> c = c0.
Proof.
  split.
  - unfold hex_dist, hex_norm. intros H. apply to_axial_inj.
    destruct (to_axial c), (to_axial c0). simpl in *. f_equal; lia.
  - intros ->. unfold hex_dist, hex_norm. rewrite !Z.sub_diag. reflexivity.
Qed.

(** ** Size of the hex ball *)

Lemma sym_range_elem (n : nat) (b : Z) : b ∈ sym_range n <-> Z.abs b <= Z.of_nat n.
Proof.
  induction n as [|n IH]; simpl.
  - rewrite elem_of_cons. split; [intros [->|H]; [lia|inversion H]|].
    intros H. left. lia.
  - rewrite elem_of_cons, elem_of_app, IH, elem_of_cons.
    split.
    + intros [->|[H|[->|H]]]; [lia|lia|lia|inversion H].
    + intros H. destruct (Z.eq_dec b (- Z.of_nat (S n))) as [->|H1]; [left; lia|].
      right. destruct (Z.eq_dec b (Z.of_nat (S n))) as [->|H2]; [right; left; lia|].
      left. lia.
Qed.

Lemma sym_range_NoDup (n : nat) : NoDup (sym_range n).
Proof.
  induction n as [|n IH]; simpl; [constructor; [intros H; inversion H|constructor]|].
  constructor.
  - rewrite elem_of_app, sym_range_elem, elem_of_cons. intros [H|[H|H]]; [lia|lia|inversion H].
  - apply NoDup_app. split; [exact IH|]. split; [|apply NoDup_singleton].
    intros x Hx Hy. apply sym_range_elem in Hx. apply list_elem_of_singleton in Hy. lia.
Qed.

Lemma zseg_elem (lo : Z) (len : nat) (a : Z) :
  a ∈ zseg lo len <-> lo <= a < lo + Z.of_nat len.
Proof.
  unfold zseg. rewrite list_elem_of_In, in_map_iff. split.
  - intros [i [<- Hi]]. apply in_seq in Hi. lia.
  - intros H. exists (Z.to_nat (a - lo)). split; [lia|]. apply in_seq. lia.
Qed.

Lemma zseg_NoDup (lo : Z) (len : nat) : NoDup (zseg lo len).
Proof.
  unfold zseg. generalize 0%nat as k. induction len as [|len IH]; intros k; simpl;
    constructor; [|apply IH].
  rewrite list_elem_of_In, in_map_iff. intros [i [Hi Hin]]. apply in_seq in Hin. lia.
Qed.

Lemma ball_axial_elem (n : nat) (v : coord) :
  v ∈ ball_axial n <-> hex_norm v <= Z.of_nat n.
Proof.
  destruct v as [a b]. unfold ball_axial, ball_row, hex_norm. simpl.
  rewrite list_elem_of_In, in_flat_map. split.
  - intros [b' [Hb' Hin]]. apply list_elem_of_In, sym_range_elem in Hb'.
    apply in_map_iff in Hin. destruct Hin as [a' [Ha' Hin]].
    injection Ha' as -> ->. apply list_elem_of_In, zseg_elem in Hin. lia.
  - intros H. exists b. split; [apply list_elem_of_In, sym_range_elem; lia|].
    apply in_map_iff. exists a. split; [reflexivity|].
    apply list_elem_of_In, zseg_elem. lia.
Qed.

Lemma NoDup_map_inj {A B} (f : A -> B) (l : list A) :
  (forall x y, f x = f y -> x = y) -> NoDup l -> NoDup (map f l).
Proof.
  intros Hinj Hnd. induction Hnd as [|x l Hx Hnd IH]; simpl; constructor; [|exact IH].
  rewrite list_elem_of_In, in_map_iff. intros [y [Hy Hin]].
  apply Hinj in Hy. subst. apply Hx, list_elem_of_In, Hin.
Qed.

Lemma ball_row_snd (n : nat) (b : Z) (v : coord) : v ∈ ball_row n b -> v.2 = b.
Proof.
  unfold ball_row. rewrite list_elem_of_In, in_map_iff. intros [a [<- _]]. reflexivity.
Qed.

Lemma ball_axial_NoDup (n : nat) : NoDup (ball_axial n).
Proof.
  unfold ball_axial. pose proof (sym_range_NoDup n) as Hnd.
  induction Hnd as [|b l Hb Hnd IH]; simpl; [constructor|].
  apply NoDup_app. split; [|split; [|exact IH]].
  - unfold ball_row. apply NoDup_map_inj; [|apply zseg_NoDup].
    intros x y H. injection H as H. exact H.
  - intros v Hv Hv'. apply ball_row_snd in Hv.
    apply list_elem_of_In, in_flat_map in Hv'. destruct Hv' as [b' [Hb' Hin]].
    apply list_elem_of_In, ball_row_snd in Hin. apply Hb, list_elem_of_In. congruence.
Qed.

Lemma length_flat_map_sumZ {A} (f : Z -> list A) (l : list Z) :
  Z.of_nat (length (flat_map f l)) = sumZ l (fun b => Z.of_nat (length (f b))).
Proof. induction l as [|b l IH]; simpl; [reflexivity|]. rewrite length_app. lia. Qed.

Lemma sumZ_app (l1 l2 : list Z) (f : Z -> Z) : sumZ (l1 ++ l2) f = sumZ l1 f + sumZ l2 f.
Proof. induction l1 as [|b l IH]; simpl; lia. Qed.

Lemma sumZ_ext (l : list Z) (f g : Z -> Z) :
  (forall b, b ∈ l -> f b = g b) -> sumZ l f = sumZ l g.
Proof.
  induction l as [|b l IH]; intros H; simpl; [reflexivity|].
  rewrite (H b) by (rewrite elem_of_cons; auto).
  rewrite IH; [reflexivity|]. intros b' Hb'. apply H. rewrite elem_of_cons. auto.
Qed.

Lemma sumZ_rows (n : nat) (M : Z) :
  sumZ (sym_range n) (fun b => 2 * M + 1 - Z.abs b)
  = (2 * Z.of_nat n + 1) * (2 * M + 1) - Z.of_nat n * (Z.of_nat n + 1).
Proof.
  induction n as [|n IH]; simpl sym_range; [simpl; lia|].
  cbn [sumZ fold_right]. fold (sumZ (sym_range n ++ [Z.of_nat (S n)]) (fun b => 2 * M + 1 - Z.abs b)).
  rewrite sumZ_app, IH. simpl. lia.
Qed.

Lemma ball_axial_length (n : nat) :
  Z.of_nat (length (ball_axial n)) = 1 + 3 * Z.of_nat n * (Z.of_nat n + 1).
Proof.
  unfold ball_axial. rewrite length_flat_map_sumZ.
  rewrite (sumZ_ext _ _ (fun b => 2 * Z.of_nat n + 1 - Z.abs b)).
  - rewrite sumZ_rows. lia.
  - intros b Hb. apply sym_range_elem in Hb. unfold ball_row, zseg.
    cbv zeta. rewrite !length_map, length_seq. lia.
Qed.

Lemma ball_list_elem (c0 : coord) (radius : Z) (c : coord) :
  0 <= radius -> c ∈ ball_list c0 radius <-> hex_dist c c0 <= radius.
Proof.
  intros HR. unfold ball_list. rewrite list_elem_of_In, in_map_iff. split.
  - intros [v [<- Hv]]. apply list_elem_of_In, ball_axial_elem in Hv.
    unfold hex_dist. rewrite to_of_axial. unfold vadd. cbn [fst snd].
    destruct v as [a b]. unfold hex_norm in *. cbn [fst snd] in *.
    replace ((to_axial c0).1 + a - (to_axial c0).1) with a by ring.
    replace ((to_axial c0).2 + b - (to_axial c0).2) with b by ring. lia.
  - intros H.
    exists ((to_axial c).1 - (to_axial c0).1, (to_axial c).2 - (to_axial c0).2).
    split.
    + unfold vadd. cbn [fst snd].
      replace ((to_axial c0).1 + ((to_axial c).1 - (to_axial c0).1)) with (to_axial c).1 by ring.
      replace ((to_axial c0).2 + ((to_axial c).2 - (to_axial c0).2)) with (to_axial c).2 by ring.
      rewrite <- surjective_pairing. apply of_to_axial.
    + apply list_elem_of_In, ball_axial_elem. unfold hex_dist in H. lia.
Qed.

Lemma ball_list_NoDup (c0 : coord) (radius : Z) : NoDup (ball_list c0 radius).
Proof.
  unfold ball_list. apply NoDup_map_inj; [|apply ball_axial_NoDup].
  intros [a b] [a' b'] H. apply (f_equal to_axial) in H. rewrite !to_of_axial in H.
  unfold vadd in H. cbn [fst snd] in H. injection H as H1 H2. f_equal; lia.
Qed.

Lemma ball_list_length (c0 : coord) (radius : Z) :
  0 <= radius -> Z.of_nat (length (ball_list c0 radius)) = 1 + 3 * radius * (radius + 1).
Proof.
  intros HR. unfold ball_list. rewrite length_map, ball_axial_length. lia.
Qed.

Lemma NoDup_length_le {A} (l k : list A) :
  NoDup l -> (forall x, x ∈ l -> x ∈ k) -> (length l <= length k)%nat.
Proof.
  intros Hnd Hsub. apply NoDup_incl_length; [apply NoDup_ListNoDup, Hnd|].
  intros x Hx. apply list_elem_of_In, Hsub, list_elem_of_In, Hx.
Qed.

Lemma StronglySorted_app_intro {A} (R : A -> A -> Prop) (l1 l2 : list A) :
  StronglySorted R l1 -> StronglySorted R l2 ->
  (forall x y, In x l1 -> In y l2 -> R x y) -> StronglySorted R (l1 ++ l2).
Proof.
  intros H1 H2 H12. induction H1 as [|x l1 Hl1 IH Hx]; simpl; [exact H2|].
  constructor.
  - apply IH. intros a b Ha Hb. apply H12; [right|]; assumption.
  - apply Forall_app. split; [exact Hx|]. apply Forall_forall.
    intros y Hy. apply H12; [left; reflexivity|apply list_elem_of_In, Hy].
Qed.

Lemma StronglySorted_all {A} (R : A -> A -> Prop) (l : list A) :
  (forall x y, In x l -> In y l -> R x y) -> StronglySorted R l.
Proof.
  induction l as [|x l IH]; intros H; constructor.
  - apply IH. intros a b Ha Hb. apply H; right; assumption.
  - apply Forall_forall. intros y Hy. apply H; [left; reflexivity|right; apply list_elem_of_In, Hy].
Qed.

(** Effect of [directNeighbors.forEach]: the neighbours [A] not yet
    visited, in order, are appended to [results] and queued at [d + 1]. *)
Lemma visit_fold_effect (d : Z) (L : list coord) (st : bfs_state) :
  exists A,
    results (fold_left (visit_neighbor d) L st) = results st ++ A /\
    queue (fold_left (visit_neighbor d) L st) = queue st ++ map (fun x => (x, d + 1)) A /\
    (forall x, x ∈ visited (fold_left (visit_neighbor d) L st) <-> x ∈ A \/ x ∈ visited st) /\
    NoDup A /\
    (forall x, x ∈ A -> x ∈ L /\ x ∉ visited st) /\
    (forall x, x ∈ L -> x ∈ A \/ x ∈ visited st).
Proof.
  revert st. induction L as [|y L IH]; intros st; simpl.
  - exists []. rewrite !app_nil_r. split; [reflexivity|]. split; [reflexivity|].
    split; [intros x; split; [intros H; right; exact H|intros [H|H]; [inversion H|exact H]]|].
    split; [constructor|]. split; [intros x H; inversion H|]. intros x H; inversion H.
  - destruct (decide (y ∈ visited st)) as [Hy|Hy].
    + assert (E : visit_neighbor d st y = st)
        by (unfold visit_neighbor; destruct (decide (y ∈ visited st)); [reflexivity|contradiction]).
      rewrite E. destruct (IH st) as (A & Hr & Hq & Hv & Hnd & HA & Hcov).
      exists A. split; [exact Hr|]. split; [exact Hq|]. split; [exact Hv|].
      split; [exact Hnd|]. split.
      * intros x Hx. destruct (HA x Hx) as [H1 H2]. split; [rewrite elem_of_cons; right|]; assumption.
      * intros x Hx. rewrite elem_of_cons in Hx. destruct Hx as [->|Hx]; [right; exact Hy|].
        apply Hcov, Hx.
    + assert (E : visit_neighbor d st y
                  = mkBfs (queue st ++ [(y, d + 1)]) ({[y]} ∪ visited st) (results st ++ [y]))
        by (unfold visit_neighbor; destruct (decide (y ∈ visited st)); [contradiction|reflexivity]).
      rewrite E.
      destruct (IH (mkBfs (queue st ++ [(y, d + 1)]) ({[y]} ∪ visited st) (results st ++ [y])))
        as (A & Hr & Hq & Hv & Hnd & HA & Hcov).
      cbn [results queue visited] in *.
      exists (y :: A). split; [rewrite Hr, <- app_assoc; reflexivity|].
      split; [rewrite Hq, <- app_assoc; reflexivity|].
      split.
      * intros x. rewrite Hv, elem_of_union, elem_of_singleton, elem_of_cons. tauto.
      * split.
        -- constructor; [|exact Hnd]. intros Hin. apply (HA y Hin).
           apply elem_of_union. left. apply elem_of_singleton. reflexivity.
        -- split.
           ++ intros x Hx. rewrite elem_of_cons in Hx. destruct Hx as [->|Hx].
              ** split; [apply elem_of_cons; left; reflexivity|exact Hy].
              ** destruct (HA x Hx) as [H1 H2]. split; [apply elem_of_cons; right; exact H1|].
                 intros H3. apply H2, elem_of_union. right. exact H3.
           ++ intros x Hx. rewrite elem_of_cons in Hx. destruct Hx as [->|Hx].
              ** left. apply elem_of_cons. left. reflexivity.
              ** destruct (Hcov x Hx) as [H1|H1]; [left; apply elem_of_cons; right; exact H1|].
                 apply elem_of_union in H1. destruct H1 as [H1|H1].
                 --- apply elem_of_singleton in H1. subst. left. apply elem_of_cons. left. reflexivity.
                 --- right. exact H1.
Qed.

Lemma in_map_pair (A : list coord) (k : Z) (e : coord * Z) :
  e ∈ map (fun x => (x, k)) A <-> e.2 = k /\ e.1 ∈ A.
Proof.
  rewrite list_elem_of_In, in_map_iff. split.
  - intros [x [<- Hx]]. split; [reflexivity|apply list_elem_of_In, Hx].
  - destruct e as [x k']. cbn [fst snd]. intros [-> Hx].
    exists x. split; [reflexivity|apply list_elem_of_In, Hx].
Qed.

Lemma map_fst_pair (A : list coord) (k : Z) : map fst (map (fun x => (x, k)) A) = A.
Proof. induction A as [|x A IH]; simpl; [reflexivity|rewrite IH; reflexivity]. Qed.

Lemma elem_of_map_fst (l : list (coord * Z)) (x : coord) :
  x ∈ map fst l <-> exists k, (x, k) ∈ l.
Proof.
  rewrite list_elem_of_In, in_map_iff. split.
  - intros [[y k] [Hy Hin]]. cbn [fst] in Hy. subst. exists k. apply list_elem_of_In, Hin.
  - intros [k Hin]. exists (x, k). split; [reflexivity|apply list_elem_of_In, Hin].
Qed.

(** One round preserves the invariant, given the effect of the round:
    the head [(c, h)] is shifted and the fresh neighbours [A] of [c] are
    appended, all of them when [h] is below the radius. *)
Lemma bfs_inv_extend (c0 : coord) (radius : Z) (st st1 : bfs_state)
    (c : coord) (h : Z) (rest : list (coord * Z)) (A : list coord) :
  bfs_inv c0 radius st -> queue st = (c, h) :: rest ->
  results st1 = results st ++ A ->
  queue st1 = rest ++ map (fun x => (x, h + 1)) A ->
  (forall x, x ∈ visited st1 <-> x ∈ A \/ x ∈ visited st) ->
  NoDup A ->
  (forall x, x ∈ A -> x ∈ getDirectNeighbors c.1 c.2 /\ x ∉ visited st) ->
  (h < radius -> forall x, x ∈ getDirectNeighbors c.1 c.2 -> x ∈ A \/ x ∈ visited st) ->
  (A <> [] -> h < radius) ->
  bfs_inv c0 radius st1.
Proof.
  intros (Hnd & Hvis & Hc0 & Hrad & (P & HP & Hclos) & Hdist & Hsort & Hhead)
    Hq Hr1 Hq1 Hv1 HndA HA Hcov HAR.
  rewrite Hq in Hdist, Hsort, HP.
  destruct (Hhead _ _ Hq) as [Hspread Hcomp]. cbn [snd] in Hspread, Hcomp.
  apply Forall_cons in Hdist. destruct Hdist as [Hh Hdist]. cbn [fst snd] in Hh.
  apply StronglySorted_inv in Hsort. destruct Hsort as [Hsort Hlow]. cbn [snd] in Hlow.
  assert (Hh0 : 0 <= h) by (rewrite Hh; apply hex_dist_nonneg).
  assert (HAdist : forall a, a ∈ A -> hex_dist a c0 = h + 1 /\ h < radius).
  { intros a Ha. destruct (HA a Ha) as [Hn Hnv].
    split; [|apply HAR; intros ->; inversion Ha].
    pose proof (hex_dist_nbr c0 c a Hn) as Hle. rewrite <- Hh in Hle.
    destruct (Z_le_gt_dec (hex_dist a c0) h) as [Hle'|Hgt]; [|lia].
    exfalso. apply Hnv, Hvis, Hcomp, Hle'. }
  assert (Hbounds : forall e, e ∈ queue st1 -> h <= e.2 <= h + 1).
  { intros e He. rewrite Hq1, elem_of_app in He. destruct He as [He|He].
    - rewrite Forall_forall in Hlow, Hspread. split; [apply Hlow|apply Hspread]; exact He.
    - apply in_map_pair in He. lia. }
  assert (G4 : forall x, x ∈ results st1 -> hex_dist x c0 <= radius).
  { intros x Hx. rewrite Hr1, elem_of_app in Hx. destruct Hx as [Hx|Hx]; [apply Hrad, Hx|].
    destruct (HAdist x Hx). lia. }
  assert (G5 : results st1 = (P ++ [c]) ++ map fst (queue st1)).
  { rewrite Hr1, HP, Hq1, map_app, map_fst_pair. simpl. rewrite <- !app_assoc. reflexivity. }
  assert (G5' : forall x, x ∈ P ++ [c] -> hex_dist x c0 < radius ->
            forall n, n ∈ getDirectNeighbors x.1 x.2 -> n ∈ results st1).
  { intros x Hx Hxr n Hn. rewrite Hr1, elem_of_app.
    rewrite elem_of_app, list_elem_of_singleton in Hx. destruct Hx as [Hx | ->].
    - left. apply (Hclos x Hx Hxr n Hn).
    - rewrite <- Hh in Hxr. destruct (Hcov Hxr n Hn) as [H|H]; [right; exact H|].
      left. apply Hvis, H. }
  assert (G6 : Forall (fun e : coord * Z => e.2 = hex_dist e.1 c0) (queue st1)).
  { rewrite Hq1. apply Forall_app. split; [exact Hdist|].
    apply Forall_forall. intros e He. apply in_map_pair in He. destruct He as [He1 He2].
    rewrite He1. symmetry. apply (HAdist _ He2). }
  assert (G7 : StronglySorted (fun e1 e2 : coord * Z => e1.2 <= e2.2) (queue st1)).
  { rewrite Hq1. apply StronglySorted_app_intro; [exact Hsort| |].
    - apply StronglySorted_all. intros x y Hx Hy.
      apply list_elem_of_In, in_map_pair in Hx. apply list_elem_of_In, in_map_pair in Hy. lia.
    - intros x y Hx Hy. apply list_elem_of_In, in_map_pair in Hy.
      rewrite Forall_forall in Hspread. apply list_elem_of_In in Hx.
      pose proof (Hspread x Hx). lia. }
  split; [|split; [|split; [|split; [|split; [|split; [|split]]]]]].
  - rewrite Hr1. apply NoDup_app. split; [exact Hnd|]. split; [|exact HndA].
    intros x Hx HxA. apply (HA x HxA). apply Hvis, Hx.
  - intros x. rewrite Hv1, Hr1, elem_of_app, Hvis. tauto.
  - rewrite Hr1, elem_of_app. left. exact Hc0.
  - exact G4.
  - exists (P ++ [c]). split; [exact G5|exact G5'].
  - exact G6.
  - exact G7.
  - intros e rest1 He. assert (Hein : e ∈ queue st1) by (rewrite He; apply elem_of_cons; left; reflexivity).
    pose proof (Hbounds e Hein) as [He1 He2].
    split.
    + apply Forall_forall. intros e' He'.
      assert (e' ∈ queue st1) by (rewrite He; apply elem_of_cons; right; exact He').
      pose proof (Hbounds e' H). lia.
    + intros c' Hc'. destruct (Z_le_gt_dec (hex_dist c' c0) h) as [Hle|Hgt].
      { rewrite Hr1, elem_of_app. left. apply Hvis, Hvis, Hcomp, Hle. }
      assert (Hhe : e.2 = h + 1) by lia.
      assert (Hhr : h < radius).
      { assert (Hx : e.1 ∈ results st1).
        { rewrite G5, elem_of_app. right. apply elem_of_map_fst. exists e.2.
          rewrite <- surjective_pairing. exact Hein. }
        pose proof (G4 _ Hx). rewrite Forall_forall in G6. pose proof (G6 e Hein). lia. }
      destruct (hex_dist_pred c0 c') as [n [Hn Hnd']]; [lia|].
      assert (HnR : n ∈ results st) by (apply Hcomp; lia).
      assert (HnP : n ∈ P ++ [c]).
      { assert (Hn1 : n ∈ results st1) by (rewrite Hr1, elem_of_app; left; exact HnR).
        rewrite G5, elem_of_app in Hn1. destruct Hn1 as [Hn1|Hn1]; [exact Hn1|].
        exfalso. apply elem_of_map_fst in Hn1. destruct Hn1 as [k Hk].
        rewrite Forall_forall in G6. pose proof (G6 _ Hk) as Hk'. cbn [fst snd] in Hk'.
        rewrite He in G7. apply StronglySorted_inv in G7. destruct G7 as [_ Hlow1].
        rewrite He, elem_of_cons in Hk. destruct Hk as [Hk|Hk].
        - rewrite <- Hk in Hhe. cbn [snd] in Hhe. lia.
        - rewrite Forall_forall in Hlow1. pose proof (Hlow1 _ Hk). cbn [snd] in *. lia. }
      apply (G5' n HnP); [lia|]. apply nbr_symm, Hn.
Qed.

Lemma bfs_step_inv (c0 : coord) (radius : Z) (st : bfs_state) (c : coord) (h : Z)
    (rest : list (coord * Z)) :
  bfs_inv c0 radius st -> queue st = (c, h) :: rest ->
  bfs_inv c0 radius (bfs_step radius st) /\
  (length (queue (bfs_step radius st)) + length (results st)
   = length rest + length (results (bfs_step radius st)))%nat.
Proof.
  intros Hinv Hq. unfold bfs_step. rewrite Hq.
  destruct (Z.ltb_spec h radius) as [Hlt|Hge].
  - destruct (visit_fold_effect h (getDirectNeighbors c.1 c.2) (mkBfs rest (visited st) (results st)))
      as (A & Hr & Hq1 & Hv & Hnd & HA & Hcov).
    cbn [results queue visited] in *. split.
    + apply (bfs_inv_extend c0 radius st _ c h rest A Hinv Hq Hr Hq1 Hv Hnd HA);
        [intros _; exact Hcov|intros _; exact Hlt].
    + rewrite Hr, Hq1, !length_app, length_map. lia.
  - split; [|cbn [queue results]; lia].
    apply (bfs_inv_extend c0 radius st _ c h rest [] Hinv Hq); cbn [results queue visited];
      [rewrite app_nil_r; reflexivity|rewrite app_nil_r; reflexivity| | | | |].
    + intros x. split; [intros H; right; exact H|intros [H|H]; [inversion H|exact H]].
    + constructor.
    + intros x H. inversion H.
    + intros H. lia.
    + intros H. exfalso. apply H. reflexivity.
Qed.

Lemma bfs_results_bound (c0 : coord) (radius : Z) (st : bfs_state) :
  0 <= radius -> bfs_inv c0 radius st ->
  (length (results st) <= length (ball_list c0 radius))%nat.
Proof.
  intros HR (Hnd & _ & _ & Hrad & _). apply NoDup_length_le; [exact Hnd|].
  intros x Hx. apply ball_list_elem; [exact HR|]. apply Hrad, Hx.
Qed.

Lemma bfs_loop_final (c0 : coord) (radius : Z) (fuel : nat) (st : bfs_state) :
  0 <= radius -> bfs_inv c0 radius st ->
  (length (queue st) + (length (ball_list c0 radius) - length (results st)) < fuel)%nat ->
  exists stf, bfs_inv c0 radius stf /\ queue stf = [] /\ bfs_loop fuel radius st = results stf.
Proof.
  intros HR. revert st. induction fuel as [|fuel IH]; intros st Hinv Hfuel; [lia|].
  destruct (queue st) as [|[c h] rest] eqn:Hq.
  - exists st. split; [exact Hinv|]. split; [exact Hq|]. simpl. rewrite Hq. reflexivity.
  - destruct (bfs_step_inv c0 radius st c h rest Hinv Hq) as [Hinv1 Hlen].
    pose proof (bfs_results_bound c0 radius _ HR Hinv1) as Hb1.
    destruct (IH (bfs_step radius st) Hinv1) as (stf & H1 & H2 & H3); [simpl in Hfuel; lia|].
    exists stf. split; [exact H1|]. split; [exact H2|]. rewrite <- H3.
    simpl. rewrite Hq. unfold bfs_step. rewrite Hq. destruct (h <? radius); reflexivity.
Qed.

Lemma bfs_final_elem (c0 : coord) (radius : Z) (st : bfs_state) :
  bfs_inv c0 radius st -> queue st = [] ->
  forall c, c ∈ results st <-> hex_dist c c0 <= radius.
Proof.
  intros (Hnd & _ & Hc0 & Hrad & (P & HP & Hclos) & _) Hq c.
  rewrite Hq in HP. simpl in HP. rewrite app_nil_r in HP. rewrite <- HP in Hclos.
  split; [apply Hrad|].
  remember (Z.to_nat (hex_dist c c0)) as k eqn:Hk. revert c Hk.
  induction k as [|k IH]; intros c Hk Hc.
  - assert (hex_dist c c0 = 0) by (pose proof (hex_dist_nonneg c c0); lia).
    apply hex_dist_zero in H. subst. exact Hc0.
  - destruct (hex_dist_pred c0 c) as [n [Hn Hnd']]; [lia|].
    apply (Hclos n); [apply IH; lia|lia|]. apply nbr_symm, Hn.
Qed.

Lemma bfs_init_inv (q r radius : Z) :
  0 < radius -> bfs_inv (q, r) radius (mkBfs [((q, r), 0)] {[(q, r)]} [(q, r)]).
Proof.
  intros HR. unfold bfs_inv. cbn [results visited queue].
  assert (H0 : hex_dist (q, r) (q, r) = 0) by (apply hex_dist_zero; reflexivity).
  split; [apply NoDup_singleton|].
  split; [intros c; rewrite elem_of_singleton, list_elem_of_singleton; reflexivity|].
  split; [apply list_elem_of_singleton; reflexivity|].
  split; [intros c Hc; apply list_elem_of_singleton in Hc; subst; lia|].
  split; [exists []; split; [reflexivity|intros c Hc; inversion Hc]|].
  split; [constructor; [cbn [fst snd]; symmetry; exact H0|constructor]|].
  split; [constructor; constructor|].
  intros e rest He. injection He as <- <-. split; [constructor|].
  cbn [snd]. intros c Hc. apply list_elem_of_singleton.
  apply hex_dist_zero. pose proof (hex_dist_nonneg c (q, r)). lia.
Qed.

Lemma getCoordsWithinRadius_spec (q r radius : Z) :
  0 <= radius ->
  NoDup (getCoordsWithinRadius q r radius) /\
  forall c, c ∈ getCoordsWithinRadius q r radius <-> hex_dist c (q, r) <= radius.
Proof.
  intros HR. unfold getCoordsWithinRadius. destruct (Z.leb_spec radius 0) as [H0|H0].
  - split; [apply NoDup_singleton|]. intros c. rewrite list_elem_of_singleton.
    rewrite <- hex_dist_zero. pose proof (hex_dist_nonneg c (q, r)). lia.
  - pose proof (bfs_init_inv q r radius H0) as Hinit.
    destruct (bfs_loop_final (q, r) radius (bfs_fuel radius) _ HR Hinit)
      as (stf & Hinv & Hq & ->).
    + cbn [queue results length]. pose proof (ball_list_length (q, r) radius HR) as HL.
      unfold bfs_fuel. nia.
    + split; [apply Hinv|]. apply (bfs_final_elem _ _ _ Hinv Hq).
Qed.

Lemma rem2_even (r : Z) : (Z.rem r 2 =? 0) = Z.even r.
Proof.
  destruct (rem2_cases r) as [[-> [m ->]]|[-> [m ->]]].
  - rewrite Z.even_mul. reflexivity.
  - rewrite Z.add_comm, Z.even_add_mul_2. reflexivity.
Qed.

Lemma NoDup_map_rev {A B} (f : A -> B) (l : list A) : NoDup (map f l) -> NoDup l.
Proof.
  induction l as [|x l IH]; simpl; intros H; [constructor|].
  inversion H as [|? ? Hx Hnd]; subst. constructor; [|apply IH, Hnd].
  intros Hin. apply Hx, list_elem_of_In, in_map, list_elem_of_In, Hin.
Qed.

Lemma center_nbrs_NoDup (q r : Z) : NoDup ((q, r) :: getDirectNeighbors q r).
Proof.
  apply (NoDup_map_rev to_axial).
  assert (E : map to_axial ((q, r) :: getDirectNeighbors q r)
              = map (vadd (to_axial (q, r))) ((0, 0) :: axial_dirs)).
  { cbn [map]. rewrite nbrs_axial. f_equal. unfold vadd. rewrite !Z.add_0_r.
    apply surjective_pairing. }
  rewrite E. apply NoDup_map_inj.
  - intros [a b] [a' b'] H. unfold vadd in H. cbn [fst snd] in H.
    injection H as H1 H2. f_equal; lia.
  - apply (bool_decide_unpack _). vm_compute. exact I.
Qed.

(** [directNeighbors.forEach] over distinct, unvisited neighbours appends
    all of them, in order. *)
Lemma visit_fold_fresh (d : Z) (L : list coord) (st : bfs_state) :
  NoDup L -> (forall x, x ∈ L -> x ∉ visited st) ->
  results (fold_left (visit_neighbor d) L st) = results st ++ L /\
  queue (fold_left (visit_neighbor d) L st) = queue st ++ map (fun x => (x, d + 1)) L.
Proof.
  revert st. induction L as [|y L IH]; intros st Hnd Hfresh; simpl.
  - rewrite !app_nil_r. split; reflexivity.
  - inversion Hnd as [|? ? Hy HndL]; subst.
    assert (E : visit_neighbor d st y
                = mkBfs (queue st ++ [(y, d + 1)]) ({[y]} ∪ visited st) (results st ++ [y])).
    { unfold visit_neighbor. destruct (decide (y ∈ visited st)) as [H|H]; [|reflexivity].
      exfalso. apply (Hfresh y); [apply elem_of_cons; left; reflexivity|exact H]. }
    rewrite E. destruct (IH (mkBfs (queue st ++ [(y, d + 1)]) ({[y]} ∪ visited st) (results st ++ [y])))
      as [Hr Hq]; [exact HndL| |].
    + intros x Hx. cbn [visited]. rewrite elem_of_union, elem_of_singleton.
      intros [->|Hv]; [exact (Hy Hx)|]. apply (Hfresh x); [apply elem_of_cons; right|]; assumption.
    + cbn [results queue] in Hr, Hq. rewrite Hr, Hq, <- !app_assoc. split; reflexivity.
Qed.

(** Rounds whose head is at the radius only shift the queue. *)
Lemma bfs_loop_drain (fuel : nat) (radius : Z) (st : bfs_state) :
  Forall (fun e : coord * Z => radius <= e.2) (queue st) ->
  (length (queue st) < fuel)%nat ->
  bfs_loop fuel radius st = results st.
Proof.
  revert st. induction fuel as [|fuel IH]; intros st Hall Hlen; [lia|].
  simpl. destruct (queue st) as [|[c d] rest] eqn:Hq; [reflexivity|].
  apply Forall_cons in Hall. destruct Hall as [Hd Hall]. cbn [snd] in Hd.
  destruct (Z.ltb_spec d radius) as [Hlt|_]; [lia|].
  rewrite IH; [reflexivity|exact Hall|]. simpl in Hlen. cbn [queue]. lia.
Qed.

(** C7: at radius 1 the query around [(q, r)] returns the centre
    followed by its six direct neighbours, taken from the even-row offset
    table when [r] is even and from the odd-row table otherwise; these
    seven coordinates are pairwise distinct. *)
Theorem getCoordsWithinRadius_one (q r : Z) :
  getCoordsWithinRadius q r 1
  = (q, r) :: map (fun o : coord => (q + o.1, r + o.2))
                (if Z.even r then [(1, 0); (1, 1); (0, 1); (-1, 0); (0, -1); (1, -1)]
                 else [(1, 0); (0, 1); (-1, 1); (-1, 0); (-1, -1); (0, -1)]) /\
  NoDup (getCoordsWithinRadius q r 1) /\
  length (getCoordsWithinRadius q r 1) = 7%nat.
Proof.
  assert (Hnd := center_nbrs_NoDup q r).
  inversion Hnd as [|? ? Hc HndL]; subst.
  destruct (visit_fold_fresh 0 (getDirectNeighbors q r) (mkBfs [] {[(q, r)]} [(q, r)]) HndL)
    as [Hr Hq].
  { intros x Hx. cbn [visited]. rewrite elem_of_singleton. intros ->. exact (Hc Hx). }
  assert (E : getCoordsWithinRadius q r 1 = (q, r) :: getDirectNeighbors q r).
  { unfold getCoordsWithinRadius, bfs_fuel. cbn -[getDirectNeighbors fold_left].
    rewrite bfs_loop_drain.
    - rewrite Hr. reflexivity.
    - rewrite Hq. cbn [queue app]. apply Forall_forall. intros e He.
      apply in_map_pair in He. lia.
    - rewrite Hq. cbn [queue app]. rewrite length_map.
      unfold getDirectNeighbors. rewrite length_map.
      unfold direct_offsets. destruct (Z.rem r 2 =? 0); simpl; lia. }
  rewrite E. split; [|split; [exact Hnd|]].
  - unfold getDirectNeighbors, direct_offsets. rewrite rem2_even. reflexivity.
  - cbn [length]. unfold getDirectNeighbors. rewrite length_map.
    unfold direct_offsets. destruct (Z.rem r 2 =? 0); reflexivity.
Qed.

(** C9: for every centre [(q, r)] and radius [radius >= 0] the query
    returns pairwise distinct coordinates, exactly
    [1 + 3 * radius * (radius + 1)] of them; it reads no map. *)
Theorem getCoordsWithinRadius_count (q r radius : Z) :
  0 <= radius ->
  NoDup (getCoordsWithinRadius q r radius) /\
  Z.of_nat (length (getCoordsWithinRadius q r radius)) = 1 + 3 * radius * (radius + 1).
Proof.
  intros HR. destruct (getCoordsWithinRadius_spec q r radius HR) as [Hnd Helem].
  split; [exact Hnd|]. rewrite <- (ball_list_length (q, r) radius HR).
  f_equal. apply Permutation_length.
  apply NoDup_Permutation; [exact Hnd|apply ball_list_NoDup|].
  intros c. rewrite Helem, ball_list_elem by exact HR. reflexivity.
Qed.

Lemma getCoordsWithinRadius_count_witness :
  0 <= 2 /\
  NoDup (getCoordsWithinRadius 0 1 2) /\
  Z.of_nat (length (getCoordsWithinRadius 0 1 2)) = 1 + 3 * 2 * (2 + 1).
Proof. split; [lia|]. apply (getCoordsWithinRadius_count 0 1 2). lia. Defined.

Lemma fold_handles (m : gmap coord nat) (L : list coord) (acc : gset nat) (h : nat) :
  h ∈ fold_left (fun acc c => match m !! c with
                              | Some h => {[h]} ∪ acc
                              | None => acc
                              end) L acc
  <-> h ∈ acc \/ exists x, x ∈ L /\ m !! x = Some h.
Proof.
  revert acc. induction L as [|y L IH]; intros acc; simpl.
  - split; [intros H; left; exact H|]. intros [H|[x [Hx _]]]; [exact H|inversion Hx].
  - rewrite IH. destruct (m !! y) as [h'|] eqn:Ey.
    + rewrite elem_of_union, elem_of_singleton. split.
      * intros [[->|H]|[x [Hx Hm]]].
        -- right. exists y. split; [apply elem_of_cons; left; reflexivity|exact Ey].
        -- left. exact H.
        -- right. exists x. split; [apply elem_of_cons; right; exact Hx|exact Hm].
      * intros [H|[x [Hx Hm]]]; [left; right; exact H|].
        apply elem_of_cons in Hx. destruct Hx as [->|Hx].
        -- left. left. congruence.
        -- right. exists x. split; assumption.
    + split.
      * intros [H|[x [Hx Hm]]]; [left; exact H|].
        right. exists x. split; [apply elem_of_cons; right; exact Hx|exact Hm].
      * intros [H|[x [Hx Hm]]]; [left; exact H|].
        apply elem_of_cons in Hx. destruct Hx as [->|Hx]; [congruence|].
        right. exists x. split; assumption.
Qed.

Lemma getHexagonsWithinRadius_elem (m : gmap coord nat) (q r radius : Z) (h : nat) :
  h ∈ getHexagonsWithinRadius m (Some (q, r)) radius
  <-> exists x, x ∈ getCoordsWithinRadius q r radius /\ m !! x = Some h.
Proof.
  unfold getHexagonsWithinRadius. rewrite fold_handles. split.
  - intros [H|H]; [apply not_elem_of_empty in H; contradiction|exact H].
  - intros H. right. exact H.
Qed.

(** C6 (as stated, refuted): with a map holding only the centre, the
    handle set at radius 1 equals the one at radius 0. *)
Lemma getHexagonsWithinRadius_not_strict :
  getHexagonsWithinRadius {[(0, 0) := 7%nat]} (Some (0, 0)) 1
  = getHexagonsWithinRadius {[(0, 0) := 7%nat]} (Some (0, 0)) 0.
Proof. vm_compute. reflexivity. Qed.

(** C6: for [radius >= 1] the handles found at [radius - 1] are found
    at [radius]; at the coordinate level the result strictly grows (a
    coordinate at distance exactly [radius] is added), and the handle the
    map stores under the centre is found at every radius [>= 0]. *)
Theorem getHexagonsWithinRadius_mono (m : gmap coord nat) (q r radius : Z) :
  1 <= radius ->
  getHexagonsWithinRadius m (Some (q, r)) (radius - 1)
    ⊆ getHexagonsWithinRadius m (Some (q, r)) radius /\
  (forall x, x ∈ getCoordsWithinRadius q r (radius - 1) -> x ∈ getCoordsWithinRadius q r radius) /\
  (exists x, x ∈ getCoordsWithinRadius q r radius /\ x ∉ getCoordsWithinRadius q r (radius - 1)) /\
  (forall h, m !! (q, r) = Some h ->
     h ∈ getHexagonsWithinRadius m (Some (q, r)) (radius - 1) /\
     h ∈ getHexagonsWithinRadius m (Some (q, r)) radius).
Proof.
  intros HR.
  destruct (getCoordsWithinRadius_spec q r radius) as [_ H1]; [lia|].
  destruct (getCoordsWithinRadius_spec q r (radius - 1)) as [_ H0]; [lia|].
  assert (Hsub : forall x, x ∈ getCoordsWithinRadius q r (radius - 1) ->
                 x ∈ getCoordsWithinRadius q r radius).
  { intros x Hx. apply H1. apply H0 in Hx. lia. }
  assert (Hc : hex_dist (q, r) (q, r) = 0) by (apply hex_dist_zero; reflexivity).
  split; [|split; [exact Hsub|split]].
  - intros h. rewrite !getHexagonsWithinRadius_elem.
    intros [x [Hx Hm]]. exists x. split; [apply Hsub, Hx|exact Hm].
  - exists (of_axial (vadd (to_axial (q, r)) (radius, 0))).
    assert (Hd : hex_dist (of_axial (vadd (to_axial (q, r)) (radius, 0))) (q, r) = radius).
    { unfold hex_dist. rewrite to_of_axial. unfold vadd, hex_norm. cbn [fst snd].
      replace ((to_axial (q, r)).1 + radius - (to_axial (q, r)).1) with radius by ring.
      replace ((to_axial (q, r)).2 + 0 - (to_axial (q, r)).2) with 0 by ring. lia. }
    rewrite H1, H0, Hd. lia.
  - intros h Hm. rewrite !getHexagonsWithinRadius_elem.
    split; exists (q, r); (split; [|exact Hm]); [apply H0|apply H1]; lia.
Qed.

Lemma getHexagonsWithinRadius_mono_witness :
  1 <= 1 /\
  (getHexagonsWithinRadius {[(0, 0) := 7%nat]} (Some (0, 0)) (1 - 1)
     ⊆ getHexagonsWithinRadius {[(0, 0) := 7%nat]} (Some (0, 0)) 1 /\
   (forall x, x ∈ getCoordsWithinRadius 0 0 (1 - 1) -> x ∈ getCoordsWithinRadius 0 0 1) /\
   (exists x, x ∈ getCoordsWithinRadius 0 0 1 /\ x ∉ getCoordsWithinRadius 0 0 (1 - 1)) /\
   (forall h, ({[(0, 0) := 7%nat]} : gmap coord nat) !! (0, 0) = Some h ->
      h ∈ getHexagonsWithinRadius {[(0, 0) := 7%nat]} (Some (0, 0)) (1 - 1) /\
      h ∈ getHexagonsWithinRadius {[(0, 0) := 7%nat]} (Some (0, 0)) 1)).
Proof. split; [lia|]. apply (getHexagonsWithinRadius_mono {[(0, 0) := 7%nat]} 0 0 1). lia. Defined.

(** ** Neighbour steps and the radius query *)

Lemma hex_dist_sym (c c' : coord) : hex_dist c c' = hex_dist c' c.
Proof. unfold hex_dist, hex_norm. cbn [fst snd]. lia. Qed.

Lemma within_steps_dist (c : coord) (k : nat) (c' : coord) :
  within_steps c k c' = true <-> hex_dist c' c <= Z.of_nat k.
Proof.
  revert c. induction k as [|k IH]; intros c; simpl within_steps.
  - rewrite orb_false_r, bool_decide_eq_true, <- hex_dist_zero.
    pose proof (hex_dist_nonneg c' c). lia.
  - rewrite orb_true_iff, bool_decide_eq_true, existsb_exists. split.
    + intros [->|[n [Hn Hw]]].
      * assert (hex_dist c c = 0) by (apply hex_dist_zero; reflexivity). lia.
      * apply IH in Hw. apply list_elem_of_In, nbr_symm in Hn.
        pose proof (hex_dist_nbr c' n c Hn). rewrite (hex_dist_sym n c') in *. rewrite (hex_dist_sym c' c). lia.
    + intros Hd. destruct (decide (c' = c)) as [E|E]; [left; exact E|right].
      assert (Hpos : 1 <= hex_dist c c').
      { rewrite hex_dist_sym. pose proof (hex_dist_nonneg c' c).
        assert (hex_dist c' c <> 0) by (rewrite hex_dist_zero; exact E). lia. }
      destruct (hex_dist_pred c' c Hpos) as [n [Hn Hnd]].
      exists n. split; [apply list_elem_of_In, Hn|]. apply IH.
      rewrite hex_dist_sym, Hnd, hex_dist_sym. lia.
Qed.

Lemma getCoordsWithinRadius_length (q r radius : Z) :
  0 <= radius ->
  Z.of_nat (length (getCoordsWithinRadius q r radius)) = 1 + 3 * radius * (radius + 1).
Proof.
  intros HR. destruct (getCoordsWithinRadius_spec q r radius HR) as [Hnd Helem].
  rewrite <- (ball_list_length (q, r) radius HR).
  f_equal. apply Permutation_length.
  apply NoDup_Permutation; [exact Hnd|apply ball_list_NoDup|].
  intros c. rewrite Helem, ball_list_elem by exact HR. reflexivity.
Qed.

Lemma filter_remove_one {A} (p : A -> bool) (x : A) (l : list A) :
  NoDup l -> x ∈ l -> (forall y, p y = false <-> y = x) ->
  length (List.filter p l) = (length l - 1)%nat.
Proof.
  intros Hnd Hx Hp. induction Hnd as [|a l Ha Hnd IH]; [inversion Hx|].
  simpl. destruct (p a) eqn:Ea.
  - rewrite elem_of_cons in Hx. destruct Hx as [->|Hx].
    + assert (p a = false) by (apply Hp; reflexivity). congruence.
    + simpl length. rewrite (IH Hx). destruct l; [inversion Hx|]. simpl. lia.
  - apply Hp in Ea. subst a. simpl. rewrite Nat.sub_0_r.
    assert (Hall : forall y, In y l -> p y = true).
    { intros y Hy. destruct (p y) eqn:Ey; [reflexivity|].
      apply Hp in Ey. subst. exfalso. apply Ha, list_elem_of_In, Hy. }
    clear -Hall. induction l as [|b l IHl]; [reflexivity|].
    simpl. rewrite (Hall b (or_introl eq_refl)). simpl.
    rewrite IHl; [reflexivity|]. intros y Hy. apply Hall. right. exact Hy.
Qed.

Lemma fold_push_handles (m : gmap coord nat) (L : list coord) (acc : list nat) (h : nat) :
  h ∈ fold_left (fun acc c => match m !! c with
                              | Some h => acc ++ [h]
                              | None => acc
                              end) L acc
  <-> h ∈ acc \/ exists x, x ∈ L /\ m !! x = Some h.
Proof.
  revert acc. induction L as [|y L IH]; intros acc; simpl.
  - split; [intros H; left; exact H|]. intros [H|[x [Hx _]]]; [exact H|inversion Hx].
  - rewrite IH. destruct (m !! y) as [h'|] eqn:Ey.
    + rewrite elem_of_app, list_elem_of_singleton. split.
      * intros [[H | ->]|[x [Hx Hm]]].
        -- left. exact H.
        -- right. exists y. split; [apply elem_of_cons; left; reflexivity|exact Ey].
        -- right. exists x. split; [apply elem_of_cons; right; exact Hx|exact Hm].
      * intros [H|[x [Hx Hm]]]; [left; left; exact H|].
        apply elem_of_cons in Hx. destruct Hx as [->|Hx].
        -- left. right. congruence.
        -- right. exists x. split; assumption.
    + split.
      * intros [H|[x [Hx Hm]]]; [left; exact H|].
        right. exists x. split; [apply elem_of_cons; right; exact Hx|exact Hm].
      * intros [H|[x [Hx Hm]]]; [left; exact H|].
        apply elem_of_cons in Hx. destruct Hx as [->|Hx]; [congruence|].
        right. exists x. split; assumption.
Qed.

Lemma getNeighborCoords_elem (hoverRadius q r : Z) (c : coord) :
  0 <= hoverRadius ->
  c ∈ getNeighborCoords false hoverRadius q r
  <-> c <> (q, r) /\ within_steps (q, r) (Z.to_nat hoverRadius) c = true.
Proof.
  intros HR. unfold getNeighborCoords.
  rewrite list_elem_of_In, filter_In, <- list_elem_of_In.
  destruct (getCoordsWithinRadius_spec q r hoverRadius HR) as [_ Helem].
  rewrite Helem, within_steps_dist, Z2Nat.id by exact HR.
  destruct c as [a b]. cbn [fst snd].
  rewrite negb_true_iff, andb_false_iff, !Z.eqb_neq. split.
  - intros [H1 H2]. split; [intros E; injection E as -> ->; tauto|exact H1].
  - intros [H1 H2]. split; [exact H2|].
    destruct (Z.eq_dec a q) as [->|Ha]; [|left; exact Ha].
    right. intros ->. apply H1. reflexivity.
Qed.

(** ** Tier labels and thresholds *)

Lemma tiers_from_alter (L : list string) (lab : string) (k : nat) (ts : list tile) :
  lab ∈ L -> tiers_from L ts -> tiers_from L (alter (set_tier lab) k ts).
Proof.
  intros Hl H i t l Hi Ht.
  destruct (decide (i = k)) as [->|Hne].
  - rewrite list_lookup_alter_eq in Hi.
    destruct (ts !! k) as [t0|]; simpl in Hi; [|discriminate].
    injection Hi as <-. unfold set_tier, set_derived in Ht. simpl in Ht.
    injection Ht as <-. exact Hl.
  - rewrite list_lookup_alter_ne in Hi by congruence. eapply H; eauto.
Qed.

Lemma tiers_from_assign_range (L : list string) (sorted : list nat) (n : nat)
    (lab : string) (ts : list tile) (lo hi : nat) :
  lab ∈ L -> tiers_from L ts -> tiers_from L (assign_range sorted n lab ts lo hi).
Proof.
  intros Hl. unfold assign_range. generalize (seq lo (S hi - lo)) as xs.
  intros xs. revert ts. induction xs as [|x xs IH]; intros ts H; simpl; [exact H|].
  apply IH. unfold assign_one.
  destruct (x <? n)%nat; [|exact H].
  destruct (sorted !! x) as [k|]; [|exact H].
  destruct (tier_of ts k); [exact H|]. apply tiers_from_alter; assumption.
Qed.

Lemma set_prop_keys_elem {A} (o : list (string * A)) (k : string) (v : A) (x : string) :
  x ∈ map fst (set_prop o k v) <-> x ∈ map fst o \/ x = k.
Proof.
  induction o as [|[k' v'] o IH]; simpl.
  - rewrite list_elem_of_singleton. split; [intros ->; right; reflexivity|].
    intros [H|H]; [inversion H|exact H].
  - destruct (String.eqb_spec k' k) as [->|Hne]; simpl.
    + rewrite !elem_of_cons. tauto.
    + rewrite !elem_of_cons, IH. tauto.
Qed.

Lemma set_prop_keys_NoDup {A} (o : list (string * A)) (k : string) (v : A) :
  NoDup (map fst o) -> NoDup (map fst (set_prop o k v)).
Proof.
  induction o as [|[k' v'] o IH]; simpl; intros H.
  - apply NoDup_singleton.
  - destruct (String.eqb_spec k' k) as [->|Hne]; simpl; [exact H|].
    apply NoDup_cons in H as [Hn H]. apply NoDup_cons. split; [|apply IH, H].
    rewrite set_prop_keys_elem. intros [Hx|Hx]; [exact (Hn Hx)|exact (Hne Hx)].
Qed.

Lemma tier_walk_labels (L : list string) (sorted : list nat) (n k : nat)
    (tiers : list (string * Q)) (st : walk_state) :
  (forall e, e ∈ tiers -> e.1 ∈ L) -> labels_inv L st ->
  labels_inv L (tier_walk sorted n k tiers st).
Proof.
  revert k st; induction tiers as [|[lab p] tiers IH]; intros k st He Hst; simpl;
    [exact Hst|].
  apply IH; [intros e' He'; apply He; right; exact He'|].
  assert (Hl : lab ∈ L) by (apply (He (lab, p)); left).
  destruct Hst as (H1 & H2 & H3). unfold tier_step.
  destruct (_ && _); [split; [|split]; assumption|].
  split; [|split]; simpl.
  - apply tiers_from_assign_range; assumption.
  - intros x. rewrite set_prop_keys_elem. intros [Hx | ->]; [apply H2, Hx|exact Hl].
  - apply set_prop_keys_NoDup, H3.
Qed.

Lemma tiers_from_fallback (L : list string) (sorted : list nat) (lowest : string)
    (ts : list tile) :
  lowest ∈ L -> tiers_from L ts -> tiers_from L (assign_fallback sorted lowest ts).
Proof.
  intros Hl. unfold assign_fallback.
  set (U := List.filter _ sorted). clearbody U. revert ts.
  induction U as [|k U IH]; intros ts H; simpl; [exact H|].
  apply IH, tiers_from_alter; assumption.
Qed.

Lemma sortedTiers_labels (cfg : config) (e : string * Q) :
  e ∈ sortedTiers cfg -> e.1 ∈ map fst (tier_percentiles cfg).
Proof.
  intros He. apply list_elem_of_In in He. apply list_elem_of_In, in_map.
  eapply Permutation_in; [apply (sort_by_perm snd Qle_bool)|exact He].
Qed.

Lemma assign_tiers_labels (ts : list tile) (W : list nat) (cfg : config) :
  tier_percentiles cfg <> [] ->
  tiers_from (map fst (tier_percentiles cfg)) ts ->
  labels_inv (map fst (tier_percentiles cfg))
    (mkWalk (fst (assign_tiers ts W cfg)) (snd (assign_tiers ts W cfg)) 0).
Proof.
  intros Hne Hts. set (L := map fst (tier_percentiles cfg)).
  unfold assign_tiers.
  set (sorted := sort_by (norm_key ts) Z.leb W).
  destruct (length sorted =? 0)%nat.
  { split; [exact Hts|]. split; [intros x Hx; inversion Hx|constructor]. }
  assert (Hw : labels_inv L (tier_walk sorted (length sorted) 0 (sortedTiers cfg)
                                (mkWalk ts [] 0))).
  { apply tier_walk_labels; [apply sortedTiers_labels|].
    split; [exact Hts|]. split; [intros x Hx; inversion Hx|constructor]. }
  assert (Hlow : match sortedTiers cfg with (l, _) :: _ => l | [] => "F"%string end ∈ L).
  { destruct (sortedTiers cfg) as [|[l p] rest] eqn:Es.
    - exfalso. apply Hne. apply Permutation_nil. rewrite <- Es.
      apply (sort_by_perm snd Qle_bool).
    - apply (sortedTiers_labels cfg (l, p)). rewrite Es. left. }
  destruct Hw as (H1 & H2 & H3). simpl.
  split; [|split; assumption].
  apply tiers_from_fallback; assumption.
Qed.

Lemma pre_tiers_no_tier (ts : list tile) (cfg : config) (L : list string) :
  tiers_from L (pre_tiers ts cfg).
Proof.
  intros i t l Hi Ht. rewrite (pre_tiers_tier_none ts cfg i t Hi) in Ht. discriminate.
Qed.

(** ** Scores against the mean *)

Lemma fold_sum_const (f : nat -> Q) (w : Q) (W : list nat) (s : Q) :
  (forall k, k ∈ W -> f k == w)%Q ->
  (fold_left (fun sum i => sum + f i) W s == s + inject_Z (Z.of_nat (length W)) * w)%Q.
Proof.
  revert s; induction W as [|k W IH]; intros s Hf; simpl.
  - ring.
  - rewrite IH by (intros k' Hk'; apply Hf; right; exact Hk').
    rewrite (Hf k) by left. rewrite Nat2Z.inj_succ, <- Z.add_1_l, inject_Z_plus. ring.
Qed.

Lemma normalizeAndAssignTiers_drop (ts : list tile) (cfg : config) (i : nat) (t : tile) :
  pre_tiers ts cfg !! i = Some t ->
  exists t', fst (normalizeAndAssignTiers ts cfg) !! i = Some t' /\ drop_tier t' = drop_tier t.
Proof.
  intros Hp. destruct (normalizeAndAssignTiers_pre ts cfg) as [_ Heq]. rewrite Heq.
  destruct (workable_indices (pre_tiers ts cfg)) as [|w W'];
    [exists t; split; [exact Hp|reflexivity]|].
  destruct (tier_percentiles cfg); [exists t; split; [exact Hp|reflexivity]|].
  destruct (assign_tiers_upd (pre_tiers ts cfg) (w :: W') cfg) as [Hd _].
  destruct (map_eq_lookup drop_tier _ _ i t (eq_sym Hd) Hp) as [t' [Ht' E]].
  exists t'. split; [exact Ht'|symmetry; exact E].
Qed.

(** ** Scoring is monotone in the tile's yields and bonuses *)

Lemma calculateBalanceBonus_mono (f p f' p' : Q) (cfg : config) :
  (0 <= nullish (prop (scoring_bonuses cfg) "balance_factor") 1 ->
   f <= f' -> p <= p' ->
   calculateBalanceBonus f p cfg <= calculateBalanceBonus f' p' cfg)%Q.
Proof.
  unfold calculateBalanceBonus, Qltb.
  set (b := nullish (prop (scoring_bonuses cfg) "balance_factor") 1%Q). intros Hb Hf Hp.
  destruct (Qle_bool f 0) eqn:E1; destruct (Qle_bool p 0) eqn:E2;
  destruct (Qle_bool f' 0) eqn:E3; destruct (Qle_bool p' 0) eqn:E4; simpl;
  repeat match goal with
  | H : Qle_bool _ _ = true |- _ => apply Qle_bool_iff in H
  | H : Qle_bool _ _ = false |- _ =>
      apply Bool.not_true_iff_false in H; rewrite Qle_bool_iff in H;
      apply Qnot_le_lt in H
  end; try lra;
  first
    [ apply Qmult_le_compat_r; [apply Q.min_le_compat; assumption|exact Hb]
    | apply Qmult_le_0_compat; [apply Q.min_glb; lra|exact Hb] ].
Qed.

(** ** Heatmap range and colour *)

Lemma range_ok_skip (seen : list tile) (acc : option Z * option Z) (t : tile) :
  (forall n, workable t = true -> normalized_score t = Some n -> False) ->
  range_ok seen acc -> range_ok (seen ++ [t]) acc.
Proof.
  intros Ht. destruct acc as [[m|] [M|]]; simpl; try tauto.
  - intros (Hle & [t1 [n1 (H1 & H2 & H3)]] & H). split; [exact Hle|]. split.
    + exists t1, n1. split; [apply elem_of_app; left; exact H1|auto].
    + intros t0 n0 H0 Hw0 Hn0. apply elem_of_app in H0. destruct H0 as [H0|H0]; [eauto|].
      apply list_elem_of_singleton in H0. subst t0. destruct (Ht n0 Hw0 Hn0).
  - intros H t0 n0 H0 Hw0 Hn0. apply elem_of_app in H0. destruct H0 as [H0|H0]; [eauto|].
    apply list_elem_of_singleton in H0. subst t0. exact (Ht n0 Hw0 Hn0).
Qed.

Lemma range_ok_step (seen : list tile) (acc : option Z * option Z) (t : tile) :
  range_ok seen acc -> range_ok (seen ++ [t]) (score_range_step acc t).
Proof.
  unfold score_range_step.
  destruct (workable t) eqn:Hw; [destruct (normalized_score t) as [n|] eqn:Hn|].
  - assert (Hin : t ∈ seen ++ [t]) by (apply elem_of_app; right; left).
    destruct acc as [[m|] [M|]]; simpl; try contradiction.
    + intros (Hle & _ & H). split; [lia|]. split; [exists t, n; auto|].
      intros t0 n0 Ht0 Hw0 Hn0. apply elem_of_app in Ht0. destruct Ht0 as [Ht0|Ht0].
      * specialize (H t0 n0 Ht0 Hw0 Hn0). lia.
      * apply list_elem_of_singleton in Ht0. subst t0. rewrite Hn in Hn0.
        injection Hn0 as <-. lia.
    + intros H. split; [lia|]. split; [exists t, n; auto|].
      intros t0 n0 Ht0 Hw0 Hn0. apply elem_of_app in Ht0. destruct Ht0 as [Ht0|Ht0].
      * destruct (H t0 n0 Ht0 Hw0 Hn0).
      * apply list_elem_of_singleton in Ht0. subst t0. rewrite Hn in Hn0.
        injection Hn0 as <-. lia.
  - apply range_ok_skip. intros n0 _ Hn0. congruence.
  - apply range_ok_skip. intros n0 Hw0 _. congruence.
Qed.

Lemma range_ok_fold (l seen : list tile) (acc : option Z * option Z) :
  range_ok seen acc -> range_ok (seen ++ l) (fold_left score_range_step l acc).
Proof.
  revert seen acc. induction l as [|t l IH]; intros seen acc H; simpl.
  - rewrite app_nil_r. exact H.
  - replace (seen ++ t :: l) with ((seen ++ [t]) ++ l) by (rewrite <- app_assoc; reflexivity).
    apply IH, range_ok_step, H.
Qed.

Lemma handleRecalculation_bounds (ts : list tile) (cfg : config) (range : Z * Z) :
  exists ts' mn mx,
    handleRecalculation (Some ts) cfg range = (Some ts', (mn, mx)) /\
    ts' = fst (normalizeAndAssignTiers ts cfg) /\
    mn < mx /\
    (forall t n, t ∈ ts' -> workable t = true -> normalized_score t = Some n ->
       mn <= n <= mx) /\
    ((forall t, t ∈ ts' -> workable t = true -> normalized_score t = None) ->
       (mn, mx) = (0, 100)).
Proof.
  unfold handleRecalculation, recalculateScoresAndTiers.
  destruct (normalizeAndAssignTiers ts cfg) as [ts' th]. cbn [fst].
  assert (Hr : range_ok ts' (fold_left score_range_step ts' (None, None))).
  { apply (range_ok_fold ts' []). intros t n Ht. inversion Ht. }
  destruct (fold_left score_range_step ts' (None, None)) as [[m|] [M|]];
    simpl in Hr; try contradiction.
  - destruct Hr as (Hle & [t1 [n1 (H1 & H2 & H3)]] & Hb).
    unfold setMinMaxScores. cbn [nullish].
    destruct (Z.eqb_spec m M) as [<-|Hne].
    + exists ts', m, (m + 1). split; [reflexivity|]. split; [reflexivity|].
      split; [lia|]. split.
      * intros t n Ht Hw Hn. specialize (Hb t n Ht Hw Hn). lia.
      * intros Hnone. rewrite (Hnone t1 H1 H2) in H3. discriminate.
    + exists ts', m, M. split; [reflexivity|]. split; [reflexivity|].
      split; [lia|]. split; [exact Hb|].
      intros Hnone. rewrite (Hnone t1 H1 H2) in H3. discriminate.
  - exists ts', 0, 100. split; [reflexivity|]. split; [reflexivity|].
    split; [lia|]. split; [|reflexivity].
    intros t n Ht Hw Hn. destruct (Hr t n Ht Hw Hn).
Qed.

Lemma Qfloor_bounds (x : Q) :
  (inject_Z (Qfloor x) <= x /\ x < inject_Z (Qfloor x) + 1)%Q.
Proof.
  split; [apply Qfloor_le|]. pose proof (Qlt_floor x) as H.
  rewrite inject_Z_plus in H. exact H.
Qed.

Lemma clamp01_bounds (r : Q) : (0 <= Qmax 0 (Qmin 1 r) <= 1)%Q.
Proof.
  split; [apply Q.le_max_l|]. apply Q.max_lub; [lra|apply Q.le_min_l].
Qed.

(** ** Strings: splitting, joining and searching *)

Lemma str_includes_char_cons (c a : ascii) (s : string) :
  str_includes (String a s) (String c EmptyString)
  = Ascii.eqb c a || str_includes s (String c EmptyString).
Proof.
  simpl. destruct (ascii_dec c a) as [->|Hne]; [rewrite Ascii.eqb_refl; destruct s; reflexivity|].
  destruct (Ascii.eqb_spec c a); [contradiction|reflexivity].
Qed.

Lemma str_includes_char_empty (c : ascii) :
  str_includes EmptyString (String c EmptyString) = false.
Proof. reflexivity. Qed.

Lemma str_includes_char_app (c : ascii) (s1 s2 : string) :
  str_includes (String.append s1 s2) (String c EmptyString)
  = str_includes s1 (String c EmptyString) || str_includes s2 (String c EmptyString).
Proof.
  induction s1 as [|a s1 IH]; [reflexivity|].
  change (String.append (String a s1) s2) with (String a (String.append s1 s2)).
  rewrite !str_includes_char_cons, IH. apply Bool.orb_assoc.
Qed.

Lemma ascii_to_lower_underscore (a : ascii) :
  ascii_to_lower a = "_"%char -> a = "_"%char.
Proof.
  intros H. destruct a as [[] [] [] [] [] [] [] []];
    first [reflexivity | vm_compute in H; discriminate H].
Qed.

Lemma to_lower_no_underscore (s : string) :
  str_includes s "_" = false -> str_includes (to_lower s) "_" = false.
Proof.
  induction s as [|a s IH]; [reflexivity|]. simpl to_lower.
  rewrite !str_includes_char_cons. intros H.
  apply Bool.orb_false_iff in H as [Ha Hs]. rewrite IH by exact Hs.
  rewrite Bool.orb_false_r. apply Bool.not_true_iff_false. intros Heq.
  apply Ascii.eqb_eq in Heq. symmetry in Heq. apply ascii_to_lower_underscore in Heq.
  subst a. rewrite Ascii.eqb_refl in Ha. discriminate.
Qed.

Lemma str_split_no_sep (sep : ascii) (s : string) (w : string) :
  w ∈ str_split sep s -> str_includes w (String sep EmptyString) = false.
Proof.
  revert w. induction s as [|a s IH]; intros w Hw; simpl in Hw.
  - apply list_elem_of_singleton in Hw. subst w. reflexivity.
  - destruct (Ascii.eqb a sep) eqn:Ea.
    + apply elem_of_cons in Hw. destruct Hw as [->|Hw]; [reflexivity|]. apply IH, Hw.
    + destruct (str_split sep s) as [|w0 ws] eqn:Es.
      * apply list_elem_of_singleton in Hw. subst w.
        rewrite str_includes_char_cons, str_includes_char_empty, Bool.orb_false_r.
        apply Bool.not_true_iff_false. intros Heq. apply Ascii.eqb_eq in Heq. subst.
        rewrite Ascii.eqb_refl in Ea. discriminate.
      * apply elem_of_cons in Hw. destruct Hw as [->|Hw].
        -- rewrite str_includes_char_cons, IH by left. apply Bool.orb_false_iff.
           split; [|reflexivity]. apply Bool.not_true_iff_false. intros Heq.
           apply Ascii.eqb_eq in Heq. subst. rewrite Ascii.eqb_refl in Ea. discriminate.
        -- apply IH. right. exact Hw.
Qed.

Lemma array_join_no_char (c : ascii) (sep : string) (ws : list string) :
  str_includes sep (String c EmptyString) = false ->
  (forall w, w ∈ ws -> str_includes w (String c EmptyString) = false) ->
  str_includes (array_join sep ws) (String c EmptyString) = false.
Proof.
  intros Hsep. induction ws as [|w ws IH]; intros Hw; [reflexivity|].
  destruct ws as [|w' ws'].
  - apply Hw. left.
  - change (array_join sep (w :: w' :: ws'))
      with (String.append w (String.append sep (array_join sep (w' :: ws')))).
    rewrite !str_includes_char_app, Hsep. rewrite (Hw w) by left.
    rewrite IH; [reflexivity|]. intros x Hx. apply Hw. right. exact Hx.
Qed.

Lemma format_key_no_underscore (pattern s : string) :
  str_includes (format_key pattern s) "_" = false.
Proof.
  unfold format_key. apply array_join_no_char; [reflexivity|].
  intros w Hw. apply list_elem_of_In, in_map_iff in Hw. destruct Hw as [w0 [<- Hw0]].
  apply list_elem_of_In in Hw0. apply str_split_no_sep in Hw0.
  destruct w0 as [|a w0]; [reflexivity|]. simpl capitalize_word.
  rewrite str_includes_char_cons in Hw0 |- *. apply Bool.orb_false_iff in Hw0 as [Ha Hw0].
  rewrite Ha. apply to_lower_no_underscore, Hw0.
Qed.

Lemma append_cons (a : ascii) (s1 s2 : string) :
  String.append (String a s1) s2 = String a (String.append s1 s2).
Proof. reflexivity. Qed.

Lemma append_nil (s : string) : String.append EmptyString s = s.
Proof. reflexivity. Qed.

Lemma append_empty_r (s : string) : String.append s EmptyString = s.
Proof. induction s as [|a s IH]; [reflexivity|]. rewrite append_cons, IH. reflexivity. Qed.

Lemma prefix_append (p s : string) : String.prefix p (String.append p s) = true.
Proof.
  induction p as [|a p IH]; [destruct s; reflexivity|]. rewrite append_cons. simpl.
  destruct (ascii_dec a a) as [_|Hne]; [exact IH|contradiction].
Qed.

Lemma substring_all (s : string) (m : nat) :
  (String.length s <= m)%nat -> substring 0 m s = s.
Proof.
  revert m. induction s as [|a s IH]; intros m Hm; [destruct m; reflexivity|].
  destruct m as [|m]; [simpl in Hm; lia|]. simpl. rewrite IH by (simpl in Hm; lia).
  reflexivity.
Qed.

Lemma substring_append (p s : string) (m : nat) :
  (String.length s <= m)%nat ->
  substring (String.length p) m (String.append p s) = s.
Proof.
  induction p as [|a p IH]; intros Hm; [apply substring_all, Hm|].
  rewrite append_cons. simpl. apply IH, Hm.
Qed.

Lemma str_length_append (s1 s2 : string) :
  String.length (String.append s1 s2) = (String.length s1 + String.length s2)%nat.
Proof.
  induction s1 as [|a s1 IH]; [reflexivity|]. rewrite append_cons. simpl. rewrite IH.
  reflexivity.
Qed.

Lemma replace_first_eq (p r s : string) :
  replace_first p r s =
  if String.prefix p s
  then String.append r (substring (String.length p) (String.length s) s)
  else match s with
       | EmptyString => EmptyString
       | String c s' => String c (replace_first p r s')
       end.
Proof. destruct s; reflexivity. Qed.

Lemma replace_first_prefix (p s : string) :
  replace_first p EmptyString (String.append p s) = s.
Proof.
  rewrite replace_first_eq, prefix_append, append_nil.
  apply substring_append. rewrite str_length_append. lia.
Qed.

Lemma str_split_app (sep : ascii) (w s h : string) (t : list string) :
  str_includes w (String sep EmptyString) = false ->
  str_split sep s = h :: t ->
  str_split sep (String.append w s) = String.append w h :: t.
Proof.
  revert h t. induction w as [|a w IH]; intros h t Hw Hs; [exact Hs|].
  rewrite str_includes_char_cons in Hw. apply Bool.orb_false_iff in Hw as [Ha Hw].
  change (String.append (String a w) s) with (String a (String.append w s)).
  simpl str_split. rewrite (IH h t Hw Hs).
  replace (Ascii.eqb a sep) with false; [reflexivity|].
  symmetry. apply Bool.not_true_iff_false. intros Heq. apply Ascii.eqb_eq in Heq.
  subst. rewrite Ascii.eqb_refl in Ha. discriminate.
Qed.

Lemma str_split_sep (sep : ascii) (s : string) :
  str_split sep (String sep s) = EmptyString :: str_split sep s.
Proof. simpl. rewrite Ascii.eqb_refl. reflexivity. Qed.

Lemma str_split_join (sep : ascii) (ws : list string) :
  ws <> [] ->
  (forall w, w ∈ ws -> str_includes w (String sep EmptyString) = false) ->
  str_split sep (array_join (String sep EmptyString) ws) = ws.
Proof.
  induction ws as [|w ws IH]; intros Hne Hw; [contradiction|].
  destruct ws as [|w' ws'].
  - simpl array_join. rewrite <- (append_empty_r w) at 1.
    rewrite (str_split_app sep w EmptyString EmptyString []) by
      (try (apply Hw; left); reflexivity).
    rewrite append_empty_r. reflexivity.
  - change (array_join (String sep EmptyString) (w :: w' :: ws'))
      with (String.append w (String sep (array_join (String sep EmptyString) (w' :: ws')))).
    rewrite (str_split_app sep w _ EmptyString (w' :: ws')).
    + rewrite append_empty_r. reflexivity.
    + apply Hw. left.
    + rewrite str_split_sep, IH; [reflexivity|discriminate|].
      intros x Hx. apply Hw. right. exact Hx.
Qed.

(** ** Display, angles and pointer coordinates *)

Lemma normalizeAndAssignTiers_cover (ts : list tile) (cfg : config) :
  tier_percentiles cfg <> [] -> tiers_cover ts (fst (normalizeAndAssignTiers ts cfg)).
Proof.
  intros Hne.
  destruct (normalizeAndAssignTiers_shape ts cfg) as (tiles2 & Hlen & H2 & Hupd & Hcov).
  destruct (normalizeAndAssignTiers ts cfg) as [ts1 th1] eqn:E. simpl in Hupd, Hcov |- *.
  split; [rewrite (tier_upd_length _ _ _ Hupd); exact Hlen|].
  intros i t Ht. destruct (H2 i t Ht) as (t2 & Ht2 & Htier & Hwk & Hmark).
  destruct Hupd as [Hdrop Hout].
  destruct (map_eq_lookup drop_tier tiles2 ts1 i t2 (eq_sym Hdrop) Ht2)
    as [t' [Ht' Hd]].
  exists t'. split; [exact Ht'|]. split.
  - intros Hoi. rewrite Hoi in Hwk. apply drop_tier_fields in Hd.
    destruct Hd as [Hw' _].
    split; [rewrite <- Hw'; exact Hwk|].
    assert (Hk : i ∈ workable_indices tiles2).
    { apply workable_indices_elem. exists t2. split; [exact Ht2|].
      unfold workable. rewrite Hwk. reflexivity. }
    destruct (Hcov Hne i Hk) as [l Hl]. unfold tier_of in Hl.
    rewrite Ht' in Hl. simpl in Hl. exists l; exact Hl.
  - intros Hoi.
    assert (Hk : i ∉ workable_indices tiles2).
    { rewrite workable_indices_elem. intros [t3 [Ht3 Hw3]].
      rewrite Ht2 in Ht3. injection Ht3 as <-. unfold workable in Hw3.
      rewrite Hwk, Hoi in Hw3. discriminate. }
    rewrite (Hout i Hk), Ht2 in Ht'. injection Ht' as <-. rewrite (Hmark Hoi).
    pose proof (mark_tile_fields cfg t) as (_ & Hiw & Hws & Htr & Hn).
    rewrite Hiw, Hws, Htr, (Hn Hoi), Hoi, (ocean_or_ice_score cfg t Hoi).
    auto.
Qed.

Lemma normalizeAndAssignTiers_tier_labels (ts : list tile) (cfg : config) :
  forall i t l, fst (normalizeAndAssignTiers ts cfg) !! i = Some t ->
    tier t = Some l -> l ∈ map fst (tier_percentiles cfg).
Proof.
  destruct (normalizeAndAssignTiers_pre ts cfg) as [_ Heq]. rewrite Heq.
  pose proof (pre_tiers_no_tier ts cfg (map fst (tier_percentiles cfg))) as Hp.
  destruct (workable_indices (pre_tiers ts cfg)) as [|w W']; [exact Hp|].
  destruct (tier_percentiles cfg) as [|e T'] eqn:ET; [exact Hp|].
  rewrite <- ET in Hp |- *.
  destruct (assign_tiers_labels (pre_tiers ts cfg) (w :: W') cfg) as (H1 & _ & _).
  { rewrite ET. discriminate. }
  { exact Hp. }
  exact H1.
Qed.

Lemma updateMapDisplay_hex_visible (dc : display_config) (n : nat) (mn mx : option Q)
    (ef rnd : Q) (hv : bool) (prev : Z * Q) (t : tile) :
  hv_visible (updateMapDisplay_hex dc n mn mx ef rnd hv prev t)
  = negb (nullish (is_workable t) (negb (isOceanOrCoast t)) && negb (tier_selected dc t)).
Proof.
  unfold updateMapDisplay_hex.
  destruct (nullish (is_workable t) (negb (isOceanOrCoast t)));
  destruct (tier_selected dc t); destruct (showScoreHeatmap dc);
  destruct (length (selectedTiers dc) <? length tierStyles_keys)%nat;
  destruct (highlightTopTiles dc);
  destruct (match tier t with Some l => _ | None => false end); reflexivity.
Qed.

Lemma tier_selected_intro (dc : display_config) (t : tile) (l : string) :
  tier t = Some l -> l <> ""%string -> l ∈ selectedTiers dc -> tier_selected dc t = true.
Proof.
  intros Ht Hne Hin. unfold tier_selected. rewrite Ht.
  apply andb_true_intro. split.
  - apply negb_true_iff, String.eqb_neq, Hne.
  - apply existsb_exists. exists l. split; [apply list_elem_of_In, Hin|apply String.eqb_refl].
Qed.

Lemma js_mod_nonneg (a b : Q) :
  (0 < b)%Q -> (0 <= a)%Q -> (0 <= js_mod a b < b)%Q.
Proof.
  intros Hb Ha. unfold js_mod.
  set (q := (a / b)%Q).
  assert (Hq : (a == q * b)%Q) by (unfold q; field; lra).
  assert (Hq0 : (0 <= q)%Q) by (clearbody q; nra).
  unfold js_trunc. replace (Qltb q 0) with false
    by (unfold Qltb; symmetry; apply negb_false_iff, Qle_bool_iff; exact Hq0).
  pose proof (Qfloor_le q) as H1. pose proof (Qlt_floor q) as H2.
  rewrite inject_Z_plus in H2. change (inject_Z 1) with 1%Q in H2.
  set (F := inject_Z (Qfloor q)) in *. rewrite Hq. split; nra.
Qed.

Lemma js_mod_neg (a b : Q) :
  (0 < b)%Q -> (a < 0)%Q -> (- b < js_mod a b <= 0)%Q.
Proof.
  intros Hb Ha. unfold js_mod.
  set (q := (a / b)%Q).
  assert (Hq : (a == q * b)%Q) by (unfold q; field; lra).
  assert (Hq0 : (q < 0)%Q) by (clearbody q; nra).
  unfold js_trunc. replace (Qltb q 0) with true
    by (unfold Qltb; symmetry; apply negb_true_iff, Bool.not_true_iff_false;
        rewrite Qle_bool_iff; lra).
  pose proof (Qle_ceiling q) as H1. pose proof (Qceiling_lt q) as H2.
  unfold Z.sub in H2. rewrite inject_Z_plus, inject_Z_opp in H2.
  change (inject_Z 1) with 1%Q in H2.
  set (C := inject_Z (Qceiling q)) in *. rewrite Hq. split; nra.
Qed.

(** ** Configuration updates *)

Lemma prop_set_prop_eq {A} (fs : list (string * A)) (k : string) (v : A) :
  prop (set_prop fs k v) k = Some v.
Proof.
  induction fs as [|[k' v'] fs IH]; simpl.
  - rewrite String.eqb_refl. reflexivity.
  - destruct (String.eqb_spec k' k) as [->|Hne]; simpl.
    + rewrite String.eqb_refl. reflexivity.
    + apply String.eqb_neq in Hne. rewrite Hne. exact IH.
Qed.

Lemma prop_set_prop_ne {A} (fs : list (string * A)) (k k' : string) (v : A) :
  k' <> k -> prop (set_prop fs k v) k' = prop fs k'.
Proof.
  intros Hne. induction fs as [|[k0 v0] fs IH]; simpl.
  - apply not_eq_sym, String.eqb_neq in Hne. rewrite Hne. reflexivity.
  - destruct (String.eqb_spec k0 k) as [->|H0]; simpl.
    + apply not_eq_sym, String.eqb_neq in Hne. rewrite Hne. reflexivity.
    + destruct (String.eqb k0 k'); [reflexivity|exact IH].
Qed.

Lemma str_split_not_nil (sep : ascii) (s : string) : str_split sep s <> [].
Proof.
  destruct s as [|c s]; simpl; [discriminate|].
  destruct (Ascii.eqb c sep); [discriminate|].
  destruct (str_split sep s); discriminate.
Qed.

Lemma set_path_roundtrip (keys : list string) (cur value c : jval) :
  set_path cur keys value = ConfigSet c -> jpath c keys = Some value.
Proof.
  revert cur c. induction keys as [|k ks IH]; intros cur c H; [discriminate|].
  destruct ks as [|k2 ks].
  - destruct cur; try discriminate. injection H as <-. simpl.
    rewrite prop_set_prop_eq. reflexivity.
  - destruct cur as [| | | | |fs]; try discriminate.
    change (set_path (JObj fs) (k :: k2 :: ks) value) with
      (match prop fs k with
       | None => ConfigKept
       | Some child =>
           match set_path child (k2 :: ks) value with
           | ConfigSet c => ConfigSet (JObj (set_prop fs k c))
           | r => r
           end
       end) in H.
    destruct (prop fs k) as [child|]; [|discriminate].
    destruct (set_path child (k2 :: ks) value) as [c'| |] eqn:E; try discriminate.
    injection H as <-.
    change (jpath (JObj (set_prop fs k c')) (k :: k2 :: ks))
      with (match prop (set_prop fs k c') k with
            | Some c => jpath c (k2 :: ks) | None => None end).
    rewrite prop_set_prop_eq. exact (IH child c' E).
Qed.

Lemma set_path_success (keys : list string) (cur value : jval) (fs : list (string * jval)) :
  keys <> [] -> jpath cur (removelast keys) = Some (JObj fs) ->
  exists c, set_path cur keys value = ConfigSet c.
Proof.
  revert cur. induction keys as [|k ks IH]; intros cur Hne H; [contradiction|].
  destruct ks as [|k2 ks].
  - simpl in H. injection H as ->. eexists. reflexivity.
  - change (removelast (k :: k2 :: ks)) with (k :: removelast (k2 :: ks)) in H.
    destruct cur as [| | | | |fs0]; try discriminate.
    simpl in H. destruct (prop fs0 k) as [child|] eqn:Ek; [|discriminate].
    destruct (IH child ltac:(discriminate) H) as [c' Hc'].
    exists (JObj (set_prop fs0 k c')).
    change (set_path (JObj fs0) (k :: k2 :: ks) value) with
      (match prop fs0 k with
       | None => ConfigKept
       | Some child =>
           match set_path child (k2 :: ks) value with
           | ConfigSet c => ConfigSet (JObj (set_prop fs0 k c))
           | r => r
           end
       end).
    rewrite Ek, Hc'. reflexivity.
Qed.

Lemma set_path_top (k : string) (ks : list string) (cur value c : jval) :
  set_path cur (k :: ks) value = ConfigSet c ->
  exists fs x, cur = JObj fs /\ c = JObj (set_prop fs k x).
Proof.
  intros H. destruct ks as [|k2 ks].
  - destruct cur as [| | | | |fs]; try discriminate. injection H as <-. eauto.
  - destruct cur as [| | | | |fs]; try discriminate.
    change (set_path (JObj fs) (k :: k2 :: ks) value) with
      (match prop fs k with
       | None => ConfigKept
       | Some child =>
           match set_path child (k2 :: ks) value with
           | ConfigSet c => ConfigSet (JObj (set_prop fs k c))
           | r => r
           end
       end) in H.
    destruct (prop fs k) as [child|]; [|discriminate].
    destruct (set_path child (k2 :: ks) value) as [c'| |]; try discriminate.
    injection H as <-. eauto.
Qed.

(** * Further properties of the code *)

(** The six direct neighbours of a coordinate are pairwise distinct and
    differ from it, and the even-row and odd-row offset tables agree with
    each other: [n] is a neighbour of [(q, r)] exactly when [(q, r)] is a
    neighbour of [n]. *)
Theorem getDirectNeighbors_symmetric (q r : Z) :
  length (getDirectNeighbors q r) = 6%nat /\
  NoDup ((q, r) :: getDirectNeighbors q r) /\
  (forall n, n ∈ getDirectNeighbors q r <-> (q, r) ∈ getDirectNeighbors n.1 n.2).
Proof.
  split; [|split; [apply center_nbrs_NoDup|]].
  - unfold getDirectNeighbors. rewrite length_map.
    unfold direct_offsets. destruct (Z.rem r 2 =? 0); reflexivity.
  - intros n. split; [apply (nbr_symm (q, r) n)|apply (nbr_symm n (q, r))].
Qed.

(** For a radius [>= 0], [getCoordsWithinRadius] returns exactly the
    coordinates reachable from the centre in at most [radius] steps between
    direct neighbours. *)
Theorem getCoordsWithinRadius_reach (q r radius : Z) (c : coord) :
  0 <= radius ->
  c ∈ getCoordsWithinRadius q r radius <-> within_steps (q, r) (Z.to_nat radius) c = true.
Proof.
  intros HR. destruct (getCoordsWithinRadius_spec q r radius HR) as [_ Helem].
  rewrite Helem, within_steps_dist, Z2Nat.id by exact HR. reflexivity.
Qed.

Lemma getCoordsWithinRadius_reach_witness :
  0 <= 2 /\
  ((3, 5) ∈ getCoordsWithinRadius 2 3 2 <-> within_steps (2, 3) (Z.to_nat 2) (3, 5) = true).
Proof. split; [lia|]. apply (getCoordsWithinRadius_reach 2 3 2 (3, 5)). lia. Defined.

(** [getNeighborCoords] returns nothing in debug mode; otherwise, for a
    hover radius [R >= 0], it returns [3 R (R + 1)] pairwise distinct
    coordinates: those reachable in at most [R] neighbour steps, without
    the centre. *)
Theorem getNeighborCoords_ring (dbg : bool) (hoverRadius q r : Z) :
  (dbg = true -> getNeighborCoords dbg hoverRadius q r = []) /\
  (dbg = false -> 0 <= hoverRadius ->
     NoDup (getNeighborCoords dbg hoverRadius q r) /\
     Z.of_nat (length (getNeighborCoords dbg hoverRadius q r))
       = 3 * hoverRadius * (hoverRadius + 1) /\
     forall c, c ∈ getNeighborCoords dbg hoverRadius q r
       <-> c <> (q, r) /\ within_steps (q, r) (Z.to_nat hoverRadius) c = true).
Proof.
  split; [intros ->; reflexivity|]. intros -> HR.
  destruct (getCoordsWithinRadius_spec q r hoverRadius HR) as [Hnd Helem].
  assert (Hc : (q, r) ∈ getCoordsWithinRadius q r hoverRadius).
  { apply Helem. assert (hex_dist (q, r) (q, r) = 0) by (apply hex_dist_zero; reflexivity). lia. }
  split; [|split; [|intros c; apply getNeighborCoords_elem, HR]].
  - unfold getNeighborCoords. apply NoDup_ListNoDup, List.NoDup_filter, NoDup_ListNoDup, Hnd.
  - unfold getNeighborCoords. rewrite (filter_remove_one _ (q, r) _ Hnd Hc).
    + pose proof (getCoordsWithinRadius_length q r hoverRadius HR) as HL.
      destruct (getCoordsWithinRadius q r hoverRadius); [inversion Hc|].
      simpl length in *. lia.
    + intros [a b]. cbn [fst snd]. rewrite negb_false_iff, andb_true_iff, !Z.eqb_eq.
      split; [intros [-> ->]; reflexivity|intros E; injection E as -> ->; auto].
Qed.

(** Outside debug mode and for a hover radius [R >= 0], a handle is in
    [getNeighborHexagons] exactly when the map stores it under a
    coordinate other than the centre, reachable in at most [R] neighbour
    steps; a hexagon without coordinates, or debug mode, gives nothing. *)
Theorem getNeighborHexagons_elem (dbg : bool) (hoverRadius : Z)
    (hexagonCoordMap : gmap coord nat) (q r : Z) (h : nat) :
  getNeighborHexagons dbg hoverRadius hexagonCoordMap None = [] /\
  (dbg = true -> getNeighborHexagons dbg hoverRadius hexagonCoordMap (Some (q, r)) = []) /\
  (dbg = false -> 0 <= hoverRadius ->
     (h ∈ getNeighborHexagons dbg hoverRadius hexagonCoordMap (Some (q, r))
      <-> exists c, c <> (q, r) /\ within_steps (q, r) (Z.to_nat hoverRadius) c = true /\
                    hexagonCoordMap !! c = Some h)).
Proof.
  split; [reflexivity|]. split; [intros ->; reflexivity|]. intros -> HR.
  unfold getNeighborHexagons. rewrite fold_push_handles. split.
  - intros [H|[x [Hx Hm]]]; [inversion H|].
    apply getNeighborCoords_elem in Hx; [|exact HR]. destruct Hx as [H1 H2].
    exists x. auto.
  - intros [x (H1 & H2 & Hm)]. right. exists x. split; [|exact Hm].
    apply getNeighborCoords_elem; [exact HR|]. auto.
Qed.

Lemma gset_partition (V W : gset nat) : W ⊆ V -> V = W ∪ (V ∖ W) /\ W ## V ∖ W.
Proof.
  intros H. split.
  - apply set_eq. intros x. rewrite elem_of_union, elem_of_difference. split.
    + intros Hx. destruct (decide (x ∈ W)); [left|right]; auto.
    + intros [Hx|[Hx _]]; [apply H|]; exact Hx.
  - intros x Hx Hx'. apply elem_of_difference in Hx'. destruct Hx' as [_ Hx']. exact (Hx' Hx).
Qed.

(** Entering debug mode splits the visible set into the workable set and
    the outer ring, which are disjoint; when the clicked hexagon has a
    coordinate, the workable set holds exactly the handles stored within 3
    neighbour steps of it and the visible set those within 4. *)
Theorem enterDebugMode_partition (env : click_env) (st : debug_state) (centerHex : nat) :
  debugModeVisibleSet (enterDebugMode env st centerHex)
    = debugModeWorkableSet (enterDebugMode env st centerHex)
      ∪ debugModeOuterRingSet (enterDebugMode env st centerHex) /\
  debugModeWorkableSet (enterDebugMode env st centerHex)
    ## debugModeOuterRingSet (enterDebugMode env st centerHex) /\
  (forall q r h, hex_coord env centerHex = Some (q, r) ->
     (h ∈ debugModeWorkableSet (enterDebugMode env st centerHex)
      <-> exists c, within_steps (q, r) 3 c = true /\ hexagonCoordMap env !! c = Some h) /\
     (h ∈ debugModeVisibleSet (enterDebugMode env st centerHex)
      <-> exists c, within_steps (q, r) 4 c = true /\ hexagonCoordMap env !! c = Some h)).
Proof.
  unfold enterDebugMode. cbn [debugModeVisibleSet debugModeWorkableSet debugModeOuterRingSet].
  assert (Hreach : forall q r radius h, 0 <= radius ->
            h ∈ getHexagonsWithinRadius (hexagonCoordMap env) (Some (q, r)) radius
            <-> exists c, within_steps (q, r) (Z.to_nat radius) c = true
                          /\ hexagonCoordMap env !! c = Some h).
  { intros q r radius h HR. rewrite getHexagonsWithinRadius_elem.
    destruct (getCoordsWithinRadius_spec q r radius HR) as [_ Helem].
    split; intros [c [Hc Hm]]; exists c; (split; [|exact Hm]).
    - rewrite within_steps_dist, Z2Nat.id by exact HR. apply Helem, Hc.
    - apply Helem. rewrite within_steps_dist, Z2Nat.id in Hc by exact HR. exact Hc. }
  assert (Hsub : getHexagonsWithinRadius (hexagonCoordMap env) (hex_coord env centerHex)
                   DEBUG_WORKABLE_RADIUS
                 ⊆ getHexagonsWithinRadius (hexagonCoordMap env) (hex_coord env centerHex)
                   (DEBUG_WORKABLE_RADIUS + 1)).
  { destruct (hex_coord env centerHex) as [[q r]|]; [|unfold getHexagonsWithinRadius; apply empty_subseteq].
    intros h. unfold DEBUG_WORKABLE_RADIUS. rewrite !Hreach by lia.
    intros [c [Hc Hm]]. exists c. split; [|exact Hm].
    rewrite within_steps_dist in *. simpl Z.to_nat in *. lia. }
  destruct (gset_partition _ _ Hsub) as [E D].
  split; [exact E|]. split; [exact D|].
  intros q r h Hc. rewrite Hc. unfold DEBUG_WORKABLE_RADIUS.
  rewrite !Hreach by lia. split; reflexivity.
Qed.

(** A click on a hexagon that enters debug mode, followed by the Escape
    key, brings the debug state back to the idle state; any other key
    leaves debug mode active and the state unchanged. *)
Theorem onEscapeKey_after_click (env : click_env) (st : debug_state) (h : nat) :
  isDebugModeEnabled env = true -> scene_ready env = true -> first_hit env = Some h ->
  isDebugModeActive st = false ->
  isDebugModeActive (onCanvasClick env st) = true /\
  debugModeCenterHex (onCanvasClick env st) = Some h /\
  onEscapeKey "Escape" (onCanvasClick env st) = idle_state /\
  (forall key, key <> "Escape"%string ->
     onEscapeKey key (onCanvasClick env st) = onCanvasClick env st).
Proof.
  intros Hen Hready Hhit Hact. unfold onCanvasClick. rewrite Hen, Hact, Hready, Hhit.
  cbn [negb orb]. unfold enterDebugMode at 1 2.
  cbn [isDebugModeActive debugModeCenterHex].
  split; [reflexivity|]. split; [reflexivity|]. split.
  - unfold onEscapeKey, exitDebugMode. unfold enterDebugMode.
    cbn [isDebugModeActive String.eqb andb negb]. reflexivity.
  - intros key Hkey. unfold onEscapeKey. apply String.eqb_neq in Hkey. rewrite Hkey. reflexivity.
Qed.

Lemma onEscapeKey_after_click_witness :
  isDebugModeEnabled (sample_env 40) = true /\ scene_ready (sample_env 40) = true /\
  first_hit (sample_env 40) = Some 40%nat /\ isDebugModeActive idle_state = false /\
  (isDebugModeActive (onCanvasClick (sample_env 40) idle_state) = true /\
   debugModeCenterHex (onCanvasClick (sample_env 40) idle_state) = Some 40%nat /\
   onEscapeKey "Escape" (onCanvasClick (sample_env 40) idle_state) = idle_state /\
   (forall key, key <> "Escape"%string ->
      onEscapeKey key (onCanvasClick (sample_env 40) idle_state)
      = onCanvasClick (sample_env 40) idle_state)).
Proof.
  refine (conj eq_refl (conj eq_refl (conj eq_refl (conj eq_refl _)))).
  apply (onEscapeKey_after_click (sample_env 40) idle_state 40); reflexivity.
Defined.

(** [easeOutQuad] maps [0] to [0] and [1] to [1], and on [[0, 1]] it is
    non-decreasing with values in [[0, 1]]. *)
Theorem easeOutQuad_unit :
  (easeOutQuad 0 == 0 /\ easeOutQuad 1 == 1)%Q /\
  forall t t', (0 <= t -> t <= t' -> t' <= 1 ->
    0 <= easeOutQuad t /\ easeOutQuad t <= easeOutQuad t' /\ easeOutQuad t' <= 1)%Q.
Proof.
  unfold easeOutQuad. split; [split; reflexivity|].
  intros t t' H0 H1 H2. split; [nra|]. split; nra.
Qed.

(** [smoothStep] maps [0] to [0] and [1] to [1], and on [[0, 1]] it is
    non-decreasing with values in [[0, 1]]. *)
Theorem smoothStep_unit :
  (smoothStep 0 == 0 /\ smoothStep 1 == 1)%Q /\
  forall x y, (0 <= x -> x <= y -> y <= 1 ->
    0 <= smoothStep x /\ smoothStep x <= smoothStep y /\ smoothStep y <= 1)%Q.
Proof.
  unfold smoothStep. split; [split; reflexivity|].
  intros x y H0 H1 H2. split; [|split].
  - assert (0 <= x * x)%Q by nra. nra.
  - assert (0 <= 3 * (x + y) - 2 * (x * x + x * y + y * y))%Q by nra.
    assert (0 <= (y - x) * (3 * (x + y) - 2 * (x * x + x * y + y * y)))%Q
      by (apply Qmult_le_0_compat; lra).
    nra.
  - assert (0 <= (1 - y) * (1 - y))%Q by nra.
    assert (0 <= (1 - y) * (1 - y) * (1 + 2 * y))%Q by (apply Qmult_le_0_compat; lra).
    nra.
Qed.

(** Tier labels come from the percentile table: after
    [normalizeAndAssignTiers] every tier carried by a tile is a label of
    [config.tier_percentiles], and the returned [scoreThresholds] are keyed
    by distinct labels of the table. *)
Theorem normalizeAndAssignTiers_labels (ts : list tile) (cfg : config) :
  (forall i t l, fst (normalizeAndAssignTiers ts cfg) !! i = Some t ->
     tier t = Some l -> l ∈ map fst (tier_percentiles cfg)) /\
  NoDup (map fst (snd (normalizeAndAssignTiers ts cfg))) /\
  (forall x, x ∈ map fst (snd (normalizeAndAssignTiers ts cfg)) ->
     x ∈ map fst (tier_percentiles cfg)).
Proof.
  destruct (normalizeAndAssignTiers_pre ts cfg) as [_ Heq]. rewrite Heq.
  pose proof (pre_tiers_no_tier ts cfg (map fst (tier_percentiles cfg))) as Hp.
  destruct (workable_indices (pre_tiers ts cfg)) as [|w W'].
  { split; [exact Hp|]. split; [constructor|intros x Hx; inversion Hx]. }
  destruct (tier_percentiles cfg) as [|e T'] eqn:ET.
  { split; [exact Hp|]. split; [constructor|intros x Hx; inversion Hx]. }
  rewrite <- ET in Hp |- *.
  destruct (assign_tiers_labels (pre_tiers ts cfg) (w :: W') cfg) as (H1 & H2 & H3).
  { rewrite ET. discriminate. }
  { exact Hp. }
  split; [exact H1|]. split; [exact H3|exact H2].
Qed.

(** When every workable tile (not open ocean, no ice) has the same
    positive weighted score, [normalizeAndAssignTiers] gives each of them
    [normalized_score = 100]. *)
Theorem normalizeAndAssignTiers_uniform (ts : list tile) (cfg : config) (w : Q)
    (i : nat) (t : tile) :
  (0 < w)%Q ->
  (forall t0, t0 ∈ ts -> ocean_or_ice t0 = false ->
     calculateWeightedTileScore t0 cfg == w)%Q ->
  ts !! i = Some t -> ocean_or_ice t = false ->
  exists t', fst (normalizeAndAssignTiers ts cfg) !! i = Some t' /\
    normalized_score t' = Some 100.
Proof.
  intros Hw Hall Ht Hoi.
  set (tiles1 := map (mark_tile cfg) ts).
  set (W := workable_indices tiles1).
  assert (H1 : tiles1 !! i = Some (mark_tile cfg t))
    by (unfold tiles1; rewrite lookup_map, Ht; reflexivity).
  pose proof (mark_tile_fields cfg t) as (Hwk & _ & Hws & _ & _).
  rewrite Hoi in Hwk. simpl in Hwk.
  assert (HiW : i ∈ W) by (apply workable_indices_elem; eauto).
  assert (Hsum : (totalWeightedScore tiles1 W
                  == 0 + inject_Z (Z.of_nat (length W)) * w)%Q).
  { apply fold_sum_const. intros k Hk.
    apply workable_indices_elem in Hk. destruct Hk as [tk [Hk Hwk']].
    unfold tiles1 in Hk. rewrite lookup_map in Hk.
    destruct (ts !! k) as [t0|] eqn:E0; simpl in Hk; [|discriminate].
    injection Hk as <-. unfold weighted_at.
    replace (tiles1 !! k) with (Some (mark_tile cfg t0))
      by (unfold tiles1; rewrite lookup_map, E0; reflexivity).
    change (nullish (weighted_score (mark_tile cfg t0)) 0 == w)%Q.
    pose proof (mark_tile_fields cfg t0) as (Hwk0 & _ & Hws0 & _ & _).
    rewrite Hws0. change (calculateWeightedTileScore t0 cfg == w)%Q. apply Hall.
    - apply list_elem_of_lookup_2 in E0. exact E0.
    - rewrite Hwk0 in Hwk'. destruct (ocean_or_ice t0); [discriminate|reflexivity]. }
  assert (Hlen : (0 < length W)%nat).
  { destruct W; [inversion HiW|simpl; lia]. }
  assert (Havg : (avgScore_of ts cfg == w)%Q).
  { unfold avgScore_of. fold tiles1. fold W. rewrite Hsum.
    assert (Hn : (~ inject_Z (Z.of_nat (length W)) == 0)%Q).
    { unfold Qeq. simpl. lia. }
    field. exact Hn. }
  pose proof (pre_tiers_lookup ts cfg i t Ht) as Hp.
  fold tiles1 in Hp. fold W in Hp.
  destruct W as [|w0 W'] eqn:EW; [inversion HiW|].
  rewrite Hwk, Hws in Hp. simpl in Hp.
  assert (Hb : Qeq_bool (avgScore_of ts cfg) 0 = false).
  { apply Bool.not_true_iff_false. intros Hq. apply Qeq_bool_iff in Hq. lra. }
  rewrite Hb in Hp.
  assert (Hr : js_round (calculateWeightedTileScore t cfg / avgScore_of ts cfg * 100) = 100).
  { unfold js_round.
    assert (Hq : (calculateWeightedTileScore t cfg / avgScore_of ts cfg * 100 + (1 # 2)
                  == 100 + (1 # 2))%Q).
    { rewrite (Hall t) by (try apply list_elem_of_lookup_2 in Ht; assumption).
      rewrite Havg. field. lra. }
    rewrite Hq. reflexivity. }
  rewrite Hr in Hp.
  destruct (normalizeAndAssignTiers_drop ts cfg i _ Hp) as [t' [Ht' Hd]].
  exists t'. split; [exact Ht'|].
  apply drop_tier_fields in Hd. destruct Hd as (_ & _ & _ & Hn). rewrite Hn.
  apply set_normalized_fields.
Qed.

Lemma normalizeAndAssignTiers_uniform_witness :
  exists t', fst (normalizeAndAssignTiers
                    [land 0 0 2 2 0; ocean 1 0; land 2 0 2 2 0] sample_config)
               !! 2%nat = Some t' /\ normalized_score t' = Some 100.
Proof.
  apply (normalizeAndAssignTiers_uniform _ sample_config 5 2 (land 2 0 2 2 0)).
  - reflexivity.
  - intros t0 Ht0 Hoi. repeat (apply elem_of_cons in Ht0; destruct Ht0 as [->|Ht0]);
      [reflexivity|discriminate|reflexivity|inversion Ht0].
  - reflexivity.
  - reflexivity.
Defined.

(** Improving a tile never lowers its weighted score: with non-negative
    yield weights, balance factor, fresh-water and goody-hut weights,
    raising its base food, production or gold, giving it a river or a
    goody hut does not decrease [calculateWeightedTileScore]. *)
Theorem calculateWeightedTileScore_mono (cfg : config) (t : tile) (f p g : Q)
    (rv gh : bool) :
  (0 <= nullish (prop (scoring_yields cfg) "food") 1 ->
   0 <= nullish (prop (scoring_yields cfg) "production") 1 ->
   0 <= nullish (prop (scoring_yields cfg) "gold") (1 # 2) ->
   0 <= nullish (prop (scoring_bonuses cfg) "balance_factor") 1 ->
   0 <= nullish (prop (scoring_bonuses cfg) "fresh_water") 0 ->
   0 <= nullish (prop (scoring_bonuses cfg) "goody_hut") 0 ->
   nullish (base_food t) 0 <= f -> nullish (base_production t) 0 <= p ->
   nullish (base_gold t) 0 <= g ->
   (rivers t = true -> rv = true) -> (goodyhut t = true -> gh = true) ->
   calculateWeightedTileScore t cfg
   <= calculateWeightedTileScore (with_yields t f p g rv gh) cfg)%Q.
Proof.
  intros Hfw Hpw Hgw Hbf Hfr Hgh Hf Hp Hg Hrv Hgv.
  unfold calculateWeightedTileScore.
  change (ocean_or_ice (with_yields t f p g rv gh)) with (ocean_or_ice t).
  destruct (ocean_or_ice t); [apply Qle_refl|].
  change (calculateResourceBonus (with_yields t f p g rv gh) cfg)
    with (calculateResourceBonus t cfg).
  change (calculateAppealBonus (with_yields t f p g rv gh) cfg)
    with (calculateAppealBonus t cfg).
  cbn [nullish with_yields base_food base_production base_gold].
  apply Q.max_le_compat_l.
  pose proof (calculateBalanceBonus_mono _ _ f p cfg Hbf Hf Hp).
  assert (calculateYieldScore (nullish (base_food t) 0) (nullish (base_production t) 0)
            (nullish (base_gold t) 0) cfg <= calculateYieldScore f p g cfg)%Q.
  { unfold calculateYieldScore.
    set (a := nullish (prop (scoring_yields cfg) "food") 1%Q) in *.
    set (b := nullish (prop (scoring_yields cfg) "production") 1%Q) in *.
    set (c := nullish (prop (scoring_yields cfg) "gold") (1 # 2)%Q) in *.
    nra. }
  assert (calculateFreshWaterBonus t cfg
          <= calculateFreshWaterBonus (with_yields t f p g rv gh) cfg)%Q.
  { unfold calculateFreshWaterBonus. cbn [with_yields rivers].
    destruct (rivers t); [rewrite Hrv by reflexivity; apply Qle_refl|].
    destruct rv; [exact Hfr|apply Qle_refl]. }
  assert (calculateGoodyBonus t cfg
          <= calculateGoodyBonus (with_yields t f p g rv gh) cfg)%Q.
  { unfold calculateGoodyBonus. cbn [with_yields goodyhut].
    destruct (goodyhut t); [rewrite Hgv by reflexivity; apply Qle_refl|].
    destruct gh; [exact Hgh|apply Qle_refl]. }
  lra.
Qed.

Lemma calculateWeightedTileScore_mono_witness :
  (calculateWeightedTileScore (land 0 0 1 1 0) sample_config
   <= calculateWeightedTileScore (with_yields (land 0 0 1 1 0) 2 1 0 true false)
        sample_config)%Q.
Proof.
  apply calculateWeightedTileScore_mono; try (apply Qle_bool_iff; vm_compute; reflexivity);
    intros H; first [discriminate H | reflexivity].
Defined.

(** [normalizeAndAssignTiers] writes only the derived fields
    ([weighted_score], [normalized_score], [tier], [is_workable]) of the
    tiles, and its result does not depend on the derived fields the input
    tiles carry. *)
Theorem normalizeAndAssignTiers_inputs (ts ts' : list tile) (cfg : config) :
  map reset (fst (normalizeAndAssignTiers ts cfg)) = map reset ts /\
  (map reset ts' = map reset ts ->
   normalizeAndAssignTiers ts' cfg = normalizeAndAssignTiers ts cfg).
Proof.
  split; [apply normalizeAndAssignTiers_reset|apply normalizeAndAssignTiers_reset_eq].
Qed.

(** With a map loaded, [handleRecalculation] rescores the tiles and sets
    [minScore < maxScore] (so the heatmap never divides by zero); every
    workable tile with a numeric [normalized_score] lies in
    [[minScore, maxScore]], and without such a tile the range is
    [[0, 100]]. *)
Theorem handleRecalculation_range (ts : list tile) (cfg : config) (range : Z * Z) :
  exists ts' mn mx,
    handleRecalculation (Some ts) cfg range = (Some ts', (mn, mx)) /\
    ts' = fst (normalizeAndAssignTiers ts cfg) /\
    mn < mx /\
    (forall t n, t ∈ ts' -> workable t = true -> normalized_score t = Some n ->
       mn <= n <= mx) /\
    ((forall t, t ∈ ts' -> workable t = true -> normalized_score t = None) ->
       (mn, mx) = (0, 100)).
Proof. apply handleRecalculation_bounds. Qed.

(** When [getHeatmapColor] interpolates, both gradient stops exist
    ([0 <= segmentIndex] and [segmentIndex + 1 < heatmapColors.length])
    and the local parameter [segmentT] lies in [[0, 1]]. *)
Theorem getHeatmapColor_segment (stateMin stateMax : option Q) (ncolors : nat)
    (score : option Q) (i : Z) (u : Q) :
  getHeatmapColor stateMin stateMax ncolors score = Lerp i u ->
  0 <= i /\ i + 1 < Z.of_nat ncolors /\ (0 <= u <= 1)%Q.
Proof.
  unfold getHeatmapColor. destruct score as [s|]; [|discriminate].
  destruct (_ || (ncolors <? 2)%nat) eqn:E; [discriminate|].
  apply Bool.orb_false_iff in E as [_ E]. apply Nat.ltb_ge in E.
  set (t := Qmax 0 (Qmin 1 _)).
  assert (Ht : (0 <= t <= 1)%Q) by apply clamp01_bounds.
  set (n := Z.of_nat ncolors - 1).
  assert (Hn : 1 <= n) by (unfold n; lia).
  assert (Hn' : (1 <= inject_Z n)%Q)
    by (change 1%Q with (inject_Z 1); rewrite <- Zle_Qle; exact Hn).
  set (x := (t * inject_Z n)%Q).
  assert (Hx : (0 <= x <= inject_Z n)%Q) by (unfold x; split; nra).
  destruct (Qfloor_bounds x) as [Hf1 Hf2].
  assert (Hf0 : 0 <= Qfloor x).
  { change 0 with (Qfloor 0). apply Qfloor_resp_le, Hx. }
  intros H.
  assert (Hi : i = Z.min (Qfloor x) (n - 1)) by congruence.
  assert (Hu : u = (x - inject_Z (Z.min (Qfloor x) (n - 1)))%Q) by congruence.
  subst i u.
  destruct (Z.min_spec (Qfloor x) (n - 1)) as [[Hlt Hm]|[Hge Hm]]; rewrite Hm.
  - split; [exact Hf0|]. split; [unfold n in Hlt; lia|]. lra.
  - split; [lia|]. split; [unfold n; lia|].
    rewrite Zle_Qle in Hge.
    assert (Hsub : (inject_Z (n - 1) == inject_Z n - 1)%Q)
      by (unfold Z.sub; rewrite inject_Z_plus; reflexivity).
    rewrite Hsub in *. lra.
Qed.

Lemma getHeatmapColor_segment_witness :
  exists i u, getHeatmapColor (Some 0%Q) (Some 100%Q) 5 (Some 60%Q) = Lerp i u /\
    (0 <= i /\ i + 1 < Z.of_nat 5 /\ (0 <= u <= 1)%Q).
Proof.
  do 2 eexists. split; [reflexivity|].
  apply (getHeatmapColor_segment (Some 0%Q) (Some 100%Q) 5 (Some 60%Q)).
  reflexivity.
Defined.

(** With [minScore < maxScore], the heatmap position
    [segmentIndex + segmentT] of a score never decreases as the score
    grows: a higher score is never drawn lower in the gradient. *)
Theorem getHeatmapColor_monotone (stateMin stateMax : option Q) (ncolors : nat)
    (s s' : Q) (i i' : Z) (u u' : Q) :
  (nullish stateMin 0 < nullish stateMax 100)%Q -> (s <= s')%Q ->
  getHeatmapColor stateMin stateMax ncolors (Some s) = Lerp i u ->
  getHeatmapColor stateMin stateMax ncolors (Some s') = Lerp i' u' ->
  (inject_Z i + u <= inject_Z i' + u')%Q.
Proof.
  intros Hlt Hs. unfold getHeatmapColor.
  set (mn := nullish stateMin 0%Q). set (mx := nullish stateMax 100%Q).
  fold mn mx in Hlt.
  destruct (_ || (ncolors <? 2)%nat) eqn:E; [discriminate|].
  apply Bool.orb_false_iff in E as [_ E]. apply Nat.ltb_ge in E.
  set (n := Z.of_nat ncolors - 1).
  assert (Hn : (0 <= inject_Z n)%Q)
    by (change 0%Q with (inject_Z 0); rewrite <- Zle_Qle; unfold n; lia).
  intros H H'. injection H as <- <-. injection H' as <- <-.
  set (a := inject_Z (Z.min _ _)). set (a' := inject_Z (Z.min _ _)).
  assert (Hd : ((s - mn) / (mx - mn) <= (s' - mn) / (mx - mn))%Q).
  { unfold Qdiv. apply Qmult_le_compat_r; [lra|]. apply Qinv_le_0_compat. lra. }
  assert (Hc : (Qmax 0 (Qmin 1 ((s - mn) / (mx - mn)))
                <= Qmax 0 (Qmin 1 ((s' - mn) / (mx - mn))))%Q).
  { apply Q.max_le_compat_l, Q.min_le_compat_l, Hd. }
  assert (Hm : (Qmax 0 (Qmin 1 ((s - mn) / (mx - mn))) * inject_Z n
                <= Qmax 0 (Qmin 1 ((s' - mn) / (mx - mn))) * inject_Z n)%Q)
    by (apply Qmult_le_compat_r; assumption).
  lra.
Qed.

Lemma getHeatmapColor_monotone_witness :
  exists i u i' u',
    getHeatmapColor (Some 0%Q) (Some 100%Q) 5 (Some 60%Q) = Lerp i u /\
    getHeatmapColor (Some 0%Q) (Some 100%Q) 5 (Some 120%Q) = Lerp i' u' /\
    (inject_Z i + u <= inject_Z i' + u')%Q.
Proof.
  do 4 eexists. split; [reflexivity|]. split; [reflexivity|].
  apply (getHeatmapColor_monotone (Some 0%Q) (Some 100%Q) 5 60 120).
  - reflexivity.
  - apply Qle_bool_iff. reflexivity.
  - reflexivity.
  - reflexivity.
Defined.

(** After [handleRecalculation], and with at least two gradient colours,
    every workable tile with a numeric score gets a gradient colour (never
    the neutral one) whose position [segmentIndex + segmentT] is exactly
    [(score - minScore) / (maxScore - minScore) * (heatmapColors.length - 1)]:
    the clamping to [[0, 1]] never changes a score. *)
Theorem heatmap_after_recalculation (ts : list tile) (cfg : config) (range : Z * Z)
    (ncolors : nat) (t : tile) (n : Z) :
  (2 <= ncolors)%nat ->
  t ∈ fst (normalizeAndAssignTiers ts cfg) -> workable t = true ->
  normalized_score t = Some n ->
  exists mn mx i u,
    snd (handleRecalculation (Some ts) cfg range) = (mn, mx) /\
    getHeatmapColor (Some (inject_Z mn)) (Some (inject_Z mx)) ncolors
      (Some (inject_Z n)) = Lerp i u /\
    (inject_Z i + u
     == (inject_Z n - inject_Z mn) / (inject_Z mx - inject_Z mn)
        * inject_Z (Z.of_nat ncolors - 1))%Q.
Proof.
  intros Hc Ht Hw Hn.
  destruct (handleRecalculation_bounds ts cfg range)
    as (ts' & mn & mx & E & Ets & Hlt & Hb & _).
  subst ts'. destruct (Hb t n Ht Hw Hn) as [H1 H2].
  exists mn, mx. rewrite E. unfold getHeatmapColor. cbn [nullish snd].
  assert (Hq : Qeq_bool (inject_Z mx) (inject_Z mn) = false).
  { apply Bool.not_true_iff_false. intros Hq. apply Qeq_bool_iff in Hq.
    rewrite inject_Z_injective in Hq. lia. }
  assert (Hc' : (ncolors <? 2)%nat = false) by (apply Nat.ltb_ge; exact Hc).
  rewrite Hq, Hc'. simpl orb. cbv zeta.
  do 2 eexists. split; [reflexivity|]. split; [reflexivity|].
  set (r := ((inject_Z n - inject_Z mn) / (inject_Z mx - inject_Z mn))%Q).
  rewrite Zle_Qle in H1, H2. rewrite Zlt_Qlt in Hlt.
  assert (Hr0 : (0 <= r)%Q).
  { unfold r. apply Qle_shift_div_l; lra. }
  assert (Hr1 : (r <= 1)%Q).
  { unfold r. apply Qle_shift_div_r; lra. }
  assert (Hcl : (Qmax 0 (Qmin 1 r) == r)%Q).
  { rewrite (Q.min_r 1 r Hr1). apply Q.max_r. exact Hr0. }
  assert (E2 : forall a T N : Q, (a + (T * N - a) == T * N)%Q) by (intros; ring).
  eapply Qeq_trans; [apply E2|]. rewrite Hcl. reflexivity.
Qed.

Lemma heatmap_after_recalculation_witness :
  exists mn mx i u,
    snd (handleRecalculation (Some sampleA) sample_config (0, 100)) = (mn, mx) /\
    getHeatmapColor (Some (inject_Z mn)) (Some (inject_Z mx)) 5
      (Some (inject_Z 133)) = Lerp i u /\
    (inject_Z i + u
     == (inject_Z 133 - inject_Z mn) / (inject_Z mx - inject_Z mn)
        * inject_Z (Z.of_nat 5 - 1))%Q.
Proof.
  apply (heatmap_after_recalculation sampleA sample_config (0, 100) 5 (sampleA_tile 0) 133).
  - lia.
  - apply list_elem_of_lookup_2 with 0%nat. vm_compute. reflexivity.
  - vm_compute. reflexivity.
  - vm_compute. reflexivity.
Defined.

(** [calculateElevation], for a non-negative [config.elevationFactor] [f]
    and a [Math.random()] value in [[0, 1)]: the elevation lies in
    [[-0.32 f, 1.25 f]]; an ice tile is flat whatever its terrain; only
    ocean or coast terrain can lie below zero; and the random draw affects
    open ocean only. *)
Theorem calculateElevation_range (f rnd : Q) (t : tile) :
  (0 <= f -> 0 <= rnd < 1 ->
   - (8 # 25) * f <= calculateElevation f rnd t <= (5 # 4) * f)%Q /\
  (nullish (feature t) EmptyString = "FEATURE_ICE"%string ->
   calculateElevation f rnd t == 0)%Q /\
  ((0 <= f)%Q -> (calculateElevation f rnd t < 0)%Q ->
   nullish (terrain t) EmptyString = "TERRAIN_OCEAN"%string \/
   nullish (terrain t) EmptyString = "TERRAIN_COAST"%string) /\
  (nullish (terrain t) EmptyString <> "TERRAIN_OCEAN"%string ->
   forall rnd', calculateElevation f rnd' t = calculateElevation f rnd t).
Proof.
  unfold calculateElevation.
  set (T := nullish (terrain t) EmptyString). set (F := nullish (feature t) EmptyString).
  split; [|split; [|split]].
  - intros Hf [Hr0 Hr1].
    destruct (String.eqb T "TERRAIN_OCEAN"); destruct (String.eqb T "TERRAIN_COAST");
    destruct (str_includes T "HILLS"); destruct (str_includes T "MOUNTAIN");
    destruct (String.eqb F "FEATURE_FOREST" || String.eqb F "FEATURE_JUNGLE");
    destruct (String.eqb F "FEATURE_ICE"); split; nra.
  - intros HF. rewrite HF.
    change (String.eqb "FEATURE_ICE" "FEATURE_FOREST" || String.eqb "FEATURE_ICE" "FEATURE_JUNGLE")
      with false.
    change (String.eqb "FEATURE_ICE" "FEATURE_ICE") with true. cbv iota. ring.
  - intros Hf Hlt.
    destruct (String.eqb_spec T "TERRAIN_OCEAN") as [HO|HO]; [left; exact HO|].
    destruct (String.eqb_spec T "TERRAIN_COAST") as [HC|HC]; [right; exact HC|].
    exfalso. revert Hlt. apply Qle_not_lt.
    destruct (str_includes T "HILLS"); destruct (str_includes T "MOUNTAIN");
    destruct (String.eqb F "FEATURE_FOREST" || String.eqb F "FEATURE_JUNGLE");
    destruct (String.eqb F "FEATURE_ICE"); nra.
  - intros HO rnd'. destruct (String.eqb_spec T "TERRAIN_OCEAN") as [E|E];
      [contradiction|reflexivity].
Qed.

(** The display names built by [formatTerrainName], [formatFeatureName]
    and [formatResourceName] never contain an underscore, whatever the
    input. *)
Theorem format_names_no_underscore (s : option string) :
  str_includes (formatTerrainName s) "_" = false /\
  str_includes (formatFeatureName s) "_" = false /\
  str_includes (formatResourceName s) "_" = false.
Proof.
  destruct s as [[|a s]|]; try (split; [reflexivity|split; reflexivity]).
  split; [|split]; apply format_key_no_underscore.
Qed.

(** For a key [PREFIX_W1_..._Wn] made of words without underscores, the
    formatters strip the prefix and return the words separated by spaces,
    each with its first character kept and the rest lower-cased
    ([TERRAIN_GRASS_HILLS] gives [Grass Hills]). *)
Theorem format_names_words (ws : list string) :
  ws <> [] -> (forall w, w ∈ ws -> str_includes w "_" = false) ->
  formatTerrainName (Some (String.append "TERRAIN_" (array_join "_" ws)))
    = array_join " " (map capitalize_word ws) /\
  formatFeatureName (Some (String.append "FEATURE_" (array_join "_" ws)))
    = array_join " " (map capitalize_word ws) /\
  formatResourceName (Some (String.append "RESOURCE_" (array_join "_" ws)))
    = array_join " " (map capitalize_word ws).
Proof.
  intros Hne Hw.
  assert (H : forall p, format_key p (String.append p (array_join "_" ws))
                        = array_join " " (map capitalize_word ws)).
  { intros p. unfold format_key. rewrite replace_first_prefix.
    rewrite (str_split_join "_"%char ws Hne Hw). reflexivity. }
  split; [|split]; apply H.
Qed.

Lemma format_names_words_witness :
  formatTerrainName (Some (String.append "TERRAIN_" (array_join "_" ["GRASS"; "HILLS"])))
    = array_join " " (map capitalize_word ["GRASS"; "HILLS"]) /\
  formatFeatureName (Some (String.append "FEATURE_" (array_join "_" ["GRASS"; "HILLS"])))
    = array_join " " (map capitalize_word ["GRASS"; "HILLS"]) /\
  formatResourceName (Some (String.append "RESOURCE_" (array_join "_" ["GRASS"; "HILLS"])))
    = array_join " " (map capitalize_word ["GRASS"; "HILLS"]).
Proof.
  apply format_names_words; [discriminate|].
  intros w Hw. repeat (apply elem_of_cons in Hw; destruct Hw as [-> | Hw]);
    [reflexivity|reflexivity|inversion Hw].
Defined.




(** After a scoring pass with a non-empty percentile table whose labels
    are non-empty and all selected in [config.selectedTiers],
    [updateMapDisplay] hides no hexagon, and every workable tile counts as
    being of a selected tier. *)
Theorem recalculated_tiles_visible (ts : list tile) (cfg : config) (dc : display_config)
    (n : nat) (mn mx : option Q) (ef rnd : Q) (hv : bool) (prev : Z * Q) (t : tile) :
  tier_percentiles cfg <> [] ->
  (forall l, l ∈ map fst (tier_percentiles cfg) -> l <> ""%string /\ l ∈ selectedTiers dc) ->
  t ∈ fst (normalizeAndAssignTiers ts cfg) ->
  hv_visible (updateMapDisplay_hex dc n mn mx ef rnd hv prev t) = true /\
  (is_workable t = Some true -> tier_selected dc t = true).
Proof.
  intros Hne Hsel Ht. rewrite updateMapDisplay_hex_visible.
  apply list_elem_of_lookup in Ht as [i Hi].
  destruct (normalizeAndAssignTiers_cover ts cfg Hne) as [Hlen Hcov].
  destruct (ts !! i) as [t0|] eqn:E0.
  2:{ apply lookup_ge_None in E0. apply lookup_lt_Some in Hi. lia. }
  destruct (Hcov i t0 E0) as (t' & Ht' & Hw & Hnw). rewrite Hi in Ht'.
  injection Ht' as <-.
  destruct (ocean_or_ice t0) eqn:Eo.
  - destruct (Hnw eq_refl) as [Hf _]. rewrite Hf. split; [reflexivity|discriminate].
  - destruct (Hw eq_refl) as [Htw [l Hl]].
    pose proof (normalizeAndAssignTiers_tier_labels ts cfg i t l Hi Hl) as Hlab.
    destruct (Hsel l Hlab) as [Hl1 Hl2].
    rewrite (tier_selected_intro dc t l Hl Hl1 Hl2), Htw.
    split; reflexivity.
Qed.

Lemma recalculated_tiles_visible_witness :
  hv_visible (updateMapDisplay_hex (mkDisplayConfig false true true true tierStyles_keys) 5
    (Some 0%Q) (Some 100%Q) 1 0 false (0, 0%Q) (sampleA_tile 0)) = true /\
  (is_workable (sampleA_tile 0) = Some true ->
   tier_selected (mkDisplayConfig false true true true tierStyles_keys) (sampleA_tile 0) = true).
Proof.
  apply (recalculated_tiles_visible sampleA sample_config
           (mkDisplayConfig false true true true tierStyles_keys) 5
           (Some 0%Q) (Some 100%Q) 1 0 false (0, 0%Q) (sampleA_tile 0)).
  - discriminate.
  - intros l Hl. simpl in Hl.
    repeat (apply elem_of_cons in Hl; destruct Hl as [-> | Hl]);
      [..|apply list_elem_of_In in Hl; contradiction];
      (split; [discriminate|apply list_elem_of_In; simpl;
        repeat (first [left; reflexivity | right])]).
  - apply list_elem_of_lookup_2 with 0%nat. vm_compute. reflexivity.
Defined.

(** [lerpAngle] turns the shortest way: for some whole number [k] of
    turns, the difference [d = end - start - 2 k Math.PI] lies in
    [[-Math.PI, Math.PI)] and [lerpAngle(start, end, t)] is
    [start + d * min(1, t)]; it ends on an angle equivalent to [end] from
    [t = 1] on and never moves more than half a turn away from [start]. *)
Theorem lerpAngle_shortest (start end_ t : Q) :
  exists k : Z,
    (- Math_PI <= end_ - start - 2 * Math_PI * inject_Z k < Math_PI)%Q /\
    (lerpAngle start end_ t
     == start + (end_ - start - 2 * Math_PI * inject_Z k) * Qmin 1 t)%Q.
Proof.
  unfold lerpAngle.
  assert (HP : (0 < Math_PI)%Q) by reflexivity.
  set (P := Math_PI) in *. clearbody P.
  set (x := (end_ - start)%Q).
  assert (Hr1 : (- (2 * P) < js_mod x (2 * P) < 2 * P)%Q).
  { destruct (Qlt_le_dec x 0) as [Hx|Hx].
    - destruct (js_mod_neg x (2 * P)) as [H1 H2]; [lra|exact Hx|]. split; lra.
    - destruct (js_mod_nonneg x (2 * P)) as [H1 H2]; [lra|exact Hx|]. split; lra. }
  assert (E1 : js_mod x (2 * P) = (x - 2 * P * inject_Z (js_trunc (x / (2 * P))))%Q)
    by reflexivity.
  set (r1 := js_mod x (2 * P)) in *. clearbody r1.
  destruct (js_mod_nonneg (r1 + 3 * P) (2 * P)) as [Hr2 Hr2']; [lra|lra|].
  assert (E2 : js_mod (r1 + 3 * P) (2 * P)
               = (r1 + 3 * P - 2 * P * inject_Z (js_trunc ((r1 + 3 * P) / (2 * P))))%Q)
    by reflexivity.
  set (r2 := js_mod (r1 + 3 * P) (2 * P)) in *. clearbody r2.
  set (k1 := js_trunc (x / (2 * P))) in *. set (k2 := js_trunc ((r1 + 3 * P) / (2 * P))) in *.
  exists (k1 + k2 - 1).
  assert (Hd : (x - 2 * P * inject_Z (k1 + k2 - 1) == r2 - P)%Q).
  { unfold Z.sub. rewrite !inject_Z_plus, inject_Z_opp. change (inject_Z 1) with 1%Q.
    rewrite E2, E1. ring. }
  split.
  - rewrite Hd. split; lra.
  - rewrite Hd. reflexivity.
Qed.

(** For a canvas of positive width and height, [updateMousePosition] maps
    the canvas rectangle onto the square [[-1, 1] x [-1, 1]]: the pointer
    is over the canvas exactly when both coordinates lie in [[-1, 1]]; the
    top edge maps to [y = 1]; x grows to the right and y grows upward. *)
Theorem updateMousePosition_ndc (left top width height cx cy : Q) :
  (0 < width)%Q -> (0 < height)%Q ->
  ((left <= cx <= left + width)%Q <->
     (-1 <= fst (updateMousePosition left top width height cx cy) <= 1)%Q) /\
  ((top <= cy <= top + height)%Q <->
     (-1 <= snd (updateMousePosition left top width height cx cy) <= 1)%Q) /\
  (snd (updateMousePosition left top width height cx top) == 1)%Q /\
  (forall cx' cy', (cx <= cx')%Q -> (cy <= cy')%Q ->
     fst (updateMousePosition left top width height cx cy)
       <= fst (updateMousePosition left top width height cx' cy') /\
     snd (updateMousePosition left top width height cx' cy')
       <= snd (updateMousePosition left top width height cx cy))%Q.
Proof.
  intros Hw Hh. unfold updateMousePosition; simpl fst; simpl snd.
  assert (Hdiv : forall a b c, (0 < c)%Q -> ((a <= b)%Q <-> (a / c <= b / c)%Q)).
  { intros a b c Hc. split; intros H.
    - unfold Qdiv. apply Qmult_le_compat_r; [exact H|]. apply Qinv_le_0_compat. lra.
    - assert (Ha : (a == a / c * c)%Q) by (field; lra).
      assert (Hb : (b == b / c * c)%Q) by (field; lra).
      rewrite Ha, Hb. apply Qmult_le_compat_r; lra. }
  split; [|split; [|split]].
  - rewrite (Hdiv left cx width Hw), (Hdiv cx (left + width)%Q width Hw).
    assert (E : forall a : Q, ((a - left) / width == a / width - left / width)%Q)
      by (intros a; field; lra).
    assert (E' : ((left + width) / width == left / width + 1)%Q) by (field; lra).
    rewrite E, E'. split; intros [Ha Hb]; split; lra.
  - rewrite (Hdiv top cy height Hh), (Hdiv cy (top + height)%Q height Hh).
    assert (E : forall a : Q, ((a - top) / height == a / height - top / height)%Q)
      by (intros a; field; lra).
    assert (E' : ((top + height) / height == top / height + 1)%Q) by (field; lra).
    rewrite E, E'. split; intros [Ha Hb]; split; lra.
  - assert (E : ((top - top) / height == 0)%Q) by (field; lra). rewrite E. ring.
  - intros cx' cy' Hx Hy.
    assert (Hx' : ((cx - left) / width <= (cx' - left) / width)%Q)
      by (apply (proj1 (Hdiv _ _ _ Hw)); lra).
    assert (Hy' : ((cy - top) / height <= (cy' - top) / height)%Q)
      by (apply (proj1 (Hdiv _ _ _ Hh)); lra).
    split; lra.
Qed.

Lemma updateMousePosition_ndc_witness :
  (0 < 800)%Q /\ (0 < 600)%Q /\
  (((10 <= 410 <= 10 + 800)%Q <->
     (-1 <= fst (updateMousePosition 10 20 800 600 410 320) <= 1)%Q) /\
   ((20 <= 320 <= 20 + 600)%Q <->
     (-1 <= snd (updateMousePosition 10 20 800 600 410 320) <= 1)%Q) /\
   (snd (updateMousePosition 10 20 800 600 410 20) == 1)%Q /\
   (forall cx' cy', (410 <= cx')%Q -> (320 <= cy')%Q ->
      fst (updateMousePosition 10 20 800 600 410 320)
        <= fst (updateMousePosition 10 20 800 600 cx' cy') /\
      snd (updateMousePosition 10 20 800 600 cx' cy')
        <= snd (updateMousePosition 10 20 800 600 410 320))%Q).
Proof.
  split; [reflexivity|]. split; [reflexivity|].
  apply (updateMousePosition_ndc 10 20 800 600 410 320); reflexivity.
Defined.

(** [updateConfig] round trip: after a successful update, reading the
    dotted path [key] gives back [value] (also for [hexRadius], whose
    spacings are recomputed beside it); and the update succeeds whenever
    the parent of the last key is an existing object (a [hexRadius] value
    being a number). *)
Theorem updateConfig_roundtrip (key : string) (value config : jval) :
  (forall c, updateConfig key value config = ConfigSet c ->
     jpath c (str_split "."%char key) = Some value) /\
  (forall fs, jpath config (removelast (str_split "."%char key)) = Some (JObj fs) ->
     (key = "hexRadius"%string -> exists r, value = JNum r) ->
     exists c, updateConfig key value config = ConfigSet c).
Proof.
  split.
  - intros c. unfold updateConfig.
    destruct (set_path config (str_split "." key) value) as [c0| |] eqn:E; try discriminate.
    pose proof (set_path_roundtrip _ _ _ _ E) as H0.
    destruct (String.eqb_spec key "hexRadius") as [->|Hk].
    + destruct c0 as [| | | | |fs]; try discriminate.
      destruct (jget (JObj fs) "hexRadius") as [[r| | | | |]|]; try discriminate.
      intros H. injection H as <-. simpl in H0 |- *.
      rewrite !prop_set_prop_ne by discriminate. exact H0.
    + intros H. injection H as <-. exact H0.
  - intros fs Hp Hr. unfold updateConfig.
    destruct (set_path_success (str_split "." key) config value fs
                (str_split_not_nil _ _) Hp) as [c0 E].
    rewrite E.
    destruct (String.eqb_spec key "hexRadius") as [->|Hk]; [|eauto].
    destruct (Hr eq_refl) as [r ->].
    pose proof (set_path_roundtrip _ _ _ _ E) as H0.
    destruct (set_path_top _ _ _ _ _ E) as (fs0 & x & _ & ->).
    simpl in H0 |- *. rewrite prop_set_prop_eq in H0 |- *.
    injection H0 as ->. eauto.
Qed.

(** A successful [updateConfig] of a key other than [hexRadius] leaves
    every top-level entry of the configuration other than the first key
    of the path untouched. *)
Theorem updateConfig_frame (key : string) (value config c : jval) (k' : string) :
  updateConfig key value config = ConfigSet c ->
  key <> "hexRadius"%string ->
  k' <> hd ""%string (str_split "."%char key) ->
  jget c k' = jget config k'.
Proof.
  intros H Hk Hk'. unfold updateConfig in H.
  apply String.eqb_neq in Hk.
  destruct (set_path config (str_split "." key) value) as [c0| |] eqn:E; try discriminate.
  rewrite Hk in H. injection H as <-.
  destruct (str_split "." key) as [|k ks] eqn:Es; [discriminate|].
  destruct (set_path_top _ _ _ _ _ E) as (fs & x & -> & ->).
  simpl in Hk' |- *. apply prop_set_prop_ne, Hk'.
Qed.

Lemma updateConfig_frame_witness :
  updateConfig "scoring_weights.yields.food" (JNum 3)
    (JObj [("hexRadius", JNum 1);
           ("scoring_weights", JObj [("yields", JObj [("food", JNum 1)])])])
  = ConfigSet (JObj [("hexRadius", JNum 1);
                     ("scoring_weights", JObj [("yields", JObj [("food", JNum 3)])])]) /\
  jget (JObj [("hexRadius", JNum 1);
              ("scoring_weights", JObj [("yields", JObj [("food", JNum 3)])])]) "hexRadius"
  = jget (JObj [("hexRadius", JNum 1);
                ("scoring_weights", JObj [("yields", JObj [("food", JNum 1)])])]) "hexRadius".
Proof.
  split; [reflexivity|].
  apply (updateConfig_frame "scoring_weights.yields.food" (JNum 3)
    (JObj [("hexRadius", JNum 1);
           ("scoring_weights", JObj [("yields", JObj [("food", JNum 1)])])])
    (JObj [("hexRadius", JNum 1);
           ("scoring_weights", JObj [("yields", JObj [("food", JNum 3)])])]) "hexRadius").
  - reflexivity.
  - discriminate.
  - discriminate.
Defined.

(** Setting [hexRadius] to a number [r] always succeeds and recomputes the
    spacings: [verticalSpacing = r * Math.sqrt(3) / 2] and
    [horizontalSpacing = r * 1.5]; every other top-level entry is kept. *)
Theorem updateConfig_hexRadius (fs : list (string * jval)) (r : Q) :
  exists c, updateConfig "hexRadius" (JNum r) (JObj fs) = ConfigSet c /\
    jget c "hexRadius" = Some (JNum r) /\
    jget c "verticalSpacing" = Some (JNum (r * Math_SQRT3 / 2)) /\
    jget c "horizontalSpacing" = Some (JNum (r * (3 # 2))) /\
    (forall k', k' <> "hexRadius"%string -> k' <> "verticalSpacing"%string ->
       k' <> "horizontalSpacing"%string -> jget c k' = prop fs k').
Proof.
  set (fs1 := set_prop fs "hexRadius" (JNum r)).
  exists (JObj (set_prop (set_prop fs1 "verticalSpacing" (JNum (r * Math_SQRT3 / 2)))
                 "horizontalSpacing" (JNum (r * (3 # 2))))).
  assert (E : updateConfig "hexRadius" (JNum r) (JObj fs)
              = ConfigSet (JObj (set_prop (set_prop fs1 "verticalSpacing"
                  (JNum (r * Math_SQRT3 / 2))) "horizontalSpacing" (JNum (r * (3 # 2)))))).
  { unfold updateConfig. change (str_split "." "hexRadius") with ["hexRadius"%string].
    simpl set_path. change (String.eqb "hexRadius" "hexRadius") with true.
    cbv iota. simpl jget. unfold fs1. rewrite prop_set_prop_eq. reflexivity. }
  split; [exact E|]. simpl jget.
  split; [rewrite !prop_set_prop_ne by discriminate; apply prop_set_prop_eq|].
  split; [rewrite prop_set_prop_ne by discriminate; apply prop_set_prop_eq|].
  split; [apply prop_set_prop_eq|].
  intros k' H1 H2 H3. unfold fs1. rewrite !prop_set_prop_ne by assumption. reflexivity.
Qed.
